(** * gridgame: the Grid container and the slam algorithm of [game/game.py]

    A shallow embedding of the two classes of [src/game/game.py], [Grid] and
    [Game], and of the command loop of [src/main.py].  Python integers are
    unbounded, so cell values, coordinates and dimensions are [Z].  The
    backing array of a grid is a list of rows, each a list of cells, read
    with stdpp's lookup and written with stdpp's insert; the key bindings of
    the command line are a [gmap] over strings.
    Methods that read or mutate an object and may raise are functions in a
    state-and-exception monad whose outcomes keep the state reached when the
    exception left the method, because Python mutates the grid in place. *)

From stdpp Require Import base list relations strings gmap.

Open Scope Z_scope.

(** ** Exceptions and the monad of methods *)

(** The two exceptions the module raises: [ValueError] (the InvalidArgument
    of the specification) and [IndexError] (its OutOfBounds). *)
Inductive exn : Set := ValueError | IndexError.

(** What a call leaves behind: a returned value, a raised exception, or a
    loop that used up the iterations it was allowed; every case carries the
    state of the mutated object at that moment. *)
Inductive outcome (S A : Type) : Type :=
| Ok (a : A) (s : S)
| Raise (e : exn) (s : S)
| OutOfFuel (s : S).
Arguments Ok {S A} a s.
Arguments Raise {S A} e s.
Arguments OutOfFuel {S A} s.

Definition M (S A : Type) : Type := S -> outcome S A.

Definition ret {S A} (a : A) : M S A := fun s => Ok a s.

Definition bind {S A B} (m : M S A) (k : A -> M S B) : M S B :=
  fun s => match m s with
           | Ok a s' => k a s'
           | Raise e s' => Raise e s'
           | OutOfFuel s' => OutOfFuel s'
           end.

Definition raise {S A} (e : exn) : M S A := fun s => Raise e s.

Definition out_of_fuel {S A} : M S A := fun s => OutOfFuel s.

Definition reads {S A} (f : S -> A) : M S A := fun s => Ok (f s) s.

Declare Scope py_scope.
Delimit Scope py_scope with py.
Notation "x <- c1 ;; c2" := (bind c1 (fun x => c2))
  (at level 100, c1 at next level, right associativity) : py_scope.
Notation "c1 ;;; c2" := (bind c1 (fun _ => c2))
  (at level 100, right associativity) : py_scope.
Open Scope py_scope.

(** The state a call ends in, whatever its outcome. *)
Definition state_of {S A} (o : outcome S A) : S :=
  match o with Ok _ s => s | Raise _ s => s | OutOfFuel s => s end.

(** [for x in l: body x] *)
Fixpoint for_each {S A} (l : list A) (body : A -> M S unit) : M S unit :=
  match l with
  | [] => ret tt
  | x :: l' => body x ;;; for_each l' body
  end.

(** [for x in l: if p x: return True] followed by [return False] *)
Fixpoint any_m {S A} (l : list A) (p : A -> M S bool) : M S bool :=
  match l with
  | [] => ret false
  | x :: l' => b <- p x ;; if b then ret true else any_m l' p
  end.

(** [range(n)] and [range(a, b)] *)
Definition range (n : Z) : list Z := seqZ 0 n.
Definition range2 (a b : Z) : list Z := seqZ a (b - a).

(** ** Grid *)

Definition direction : Type := Z * Z.

Definition UP : direction := (-1, 0).
Definition DOWN : direction := (1, 0).
Definition LEFT : direction := (0, -1).
Definition RIGHT : direction := (0, 1).

Definition DIRECTIONS : list direction := [UP; RIGHT; DOWN; LEFT].

Definition EDGE : Z := -1.
Definition EMPTY : Z := 0.

Record Grid : Type := mkGrid {
  width : Z;
  height : Z;
  _grid : list (list Z)
}.

(** [Grid._makegrid]: a row of [EDGE], then [height] copies of a row of
    [initial_value] between two [EDGE], then a row of [EDGE].  The rows are
    copied with [[:]], so they share nothing. *)
Definition _makegrid (width height initial_value : Z) : exn + list (list Z) :=
  if (width <=? 0) || (height <=? 0) then inl ValueError
  else
    let real_width := width + 2 in
    let blank := (fun _ => EDGE) <$> range real_width in
    let middle :=
      ([EDGE] ++ ((fun _ => initial_value) <$> range width)) ++ [EDGE] in
    inr (([blank] ++ ((fun _ => middle) <$> range height)) ++ [blank]).

(** [Grid.__init__] *)
Definition Grid_init (width height : Z) : exn + Grid :=
  match _makegrid width height EMPTY with
  | inl e => inl e
  | inr cells => inr (mkGrid width height cells)
  end.

Definition _to_grid_indices (j i : Z) : Z * Z := (j + 1, i + 1).
Definition _to_view_indices (j i : Z) : Z * Z := (j - 1, i - 1).

(** [Grid._apply_dir] *)
Definition _apply_dir (j i : Z) (dir_ : direction) : Z * Z :=
  let '(j2, i2) := dir_ in (j + j2, i + i2).

(** [Grid._on_grid], on indices of the backing array *)
Definition _on_grid (g : Grid) (j i : Z) : bool :=
  ((0 <? i) && (i <=? width g)) && ((0 <? j) && (j <=? height g)).

(** [self._grid[j][i]]: every index the module uses here is positive, so
    Python's wrap-around of negative indices never applies; a missing row or
    cell is [None] (Python's IndexError). *)
Definition raw (g : Grid) (j i : Z) : option Z :=
  match _grid g !! Z.to_nat j with
  | Some row => row !! Z.to_nat i
  | None => None
  end.

(** [self._grid[j][i] = it] *)
Definition raw_set (g : Grid) (j i it : Z) : Grid :=
  match _grid g !! Z.to_nat j with
  | Some row =>
      mkGrid (width g) (height g)
             (<[Z.to_nat j := <[Z.to_nat i := it]> row]> (_grid g))
  | None => g
  end.

(** [Grid._range_check] *)
Definition _range_check (j i : Z) : M Grid unit :=
  fun g =>
    let '(grid_j, grid_i) := _to_grid_indices j i in
    if negb (_on_grid g grid_j grid_i) then Raise IndexError g else Ok tt g.

(** [Grid.get] *)
Definition get (j i : Z) : M Grid Z :=
  _range_check j i ;;;
  fun g =>
    let '(grid_j, grid_i) := _to_grid_indices j i in
    match raw g grid_j grid_i with
    | Some v => Ok v g
    | None => Raise IndexError g
    end.

(** [Grid.set] *)
Definition set (j i it : Z) : M Grid Z :=
  _range_check j i ;;;
  fun g =>
    let '(grid_j, grid_i) := _to_grid_indices j i in
    match raw g grid_j grid_i with
    | Some _ => Ok it (raw_set g grid_j grid_i it)
    | None => Raise IndexError g
    end.

(** [Grid._rows] and [Grid.cell_values]: the cells of the public space in
    row-major order, each one a read of the backing array; the sequence as a
    whole is [None] when one of the reads would raise. *)
Definition _rows (g : Grid) : list (list (option Z)) :=
  (fun j => (fun i => raw g j i) <$> range2 1 (width g + 1))
    <$> range2 1 (height g + 1).

Definition cell_values (g : Grid) : option (list Z) :=
  mapM id (mjoin (_rows g)).

(** [Grid._cell_indices] *)
Definition _cell_indices (g : Grid) : list (Z * Z) :=
  j ← range2 1 (height g + 1);
  i ← range2 1 (width g + 1);
  [(j, i)].

(** [Grid.available_cells]; the comparison [self._grid[j][i] == Grid.EMPTY]
    is the equation [raw g j i = Some EMPTY], the read being always defined
    on an array of the shape [_makegrid] builds. *)
Definition available_cells (g : Grid) : list (Z * Z) :=
  (fun p => _to_view_indices (fst p) (snd p))
    <$> filter (fun p => raw g (fst p) (snd p) = Some EMPTY) (_cell_indices g).

(** [Grid.occupied_cells] *)
Definition occupied_cells (g : Grid) : list (Z * Z) :=
  (fun p => _to_view_indices (fst p) (snd p))
    <$> filter (fun p => raw g (fst p) (snd p) <> Some EMPTY
                         /\ raw g (fst p) (snd p) <> Some EDGE)
               (_cell_indices g).

(** [Grid.neighbors] *)
Definition neighbors (g : Grid) (j i : Z) (directions : list direction)
  : list (Z * Z) :=
  let '(grid_j, grid_i) := _to_grid_indices j i in
  (fun n => _to_view_indices (fst n) (snd n))
    <$> filter (fun n => _on_grid g (fst n) (snd n) = true)
               ((fun dir_ => _apply_dir grid_j grid_i dir_) <$> directions).

(** ** Game *)

Record Game : Type := mkGame {
  grid : Grid;
  initial_value : Z;
  goal : Z;
  _max : Z
}.

(** [Game.__init__] *)
Definition Game_init (width height goal initial_value : Z) : exn + Game :=
  match Grid_init width height with
  | inl e => inl e
  | inr g => inr (mkGame g initial_value goal 0)
  end.

(** A method of [self.grid] run from a method of the game: the grid is
    mutated in place, also when the call raises. *)
Definition with_grid {A} (m : M Grid A) : M Game A :=
  fun gm =>
    let upd g := mkGame g (initial_value gm) (goal gm) (_max gm) in
    match m (grid gm) with
    | Ok a g => Ok a (upd g)
    | Raise e g => Raise e (upd g)
    | OutOfFuel g => OutOfFuel (upd g)
    end.

Definition dir_eqb (a b : direction) : bool :=
  (fst a =? fst b) && (snd a =? snd b).

(** [direction in ds] *)
Definition dir_in (d : direction) (ds : list direction) : bool :=
  existsb (dir_eqb d) ds.

(** [Game._validate_direction] *)
Definition _validate_direction {S} (direction : direction) : M S unit :=
  if negb (dir_in direction DIRECTIONS) then raise ValueError else ret tt.

(** The tuple [_get_params_for_direction] returns. *)
Record params : Type := mkParams {
  p_start : Z;
  p_max : Z;
  p_delta : Z;
  p_get : Z -> Z -> M Grid Z;
  p_set : Z -> Z -> Z -> M Grid Z
}.

(** [Game._get_params_for_direction] *)
Definition _get_params_for_direction (direction : direction) : M Game params :=
  fun gm =>
    let g := grid gm in
    let axis :=
      if dir_in direction [LEFT; RIGHT] then
        Some (width g, get, set)
      else if dir_in direction [UP; DOWN] then
        Some (height g, (fun j i => get i j), (fun j i it => set i j it))
      else None in
    match axis with
    | None => Raise ValueError gm
    | Some (max_, get_, set_) =>
        if dir_in direction [LEFT; UP] then
          Ok (mkParams 0 max_ 1 get_ set_) gm
        else if dir_in direction [RIGHT; DOWN] then
          Ok (mkParams (max_ - 1) max_ (-1) get_ set_) gm
        else Raise ValueError gm
    end.

(** The [while] loop of [Game._squash] for one [row]; [fuel] bounds the
    number of iterations. *)
Fixpoint squash_while (fuel : nat) (max_ delta : Z)
    (get_ : Z -> Z -> M Grid Z) (set_ : Z -> Z -> Z -> M Grid Z)
    (row curr last_empty : Z) : M Grid unit :=
  if ((0 <=? curr) && (curr <? max_))
     && ((0 <=? last_empty) && (last_empty <? max_)) then
    match fuel with
    | O => out_of_fuel
    | Datatypes.S fuel' =>
        le_val <- get_ row last_empty ;;
        last_empty' <-
          (if le_val =? EMPTY then
             cv <- get_ row curr ;;
             if cv >? 0 then
               v <- get_ row curr ;;
               set_ row last_empty v ;;;
               set_ row curr EMPTY ;;;
               ret (last_empty + delta)
             else ret last_empty
           else ret (last_empty + delta)) ;;
        squash_while fuel' max_ delta get_ set_ row (curr + delta) last_empty'
    end
  else ret tt.

(** [Game._squash]; each row's loop is given [max_] iterations, which is what
    a scan of [max_] cells by steps of one cell takes. *)
Definition _squash (p : params) : M Grid unit :=
  for_each (range (p_max p))
    (fun row =>
       squash_while (Z.to_nat (p_max p)) (p_max p) (p_delta p)
                    (p_get p) (p_set p) row (p_start p) (p_start p)).

(** [bounds] of [Game._combine] *)
Definition bounds (start max_ : Z) (x : Z) : bool :=
  if start =? 0 then x <? max_ - 1 else x >? 0.

(** The [while] loop of [Game._combine] for one [row]. *)
Fixpoint combine_while (fuel : nat) (start max_ delta : Z)
    (get_ : Z -> Z -> M Grid Z) (set_ : Z -> Z -> Z -> M Grid Z)
    (row curr : Z) : M Grid unit :=
  if bounds start max_ curr then
    match fuel with
    | O => out_of_fuel
    | Datatypes.S fuel' =>
        curr_val <- get_ row curr ;;
        next_val <- get_ row (curr + delta) ;;
        if negb (curr_val =? EMPTY) && (curr_val =? next_val) then
          set_ row curr (curr_val * 2) ;;;
          set_ row (curr + delta) EMPTY ;;;
          combine_while fuel' start max_ delta get_ set_ row (curr + delta * 2)
        else
          combine_while fuel' start max_ delta get_ set_ row (curr + delta)
    end
  else ret tt.

(** [Game._combine] *)
Definition _combine (p : params) : M Grid unit :=
  for_each (range (p_max p))
    (fun row =>
       combine_while (Z.to_nat (p_max p)) (p_start p) (p_max p) (p_delta p)
                     (p_get p) (p_set p) row (p_start p)).

(** [random.choice(seq)]: [rnd] is the number the generator draws; an empty
    sequence has nothing to choose from (Python's IndexError). *)
Definition choice {A} (rnd : nat) (seq : list A) : option A :=
  match seq with
  | [] => None
  | _ => seq !! (rnd mod length seq)%nat
  end.

(** [Game._place_random] *)
Definition _place_random (rnd : nat) : M Game unit :=
  fun gm =>
    match choice rnd (available_cells (grid gm)) with
    | None => Ok tt gm
    | Some (i, j) => (with_grid (set i j (initial_value gm)) ;;; ret tt) gm
    end.

(** [Game.start]; [r1] and [r2] are the two random draws. *)
Definition start (r1 r2 : nat) : M Game unit :=
  _place_random r1 ;;; _place_random r2.

(** [max(seq)] of Python: a ValueError on an empty sequence. *)
Definition py_max (l : list Z) : option Z :=
  match l with
  | [] => None
  | x :: l' => Some (fold_left Z.max l' x)
  end.

(** [self._max = max(self.grid.cell_values())] *)
Definition update_max : M Game unit :=
  fun gm =>
    match cell_values (grid gm) with
    | None => Raise IndexError gm
    | Some vs =>
        match py_max vs with
        | None => Raise ValueError gm
        | Some m => Ok tt (mkGame (grid gm) (initial_value gm) (goal gm) m)
        end
    end.

(** The three passes of a slam. *)
Definition slam_moves (p : params) : M Grid unit :=
  _squash p ;;; _combine p ;;; _squash p.

(** [Game.slam]; [rnd] is the random draw of its [_place_random]. *)
Definition slam (direction : direction) (rnd : nat) : M Game unit :=
  _validate_direction direction ;;;
  p <- _get_params_for_direction direction ;;
  with_grid (slam_moves p) ;;;
  _place_random rnd ;;;
  update_max.

(** [Game.goal_met] *)
Definition goal_met (gm : Game) : bool := _max gm >=? goal gm.

(** [Game._position_can_move] *)
Definition _position_can_move (j i : Z) (directions : list direction)
  : M Grid bool :=
  current <- get j i ;;
  g <- reads id ;;
  any_m (neighbors g j i directions)
    (fun n =>
       neighbor_value <- get (fst n) (snd n) ;;
       ret ((neighbor_value =? EMPTY) || (neighbor_value =? current))).

(** [Game.any_can_move] *)
Definition any_can_move (directions : list direction) : M Game bool :=
  with_grid
    (g <- reads id ;;
     any_m (range (width g))
       (fun i =>
          any_m (range (height g))
            (fun j =>
               v <- get j i ;;
               if v =? EMPTY then ret true
               else _position_can_move j i directions))).

(** [Game.is_over] *)
Definition is_over : M Game bool :=
  fun gm =>
    if goal_met gm then Ok true gm
    else (b <- any_can_move DIRECTIONS ;; ret (negb b)) gm.

(** * main.py

    The command loop of [src/main.py].  The lines typed are the list the
    loop is given, each with the random draw of the slam it may cause; a
    line is what [raw_input("> ").strip().lower()] evaluated to.  Of what
    the loop prints the model keeps which message it chooses, not the text
    of the grid. *)

(** [dirs] *)
Definition dirs : gmap string direction :=
  {[ "h" := LEFT; "j" := DOWN; "k" := UP; "l" := RIGHT ]}.

(** [get_dir]: [dirs.get(dir_str, None)] *)
Definition get_dir (dir_str : string) : option direction := dirs !! dir_str.






(** * The vocabulary of the properties *)

(** ** Grids *)

(** The backing array has [height + 2] rows of [width + 2] cells. *)
Definition wf (g : Grid) : Prop :=
  0 < width g /\ 0 < height g /\
  length (_grid g) = Z.to_nat (height g + 2) /\
  Forall (fun row => length row = Z.to_nat (width g + 2)) (_grid g).

(** Public coordinates. *)
Definition public (g : Grid) (j i : Z) : Prop :=
  (0 <= j < height g) /\ (0 <= i < width g).

(** The value of the public cell [(j, i)]. *)
Definition cell (g : Grid) (j i : Z) : Z :=
  default 0 (raw g (j + 1) (i + 1)).

(** Every public cell is EMPTY or positive. *)
Definition public_nonneg (g : Grid) : Prop :=
  forall j i, public g j i -> 0 <= cell g j i.

Global Instance public_dec g j i : Decision (public g j i).
Proof. unfold public. apply _. Defined.

(** The grids reached from a new grid by storing only EMPTY or positive
    values. *)
Inductive stores_nonneg (w h : Z) : Grid -> Prop :=
| stores_init g : Grid_init w h = inr g -> stores_nonneg w h g
| stores_set g j i v :
    stores_nonneg w h g -> 0 <= v ->
    stores_nonneg w h (state_of (set j i v g)).

(** ** Computations *)

(** A relation that holds between the state a computation starts in and
    the state it ends in, whatever the outcome. *)
Definition moves_by {S A} (R : S -> S -> Prop) (I : S -> Prop) (m : M S A)
  : Prop :=
  forall s, I s -> rtc R s (state_of (m s)).

(** ** Lines *)

Definition sumZ (l : list Z) : Z := foldr Z.add 0 l.

(** The table [f] with [v] at line [r], cell [c]. *)
Definition upd (f : Z -> Z -> Z) (r c v : Z) : Z -> Z -> Z :=
  fun r' c' => if decide (r = r' /\ c = c') then v else f r' c'.

(** *** The frame of a direction

    [_squash] and [_combine] see the grid through the accessors they are
    given: a frame of [nlines] lines of [ncols] cells, [rd g r c] being the
    value the frame shows at cell [c] of line [r].  The game has two frames:
    rows, for LEFT and RIGHT, and columns, for UP and DOWN. *)

(** A well-shaped grid of width [W] and height [H]. *)
Definition ok (W H : Z) (g : Grid) : Prop :=
  wf g /\ width g = W /\ height g = H.

(** Cell [c] of line [r] is in the frame. *)
Definition inside (nlines ncols r c : Z) : Prop :=
  (0 <= r < nlines) /\ (0 <= c < ncols).

(** The two changes a slam makes to a line: a value moves to an empty
    cell, or two equal values merge into the first of their cells.  [P]
    tells which lines may change. *)
Inductive step (W H nlines ncols : Z) (rd : Grid -> Z -> Z -> Z)
    (P : Z -> Prop) (g g' : Grid) : Prop :=
| step_move r a b :
    P r -> inside nlines ncols r a -> inside nlines ncols r b ->
    rd g r a = EMPTY -> 0 < rd g r b -> ok W H g' ->
    (forall r' c',
       rd g' r' c' = upd (upd (rd g) r a (rd g r b)) r b EMPTY r' c') ->
    step W H nlines ncols rd P g g'
| step_merge r a b :
    P r -> inside nlines ncols r a -> inside nlines ncols r b -> a <> b ->
    rd g r a <> EMPTY -> rd g r a = rd g r b -> ok W H g' ->
    (forall r' c',
       rd g' r' c' = upd (upd (rd g) r a (rd g r a * 2)) r b EMPTY r' c') ->
    step W H nlines ncols rd P g g'.

(** The lines the [for] loops of [_squash] and [_combine] go through:
    as many as a line has cells. *)
Definition looped (ncols r : Z) : Prop := 0 <= r < ncols.

(** Every cell of the frame is EMPTY or positive. *)
Definition nonneg (nlines ncols : Z) (rd : Grid -> Z -> Z -> Z) (g : Grid)
  : Prop :=
  forall r c, inside nlines ncols r c -> 0 <= rd g r c.

(** Some cell of the frame holds at least [m]. *)
Definition reaches (nlines ncols : Z) (rd : Grid -> Z -> Z -> Z) (m : Z)
    (g : Grid) : Prop :=
  exists r c, inside nlines ncols r c /\ m <= rd g r c.

(** The sum of line [r]. *)
Definition line_sum (ncols : Z) (rd : Grid -> Z -> Z -> Z) (g : Grid) (r : Z)
  : Z :=
  sumZ (map (rd g r) (range ncols)).

(** The scan of a line starts at cell [start] and moves by [delta]; [pos k]
    is the cell it visits at its step [k]. *)
Definition pos (start delta k : Z) : Z := start + k * delta.

(** Line [r] is squashed: its first [n] cells in scan order are not
    EMPTY and all the others are. *)
Definition packed_at (ncols : Z) (rd : Grid -> Z -> Z -> Z) (start delta : Z)
    (g : Grid) (r n : Z) : Prop :=
  0 <= n <= ncols /\
  (forall k, 0 <= k < n -> rd g r (pos start delta k) <> EMPTY) /\
  (forall k, n <= k < ncols -> rd g r (pos start delta k) = EMPTY).

Definition packed (ncols : Z) (rd : Grid -> Z -> Z -> Z) (start delta : Z)
    (g : Grid) (r : Z) : Prop :=
  exists n, packed_at ncols rd start delta g r n.

(** The values of line [r] are EMPTY or positive. *)
Definition line_nonneg (ncols : Z) (rd : Grid -> Z -> Z -> Z)
    (start delta : Z) (g : Grid) (r : Z) : Prop :=
  forall k, 0 <= k < ncols -> 0 <= rd g r (pos start delta k).

(** The bodies of the [for] loops of [_squash] and [_combine]. *)
Definition squash_row (ncols : Z) (get_ : Z -> Z -> M Grid Z)
    (set_ : Z -> Z -> Z -> M Grid Z) (start delta row : Z) : M Grid unit :=
  squash_while (Z.to_nat ncols) ncols delta get_ set_ row start start.

Definition combine_row (ncols : Z) (get_ : Z -> Z -> M Grid Z)
    (set_ : Z -> Z -> Z -> M Grid Z) (start delta row : Z) : M Grid unit :=
  combine_while (Z.to_nat ncols) start ncols delta get_ set_ row start.

(** *** The four directions *)

(** UP and DOWN work on columns, through the transposed accessors. *)
Definition transposed (d : direction) : bool := dir_in d [UP; DOWN].

(** RIGHT and DOWN scan from the last cell of a line to the first. *)
Definition reversed (d : direction) : bool := dir_in d [RIGHT; DOWN].

(** The number of lines along the axis of [d], and the length of a line. *)
Definition nlines_of (d : direction) (g : Grid) : Z :=
  if transposed d then width g else height g.
Definition ncols_of (d : direction) (g : Grid) : Z :=
  if transposed d then height g else width g.

(** Cell [c] of line [r]: a row for LEFT and RIGHT, a column for UP and
    DOWN. *)
Definition view (t : bool) (g : Grid) (r c : Z) : Z :=
  if t then cell g c r else cell g r c.

Definition frame_get (t : bool) : Z -> Z -> M Grid Z :=
  if t then (fun j i => get i j) else get.
Definition frame_set (t : bool) : Z -> Z -> Z -> M Grid Z :=
  if t then (fun j i it => set i j it) else set.

Definition start_of (d : direction) (g : Grid) : Z :=
  if reversed d then ncols_of d g - 1 else 0.
Definition delta_of (d : direction) : Z := if reversed d then -1 else 1.

(** The values of line [r], from its cell 0 to its last cell. *)
Definition line (d : direction) (g : Grid) (r : Z) : list Z :=
  view (transposed d) g r <$> range (ncols_of d g).

(** The cell a scan in direction [d] visits at its step [k]. *)
Definition scan_pos (d : direction) (g : Grid) (k : Z) : Z :=
  start_of d g + k * delta_of d.

(** Line [r] is squashed for direction [d]: the non-empty values are packed
    against the edge the scan starts from. *)
Definition squashed (d : direction) (g : Grid) (r : Z) : Prop :=
  exists n, 0 <= n <= ncols_of d g /\
    (forall k, 0 <= k < n ->
               view (transposed d) g r (scan_pos d g k) <> EMPTY) /\
    (forall k, n <= k < ncols_of d g ->
               view (transposed d) g r (scan_pos d g k) = EMPTY).

(** The parameters of direction [d] on grid [g]. *)
Definition params_for (d : direction) (g : Grid) : params :=
  mkParams (start_of d g) (ncols_of d g) (delta_of d)
           (frame_get (transposed d)) (frame_set (transposed d)).

(** ** Games *)

(** The game with another grid. *)
Definition with_cells (gm : Game) (g : Grid) : Game :=
  mkGame g (initial_value gm) (goal gm) (_max gm).

(** The grid is well shaped, its public cells are EMPTY or positive, and
    one of them holds at least [m]. *)
Definition grid_sound (m : Z) (g : Grid) : Prop :=
  wf g /\ public_nonneg g /\
  exists j i, public g j i /\ m <= cell g j i.

(** [_max] is the greatest value of a public cell. *)
Definition max_of_cells (gm : Game) : Prop :=
  (exists j i, public (grid gm) j i /\ cell (grid gm) j i = _max gm) /\
  (forall j i, public (grid gm) j i -> cell (grid gm) j i <= _max gm).

(** The states of a game: what the constructor builds, and what [start] and
    [slam] leave behind, whether they return or raise. *)
Inductive reachable (w h goal spawn : Z) : Game -> Prop :=
| reach_init gm :
    Game_init w h goal spawn = inr gm -> reachable w h goal spawn gm
| reach_start gm r1 r2 :
    reachable w h goal spawn gm ->
    reachable w h goal spawn (state_of (start r1 r2 gm))
| reach_slam gm d rnd :
    reachable w h goal spawn gm ->
    reachable w h goal spawn (state_of (slam d rnd gm)).

(** One call of [slam]. *)
Definition slam_step (gm gm' : Game) : Prop :=
  exists d rnd, gm' = state_of (slam d rnd gm).

Definition sound (gm : Game) : Prop :=
  grid_sound (_max gm) (grid gm) /\ 0 <= initial_value gm.

(** ** The border, the coordinates and the moves *)

(** An index pair of the backing array on its outer ring. *)
Definition on_border (g : Grid) (j i : Z) : Prop :=
  (0 <= j <= height g + 1) /\ (0 <= i <= width g + 1) /\
  ~ ((1 <= j <= height g) /\ (1 <= i <= width g)).

(** Every cell of the outer ring holds EDGE. *)
Definition border_EDGE (g : Grid) : Prop :=
  forall j i, on_border g j i -> raw g j i = Some EDGE.

(** What the constructor fixes for a game: a well-shaped grid of width [w]
    and height [h] with an outer ring of EDGE, the goal and the spawn
    value. *)
Definition shaped (w h gl sp : Z) (gm : Game) : Prop :=
  wf (grid gm) /\ width (grid gm) = w /\ height (grid gm) = h /\
  goal gm = gl /\ initial_value gm = sp /\ border_EDGE (grid gm).

(** The public coordinates in row-major order. *)
Definition public_coords (g : Grid) : list (Z * Z) :=
  j ← range (height g); i ← range (width g); [(j, i)].

(** The values of line [r] in the order a scan in direction [d] visits
    them. *)
Definition scan_line (d : direction) (g : Grid) (r : Z) : list Z :=
  (fun k => view (transposed d) g r (scan_pos d g k))
    <$> range (ncols_of d g).

(** A line with its non-empty values slid to the front, in order. *)
Definition slide (l : list Z) : list Z :=
  filter (fun v => v <> EMPTY) l
  ++ replicate (length l - length (filter (fun v => v <> EMPTY) l)) EMPTY.

(** The cell [(j, i)] is EMPTY or has, in one of the directions [ds], a
    public neighbor that is EMPTY or holds the same value. *)
Definition can_move_at (g : Grid) (ds : list direction) (j i : Z) : Prop :=
  cell g j i = EMPTY \/
  exists d, d ∈ ds /\ public g (j + fst d) (i + snd d) /\
            (cell g (j + fst d) (i + snd d) = EMPTY \/
             cell g (j + fst d) (i + snd d) = cell g j i).

(** What [_combine] makes of the values of a line read in scan order: a
    value that is not EMPTY and equals the next one is doubled, the next one
    becomes EMPTY and is skipped. *)
Fixpoint merge (l : list Z) : list Z :=
  match l with
  | x :: ((y :: l') as t) =>
      if negb (x =? EMPTY) && (x =? y) then x * 2 :: EMPTY :: merge l'
      else x :: merge t
  | _ => l
  end.

(** The sum of the values of the public cells, [sum(grid.cell_values())]. *)
Definition total (g : Grid) : Z :=
  sumZ ((fun p => cell g (fst p) (snd p)) <$> public_coords g).

(** No public cell can move in any of the four directions. *)
Definition stuck (g : Grid) : Prop :=
  ~ exists j i, public g j i /\ can_move_at g DIRECTIONS j i.



(** ** Examples *)

(** Small concrete grids and games. *)
Definition grid_2x2 (a b c d : Z) : Grid :=
  mkGrid 2 2 [[-1; -1; -1; -1]; [-1; a; b; -1]; [-1; c; d; -1];
              [-1; -1; -1; -1]].

Definition game_on (g : Grid) (spawn : Z) : Game := mkGame g spawn 2048 0.

(** A 4x4 grid whose row 0 is [0 -1 1 1]. *)
Definition grid_mixed_signs : Grid :=
  mkGrid 4 4 [[-1; -1; -1; -1; -1; -1]; [-1; 0; -1; 1; 1; -1];
              [-1; 0; 0; 0; 0; -1]; [-1; 0; 0; 0; 0; -1];
              [-1; 0; 0; 0; 0; -1]; [-1; -1; -1; -1; -1; -1]].

(** A 4x4 grid whose row 0 is [1 1 1 1]. *)
Definition grid_ones : Grid :=
  mkGrid 4 4 [[-1; -1; -1; -1; -1; -1]; [-1; 1; 1; 1; 1; -1];
              [-1; 0; 0; 0; 0; -1]; [-1; 0; 0; 0; 0; -1];
              [-1; 0; 0; 0; 0; -1]; [-1; -1; -1; -1; -1; -1]].

(** A 4x4 grid with the rows [1 1 0 0] and [0 1 0 1]. *)
Definition grid_spec_rows : Grid :=
  mkGrid 4 4 [[-1; -1; -1; -1; -1; -1]; [-1; 1; 1; 0; 0; -1];
              [-1; 0; 1; 0; 1; -1]; [-1; 0; 0; 0; 0; -1];
              [-1; 0; 0; 0; 0; -1]; [-1; -1; -1; -1; -1; -1]].

(** A game of width 2 and height 3 after [start], and after a left slam. *)
Definition tall_game : Game :=
  mkGame (mkGrid 2 3 [[-1; -1; -1; -1]; [-1; 2; 0; -1]; [-1; 0; 0; -1];
                      [-1; 0; 2; -1]; [-1; -1; -1; -1]]) 2 2048 0.

Definition tall_game_slammed : Game :=
  mkGame (mkGrid 2 3 [[-1; -1; -1; -1]; [-1; 2; 2; -1]; [-1; 0; 0; -1];
                      [-1; 0; 2; -1]; [-1; -1; -1; -1]]) 2 2048 2.

(** * Properties *)

(** ** The shape of the backing array *)

Lemma length_range n : length (range n) = Z.to_nat n.
Proof. unfold range. apply length_seqZ. Qed.

Lemma elem_of_range n x : x ∈ range n <-> 0 <= x < n.
Proof. unfold range. rewrite elem_of_seqZ. lia. Qed.

Lemma elem_of_range2 a b x : x ∈ range2 a b <-> a <= x < b.
Proof. unfold range2. rewrite elem_of_seqZ. lia. Qed.

Lemma wf_makegrid w h v cells :
  _makegrid w h v = inr cells -> wf (mkGrid w h cells).
Proof.
  unfold _makegrid.
  destruct ((w <=? 0) || (h <=? 0)) eqn:E; [discriminate|].
  apply orb_false_elim in E as [Ew Eh].
  apply Z.leb_gt in Ew. apply Z.leb_gt in Eh.
  intros [= <-]. unfold wf; cbn [width height _grid]. repeat split; try lia.
  - cbn [length]. rewrite length_app, !length_map, !length_range.
    cbn [length]. lia.
  - constructor; [by rewrite length_map, length_range|].
    rewrite Forall_app. split.
    + apply Forall_forall. intros row Hrow.
      apply list_elem_of_fmap in Hrow as (? & -> & _).
      cbn [length]. rewrite length_app, length_map, length_range.
      cbn [length]. lia.
    + constructor; [|constructor]. by rewrite length_map, length_range.
Qed.

Lemma wf_Grid_init w h g : Grid_init w h = inr g -> wf g.
Proof.
  unfold Grid_init. destruct (_makegrid w h EMPTY) eqn:E; [discriminate|].
  intros [= <-]. eauto using wf_makegrid.
Qed.

Lemma raw_is_Some g j i :
  wf g -> 0 <= j <= height g + 1 -> 0 <= i <= width g + 1 ->
  is_Some (raw g j i).
Proof.
  intros (Hw & Hh & Hlen & Hrows) Hj Hi. unfold raw.
  destruct (_grid g !! Z.to_nat j) as [row|] eqn:E.
  - apply lookup_lt_is_Some.
    rewrite Forall_forall in Hrows.
    rewrite (Hrows row); [lia|]. eapply list_elem_of_lookup_2; eauto.
  - apply lookup_ge_None in E. lia.
Qed.

Lemma raw_cell g j i :
  wf g -> public g j i -> raw g (j + 1) (i + 1) = Some (cell g j i).
Proof.
  intros Hwf [Hj Hi]. unfold cell.
  destruct (raw_is_Some g (j + 1) (i + 1)) as [v ->]; auto; lia.
Qed.

Lemma on_grid_public g j i :
  _on_grid g (j + 1) (i + 1) = true <-> public g j i.
Proof.
  unfold _on_grid, public.
  rewrite !andb_true_iff, !Z.ltb_lt, !Z.leb_le. lia.
Qed.

Lemma on_grid_not_public g j i :
  ~ public g j i -> _on_grid g (j + 1) (i + 1) = false.
Proof.
  intros H. destruct (_on_grid g (j + 1) (i + 1)) eqn:E; auto.
  apply on_grid_public in E. contradiction.
Qed.

Lemma get_public g j i :
  wf g -> public g j i -> get j i g = Ok (cell g j i) g.
Proof.
  intros Hwf Hp. unfold get, bind, _range_check. simpl.
  rewrite (proj2 (on_grid_public g j i) Hp). simpl.
  rewrite raw_cell; auto.
Qed.

Lemma get_not_public g j i :
  ~ public g j i -> get j i g = Raise IndexError g.
Proof.
  intros Hp. unfold get, bind, _range_check. simpl.
  rewrite on_grid_not_public; auto.
Qed.

Lemma set_not_public g j i v :
  ~ public g j i -> set j i v g = Raise IndexError g.
Proof.
  intros Hp. unfold set, bind, _range_check. simpl.
  rewrite on_grid_not_public; auto.
Qed.

Lemma set_public g j i v :
  wf g -> public g j i ->
  set j i v g = Ok v (raw_set g (j + 1) (i + 1) v).
Proof.
  intros Hwf Hp. unfold set, bind, _range_check. simpl.
  rewrite (proj2 (on_grid_public g j i) Hp). simpl.
  rewrite raw_cell; auto.
Qed.

Lemma raw_set_dims g j i v :
  width (raw_set g j i v) = width g /\ height (raw_set g j i v) = height g.
Proof. unfold raw_set. destruct (_grid g !! Z.to_nat j); auto. Qed.

Lemma wf_raw_set g j i v : wf g -> wf (raw_set g j i v).
Proof.
  intros (Hw & Hh & Hlen & Hrows). unfold raw_set.
  destruct (_grid g !! Z.to_nat j) as [row|] eqn:E; [|done].
  unfold wf; simpl. repeat split; auto.
  - by rewrite length_insert.
  - apply Forall_insert; auto. rewrite length_insert.
    rewrite Forall_forall in Hrows. apply Hrows.
    eapply list_elem_of_lookup_2; eauto.
Qed.

Lemma raw_raw_set g j i v j' i' :
  0 < j -> 0 < i -> is_Some (raw g j i) ->
  raw (raw_set g j i v) j' i' =
  if decide (j = j' /\ i = i') then Some v else raw g j' i'.
Proof.
  intros Hj Hi [x Hx]. unfold raw, raw_set in *.
  destruct (_grid g !! Z.to_nat j) as [row|] eqn:E; [|discriminate].
  simpl. destruct (decide (j = j')) as [<-|Hne].
  - rewrite list_lookup_insert_eq by (eapply lookup_lt_Some; eauto).
    rewrite E. destruct (decide (i = i')) as [<-|Hne].
    + rewrite list_lookup_insert_eq by (eapply lookup_lt_Some; eauto).
      rewrite decide_True; auto.
    + rewrite list_lookup_insert_ne by lia.
      rewrite decide_False; auto. tauto.
  - rewrite list_lookup_insert_ne by lia.
    rewrite decide_False; auto. tauto.
Qed.

Lemma cell_raw_set g j i v j' i' :
  wf g -> public g j i ->
  cell (raw_set g (j + 1) (i + 1) v) j' i' =
  if decide (j = j' /\ i = i') then v else cell g j' i'.
Proof.
  intros Hwf [Hj Hi]. unfold cell.
  rewrite raw_raw_set; try lia.
  - destruct (decide (j + 1 = j' + 1 /\ i + 1 = i' + 1));
      destruct (decide (j = j' /\ i = i')); try lia; auto.
  - apply raw_is_Some; auto; lia.
Qed.

(** ** A new grid *)

Lemma lookup_range n k : 0 <= k < n -> range n !! Z.to_nat k = Some k.
Proof.
  intros Hk. unfold range. rewrite lookup_seqZ_lt by lia. f_equal. lia.
Qed.

Lemma Grid_init_dims w h g :
  Grid_init w h = inr g -> width g = w /\ height g = h.
Proof.
  unfold Grid_init. destruct (_makegrid w h EMPTY); [discriminate|].
  by intros [= <-].
Qed.

Lemma Grid_init_cell w h g j i :
  Grid_init w h = inr g -> public g j i -> cell g j i = EMPTY.
Proof.
  intros Hg [Hj Hi]. destruct (Grid_init_dims _ _ _ Hg) as [Hw Hh].
  unfold Grid_init, _makegrid in Hg.
  destruct ((w <=? 0) || (h <=? 0)); [discriminate|].
  injection Hg as <-. cbn [width height] in *. subst.
  unfold cell, raw. cbn [_grid].
  replace (Z.to_nat (j + 1)) with (Datatypes.S (Z.to_nat j)) by lia.
  replace (Z.to_nat (i + 1)) with (Datatypes.S (Z.to_nat i)) by lia.
  rewrite lookup_cons.
  rewrite lookup_app_l by (rewrite length_fmap, length_range; lia).
  rewrite list_lookup_fmap, lookup_range by lia.
  cbn [fmap option_fmap option_map].
  rewrite lookup_cons.
  rewrite lookup_app_l by (rewrite length_fmap, length_range; lia).
  by rewrite list_lookup_fmap, lookup_range by lia.
Qed.

(** ** The sequences a grid yields *)

Lemma elem_of_cell_indices g j i :
  (j, i) ∈ _cell_indices g <-> (1 <= j <= height g) /\ (1 <= i <= width g).
Proof.
  unfold _cell_indices. rewrite list_elem_of_bind. split.
  - intros (j' & Hin & Hj%elem_of_range2).
    apply list_elem_of_bind in Hin as (i' & Hin & Hi%elem_of_range2).
    apply list_elem_of_singleton in Hin as [= -> ->]. lia.
  - intros [Hj Hi]. exists j. split; [|apply elem_of_range2; lia].
    apply list_elem_of_bind. exists i.
    split; [by apply list_elem_of_singleton|apply elem_of_range2; lia].
Qed.

Lemma NoDup_cell_indices g : NoDup (_cell_indices g).
Proof.
  unfold _cell_indices, range2. apply NoDup_bind; [| |apply NoDup_seqZ].
  - intros j1 j2 [j i] _ _ (i1 & H1 & _)%list_elem_of_bind
      (i2 & H2 & _)%list_elem_of_bind.
    apply list_elem_of_singleton in H1, H2. congruence.
  - intros j _. apply NoDup_bind; [| |apply NoDup_seqZ].
    + intros i1 i2 p _ _ H1%list_elem_of_singleton H2%list_elem_of_singleton.
      congruence.
    + intros i _. apply NoDup_singleton.
Qed.

Lemma to_view_inj (p q : Z * Z) :
  _to_view_indices (fst p) (snd p) = _to_view_indices (fst q) (snd q) -> p = q.
Proof.
  destruct p, q. unfold _to_view_indices. simpl. intros [= ? ?].
  f_equal; lia.
Qed.

Lemma elem_of_available_cells g j i :
  wf g ->
  (j, i) ∈ available_cells g <-> public g j i /\ cell g j i = EMPTY.
Proof.
  intros Hwf. unfold available_cells. rewrite list_elem_of_fmap. split.
  - intros ([j' i'] & Hv & [Hraw Hin%elem_of_cell_indices]%list_elem_of_filter).
    unfold _to_view_indices in Hv. simpl in *. injection Hv as -> ->.
    assert (public g (j' - 1) (i' - 1)) as Hp by (unfold public; lia).
    split; [done|]. unfold cell.
    replace (j' - 1 + 1) with j' by lia. replace (i' - 1 + 1) with i' by lia.
    by rewrite Hraw.
  - intros [Hp Hc]. exists (j + 1, i + 1). split.
    + unfold _to_view_indices. simpl. f_equal; lia.
    + apply list_elem_of_filter. simpl. split.
      * rewrite raw_cell by done. by f_equal.
      * apply elem_of_cell_indices. unfold public in Hp. lia.
Qed.

Lemma elem_of_occupied_cells g j i :
  wf g ->
  (j, i) ∈ occupied_cells g <->
  public g j i /\ cell g j i <> EMPTY /\ cell g j i <> EDGE.
Proof.
  intros Hwf. unfold occupied_cells. rewrite list_elem_of_fmap. split.
  - intros ([j' i'] & Hv & [Hraw Hin%elem_of_cell_indices]%list_elem_of_filter).
    unfold _to_view_indices in Hv. simpl in *. injection Hv as -> ->.
    assert (public g (j' - 1) (i' - 1)) as Hp by (unfold public; lia).
    split; [done|]. pose proof (raw_cell g _ _ Hwf Hp) as Hrc.
    replace (j' - 1 + 1) with j' in Hrc by lia.
    replace (i' - 1 + 1) with i' in Hrc by lia.
    rewrite Hrc in Hraw. destruct Hraw as [H1 H2]. split; congruence.
  - intros (Hp & Hc1 & Hc2). exists (j + 1, i + 1). split.
    + unfold _to_view_indices. simpl. f_equal; lia.
    + apply list_elem_of_filter. simpl. split.
      * rewrite raw_cell by done. split; congruence.
      * apply elem_of_cell_indices. unfold public in Hp. lia.
Qed.

Lemma NoDup_available_cells g : NoDup (available_cells g).
Proof.
  unfold available_cells. apply NoDup_fmap_2_strong.
  - intros p q _ _. apply to_view_inj.
  - apply NoDup_filter, NoDup_cell_indices.
Qed.

Lemma NoDup_occupied_cells g : NoDup (occupied_cells g).
Proof.
  unfold occupied_cells. apply NoDup_fmap_2_strong.
  - intros p q _ _. apply to_view_inj.
  - apply NoDup_filter, NoDup_cell_indices.
Qed.

(** What [neighbors] yields are public coordinates. *)
Lemma neighbors_public g j i ds (n : Z * Z) :
  n ∈ neighbors g j i ds -> public g (fst n) (snd n).
Proof.
  unfold neighbors, _to_grid_indices.
  intros ([nj ni] & -> & [Hon _]%list_elem_of_filter)%list_elem_of_fmap.
  unfold _to_view_indices. cbn [fst snd] in *.
  apply on_grid_public.
  by replace (nj - 1 + 1) with nj by lia; replace (ni - 1 + 1) with ni by lia.
Qed.

Lemma Forall2_Some_fmap (l : list (option Z)) (k : list Z) :
  Forall2 (fun x y => id x = Some y) l k -> l = Some <$> k.
Proof.
  induction 1 as [|x y l k Hxy _ IH]; [done|].
  unfold id in Hxy. rewrite fmap_cons. by subst.
Qed.

(** On a well-shaped grid [cell_values] is defined, not empty, and made of
    the values of the public cells. *)
Lemma cell_values_spec g :
  wf g ->
  exists vs, cell_values g = Some vs /\ vs <> [] /\
             forall v, v ∈ vs <-> exists j i, public g j i /\ cell g j i = v.
Proof.
  intros Hwf. unfold cell_values.
  assert (Hrows : forall o, o ∈ mjoin (_rows g) <->
            exists j i, public g j i /\ o = Some (cell g j i)).
  { intros o. rewrite list_elem_of_join. unfold _rows. split.
    - intros (row & Ho & (j & -> & Hj%elem_of_range2)%list_elem_of_fmap).
      apply list_elem_of_fmap in Ho as (i & -> & Hi%elem_of_range2).
      exists (j - 1), (i - 1). split; [unfold public; lia|].
      rewrite <- raw_cell by (done || unfold public; lia).
      f_equal; lia.
    - intros (j & i & [Hj Hi] & ->).
      exists ((fun i => raw g (j + 1) i) <$> range2 1 (width g + 1)). split.
      + apply list_elem_of_fmap. exists (i + 1).
        split; [by rewrite raw_cell|apply elem_of_range2; lia].
      + apply list_elem_of_fmap. exists (j + 1).
        split; [done|apply elem_of_range2; lia]. }
  destruct (mapM id (mjoin (_rows g))) as [vs|] eqn:E.
  - apply mapM_Some, Forall2_Some_fmap in E.
    exists vs. split; [done|]. split.
    + intros ->. destruct Hwf as (Hw & Hh & _).
      assert (Some (cell g 0 0) ∈ mjoin (_rows g)) as Hin.
      { apply Hrows. exists 0, 0. split; [unfold public; lia|done]. }
      rewrite E in Hin. by apply elem_of_nil in Hin.
    + intros v. split.
      * intros Hv. destruct (proj1 (Hrows (Some v))) as (j & i & Hp & [= ->]).
        { rewrite E. apply list_elem_of_fmap. eauto. }
        eauto.
      * intros (j & i & Hp & <-).
        assert (Some (cell g j i) ∈ mjoin (_rows g)) as Hin
            by (apply Hrows; eauto).
        rewrite E in Hin.
        apply list_elem_of_fmap in Hin as (v & [= ->] & Hv). done.
  - exfalso. assert (is_Some (mapM id (mjoin (_rows g)))) as [? ?];
      [|congruence].
    apply mapM_is_Some, Forall_forall. intros o Ho.
    apply Hrows in Ho as (j & i & _ & ->). by eexists.
Qed.

Lemma fold_left_max_spec (l : list Z) (x : Z) :
  let m := fold_left Z.max l x in
  (m = x \/ m ∈ l) /\ x <= m /\ forall v, v ∈ l -> v <= m.
Proof.
  revert x. induction l as [|y l IH]; intros x; simpl.
  - split; [by left|]. split; [lia|]. by intros v ?%elem_of_nil.
  - destruct (IH (Z.max x y)) as (Hm & Hx & Hall). split; [|split].
    + destruct Hm as [->|?]; [|right; by right].
      destruct (Z.max_spec x y) as [[_ ->]|[_ ->]]; [right; by left|by left].
    + lia.
    + intros v [->|?]%elem_of_cons; [lia|auto].
Qed.

Lemma py_max_spec vs m :
  py_max vs = Some m -> m ∈ vs /\ forall v, v ∈ vs -> v <= m.
Proof.
  destruct vs as [|x l]; [discriminate|]. simpl. intros [= <-].
  destruct (fold_left_max_spec l x) as (Hm & Hx & Hall). split.
  - destruct Hm as [->|?]; [by left|by right].
  - intros v [->|?]%elem_of_cons; auto.
Qed.

Lemma py_max_is_Some vs : vs <> [] -> is_Some (py_max vs).
Proof. destruct vs; [done|]. by eexists. Qed.

(** ** Sequencing *)

Lemma bind_Ok {S A B} (m : M S A) (k : A -> M S B) s a s' :
  m s = Ok a s' -> bind m k s = k a s'.
Proof. unfold bind. by intros ->. Qed.

Lemma bind_Raise {S A B} (m : M S A) (k : A -> M S B) s e s' :
  m s = Raise e s' -> bind m k s = Raise e s'.
Proof. unfold bind. by intros ->. Qed.

Lemma bind_OutOfFuel {S A B} (m : M S A) (k : A -> M S B) s s' :
  m s = OutOfFuel s' -> bind m k s = OutOfFuel s'.
Proof. unfold bind. by intros ->. Qed.

Section Moves.
Context {S : Type} (R : S -> S -> Prop) (I : S -> Prop).
Hypothesis R_keeps : forall s s', I s -> R s s' -> I s'.

Lemma rtc_keeps s s' : I s -> rtc R s s' -> I s'.
Proof. intros Hs Hr. induction Hr; eauto. Qed.

Lemma moves_by_ret {A} (a : A) : moves_by R I (ret a).
Proof. intros s _. apply rtc_refl. Qed.

Lemma moves_by_bind {A B} (m : M S A) (k : A -> M S B) :
  moves_by R I m -> (forall a, moves_by R I (k a)) ->
  moves_by R I (bind m k).
Proof.
  intros Hm Hk s Hs. specialize (Hm s Hs). unfold bind.
  destruct (m s) as [a s'|e s'|s'] eqn:E; simpl in *; auto.
  etrans; [exact Hm|]. apply Hk. eapply rtc_keeps; eauto.
Qed.

Lemma moves_by_for_each {A} (l : list A) (body : A -> M S unit) :
  (forall x, x ∈ l -> moves_by R I (body x)) ->
  moves_by R I (for_each l body).
Proof.
  induction l as [|x l IH]; intros Hb; simpl.
  - apply moves_by_ret.
  - apply moves_by_bind; [apply Hb; by left|].
    intros _. apply IH. intros y Hy. apply Hb. by right.
Qed.
End Moves.

(** ** Sums of lines *)

Lemma sumZ_map_change (f f' : Z -> Z) (c v : Z) (l : list Z) :
  NoDup l ->
  (forall x, f' x = if decide (c = x) then v else f x) ->
  sumZ (map f' l) =
  sumZ (map f l) + (if decide (c ∈ l) then v - f c else 0).
Proof.
  intros Hnd Hf'. induction Hnd as [|x l Hx Hnd IH]; simpl.
  - lia.
  - rewrite IH, Hf'.
    repeat case_decide; subst; try lia; exfalso;
      repeat match goal with
             | H : _ ∈ _ :: _ |- _ => apply elem_of_cons in H as [?|?]
             | H : ~ (_ ∈ _ :: _) |- _ => rewrite not_elem_of_cons in H
             end; intuition congruence.
Qed.

(** ** The loops of a slam, in the frame of one direction

    [_squash] and [_combine] see the grid through the accessors they are
    given.  The section fixes such a pair of accessors over a frame of
    [nlines] lines of [ncols] cells, [rd g r c] being the value the frame
    shows at cell [c] of line [r]; the two frames of the game (rows, for LEFT
    and RIGHT, and columns, for UP and DOWN) are instances. *)

Section Frame.
Variables (W H nlines ncols : Z).
Variable get_ : Z -> Z -> M Grid Z.
Variable set_ : Z -> Z -> Z -> M Grid Z.
Variable rd : Grid -> Z -> Z -> Z.

Local Abbreviation ok := (ok W H).
Local Abbreviation inside := (inside nlines ncols).
Local Abbreviation step := (step W H nlines ncols rd).
Local Abbreviation looped := (looped ncols).
Local Abbreviation nonneg := (nonneg nlines ncols rd).
Local Abbreviation reaches := (reaches nlines ncols rd).
Local Abbreviation line_sum := (line_sum ncols rd).

Hypothesis get_inside : forall g r c,
  ok g -> inside r c -> get_ r c g = Ok (rd g r c) g.
Hypothesis get_outside : forall g r c,
  ok g -> ~ inside r c -> get_ r c g = Raise IndexError g.
Hypothesis set_inside : forall g r c v,
  ok g -> inside r c ->
  exists g', set_ r c v g = Ok v g' /\ ok g' /\
             forall r' c', rd g' r' c' = upd (rd g) r c v r' c'.

Lemma step_ok P g g' : ok g -> step P g g' -> ok g'.
Proof. intros _ []; auto. Qed.

Lemma inside_dec r c : {inside r c} + {~ inside r c}.
Proof.
  unfold inside.
  destruct (decide ((0 <= r < nlines) /\ (0 <= c < ncols))); auto.
Qed.

Lemma squash_while_steps (P : Z -> Prop) delta fuel row curr last_empty :
  P row ->
  moves_by (step P) ok
    (squash_while fuel ncols delta get_ set_ row curr last_empty).
Proof.
  intros HP. revert curr last_empty.
  induction fuel as [|fuel IH]; intros curr le g Hok; cbn [squash_while];
    destruct (((0 <=? curr) && (curr <? ncols))
              && ((0 <=? le) && (le <? ncols))) eqn:Hc;
    try apply rtc_refl.
  destruct (decide (0 <= row < nlines)) as [Hrow|Hrow]; cycle 1.
  { erewrite bind_Raise; [apply rtc_refl|].
    apply get_outside; [done|]. unfold inside. tauto. }
  assert (inside row curr /\ inside row le) as [Hic Hil].
  { unfold inside. lia. }
  unfold bind, ret. rewrite (get_inside g row le Hok Hil).
  destruct (rd g row le =? EMPTY) eqn:Hle; [|by apply IH].
  rewrite (get_inside g row curr Hok Hic).
  destruct (rd g row curr >? 0) eqn:Hcv; [|by apply IH].
  destruct (set_inside g row le (rd g row curr) Hok Hil)
    as (g1 & Hs1 & Hok1 & Hrd1).
  destruct (set_inside g1 row curr EMPTY Hok1 Hic)
    as (g2 & Hs2 & Hok2 & Hrd2).
  rewrite (get_inside g row curr Hok Hic), Hs1, Hs2.
  eapply rtc_l; [|by apply IH].
  eapply (step_move W H nlines ncols rd P g g2 row le curr); auto; try lia.
  intros r' c'. rewrite Hrd2. unfold upd. by rewrite Hrd1.
Qed.

Lemma combine_while_steps (P : Z -> Prop) start delta fuel row curr :
  P row -> delta <> 0 ->
  moves_by (step P) ok
    (combine_while fuel start ncols delta get_ set_ row curr).
Proof.
  intros HP Hdelta. revert curr.
  induction fuel as [|fuel IH]; intros curr g Hok; cbn [combine_while];
    destruct (bounds start ncols curr) eqn:Hc; try apply rtc_refl.
  destruct (inside_dec row curr) as [Hic|Hic]; cycle 1.
  { erewrite bind_Raise; [apply rtc_refl|]. by apply get_outside. }
  destruct (inside_dec row (curr + delta)) as [Hin|Hin]; cycle 1.
  { unfold bind. rewrite (get_inside g row curr Hok Hic).
    rewrite get_outside by done. apply rtc_refl. }
  unfold bind.
  rewrite (get_inside g row curr Hok Hic), (get_inside g _ _ Hok Hin).
  destruct (negb (rd g row curr =? EMPTY)
            && (rd g row curr =? rd g row (curr + delta))) eqn:Hm;
    [|by apply IH].
  apply andb_true_iff in Hm as [Hne Heq].
  apply negb_true_iff, Z.eqb_neq in Hne. apply Z.eqb_eq in Heq.
  destruct (set_inside g row curr (rd g row curr * 2) Hok Hic)
    as (g1 & Hs1 & Hok1 & Hrd1).
  destruct (set_inside g1 row (curr + delta) EMPTY Hok1 Hin)
    as (g2 & Hs2 & Hok2 & Hrd2).
  rewrite Hs1, Hs2.
  eapply rtc_l; [|by apply IH].
  eapply (step_merge W H nlines ncols rd P g g2 row curr (curr + delta));
    auto.
  - lia.
  - intros r' c'. rewrite Hrd2. unfold upd. by rewrite Hrd1.
Qed.

Lemma squash_steps start delta :
  moves_by (step looped) ok (_squash (mkParams start ncols delta get_ set_)).
Proof.
  apply moves_by_for_each; [apply step_ok|].
  intros row Hrow%elem_of_range. by apply squash_while_steps.
Qed.

Lemma combine_steps start delta :
  delta <> 0 ->
  moves_by (step looped) ok
    (_combine (mkParams start ncols delta get_ set_)).
Proof.
  intros Hd. apply moves_by_for_each; [apply step_ok|].
  intros row Hrow%elem_of_range. by apply combine_while_steps.
Qed.

Lemma slam_moves_steps start delta :
  delta <> 0 ->
  moves_by (step looped) ok
    (slam_moves (mkParams start ncols delta get_ set_)).
Proof.
  intros Hd. unfold slam_moves.
  repeat (apply moves_by_bind; [apply step_ok| |intros _]);
    auto using squash_steps, combine_steps.
Qed.

(** *** What a step preserves *)

Lemma step_nonneg P g g' : nonneg g -> step P g g' -> nonneg g'.
Proof.
  intros Hnn [r a b _ Ha Hb Hea Hpb _ Hrd|r a b _ Ha Hb Hab Hne Heq _ Hrd]
    r' c' Hin; rewrite Hrd; unfold upd; repeat case_decide;
    unfold EMPTY; auto; try lia.
  specialize (Hnn r a Ha). lia.
Qed.

Lemma step_reaches P m g g' :
  nonneg g -> reaches m g -> step P g g' -> reaches m g'.
Proof.
  intros Hnn (r0 & c0 & Hin0 & Hm) Hstep.
  destruct Hstep
    as [r a b _ Ha Hb Hea Hpb _ Hrd|r a b _ Ha Hb Hab Hne Heq _ Hrd].
  - destruct (decide (r = r0 /\ b = c0)) as [[-> ->]|Hnb].
    + exists r0, a. split; [done|]. rewrite Hrd. unfold upd.
      repeat case_decide; unfold EMPTY in *;
        intuition (subst; try lia; try congruence).
    + exists r0, c0. split; [done|]. rewrite Hrd. unfold upd.
      repeat case_decide; unfold EMPTY in *;
        intuition (subst; try lia; try congruence).
  - assert (0 <= rd g r a) by auto.
    destruct (decide (r = r0 /\ b = c0)) as [[-> ->]|Hnb].
    + exists r0, a. split; [done|]. rewrite Hrd. unfold upd.
      repeat case_decide; unfold EMPTY in *;
        intuition (subst; try lia; try congruence).
    + exists r0, c0. split; [done|]. rewrite Hrd. unfold upd.
      repeat case_decide; unfold EMPTY in *;
        intuition (subst; try lia; try congruence).
Qed.

Lemma line_sum_upd (f f' : Z -> Z -> Z) r c v r' :
  0 <= c < ncols ->
  (forall x y, f' x y = upd f r c v x y) ->
  sumZ (map (f' r') (range ncols)) =
  sumZ (map (f r') (range ncols)) + (if decide (r = r') then v - f r c else 0).
Proof.
  intros Hc Hf'. destruct (decide (r = r')) as [<-|Hne].
  - rewrite (sumZ_map_change (f r) (f' r) c v).
    + rewrite decide_True; [done|]. by apply elem_of_range.
    + apply NoDup_seqZ.
    + intros x. rewrite Hf'. unfold upd.
      destruct (decide (c = x)) as [->|?].
      * by rewrite decide_True.
      * rewrite decide_False; [done|]. tauto.
  - rewrite Z.add_0_r. f_equal. apply map_ext. intros x.
    rewrite Hf'. unfold upd. rewrite decide_False; [done|]. tauto.
Qed.

Lemma step_line_sum P g g' r :
  step P g g' -> line_sum g' r = line_sum g r.
Proof.
  intros [r0 a b _ Ha Hb Hea Hpb _ Hrd|r0 a b _ Ha Hb Hab Hne Heq _ Hrd];
    unfold line_sum.
  - rewrite (line_sum_upd (upd (rd g) r0 a (rd g r0 b)) (rd g') r0 b EMPTY r);
      [|apply Hb|done].
    rewrite (line_sum_upd (rd g) (upd (rd g) r0 a (rd g r0 b)) r0 a
               (rd g r0 b) r); [|apply Ha|done].
    unfold upd. repeat case_decide; unfold EMPTY in *;
      intuition (subst; try lia; try congruence).
  - rewrite (line_sum_upd (upd (rd g) r0 a (rd g r0 a * 2)) (rd g') r0 b
               EMPTY r); [|apply Hb|done].
    rewrite (line_sum_upd (rd g) (upd (rd g) r0 a (rd g r0 a * 2)) r0 a
               (rd g r0 a * 2) r); [|apply Ha|done].
    unfold upd. repeat case_decide; unfold EMPTY in *;
      intuition (subst; try lia; try congruence).
Qed.

(** A line that may not change keeps its cells. *)
Lemma step_other_lines P g g' r c :
  ~ P r -> step P g g' -> rd g' r c = rd g r c.
Proof.
  intros HP [r0 a b HP0 _ _ _ _ _ Hrd|r0 a b HP0 _ _ _ _ _ _ Hrd];
    rewrite Hrd; unfold upd;
    rewrite !decide_False; try done; intros [-> _]; done.
Qed.

(** A cell outside the frame keeps its value. *)
Lemma step_outside P g g' r c :
  ~ inside r c -> step P g g' -> rd g' r c = rd g r c.
Proof.
  intros Hout [r0 a b _ Ha Hb _ _ _ Hrd|r0 a b _ Ha Hb _ _ _ _ Hrd];
    rewrite Hrd; unfold upd;
    rewrite !decide_False; try done; intros [-> ->]; done.
Qed.

Lemma steps_outside P g g' r c :
  ~ inside r c -> rtc (step P) g g' -> rd g' r c = rd g r c.
Proof.
  intros Hout Hr. induction Hr as [|x y z Hxy _ IH]; [done|].
  rewrite IH. by eapply step_outside.
Qed.

Lemma steps_nonneg P g g' : nonneg g -> rtc (step P) g g' -> nonneg g'.
Proof. intros Hn Hr. induction Hr; eauto using step_nonneg. Qed.

Lemma steps_reaches P m g g' :
  nonneg g -> reaches m g -> rtc (step P) g g' -> reaches m g'.
Proof.
  intros Hn Hm Hr. induction Hr; eauto using step_nonneg, step_reaches.
Qed.

Lemma steps_line_sum P g g' r :
  rtc (step P) g g' -> line_sum g' r = line_sum g r.
Proof.
  intros Hr. induction Hr as [|x y z Hxy _ IH]; [done|].
  rewrite IH. by eapply step_line_sum.
Qed.

Lemma steps_other_lines P g g' r c :
  ~ P r -> rtc (step P) g g' -> rd g' r c = rd g r c.
Proof.
  intros HP Hr. induction Hr as [|x y z Hxy _ IH]; [done|].
  rewrite IH. by eapply step_other_lines.
Qed.

Lemma steps_ok P g g' : ok g -> rtc (step P) g g' -> ok g'.
Proof. intros Hn Hr. induction Hr; eauto using step_ok. Qed.

(** *** Squashing one line

    The scan of a line starts at cell [start] and moves by [delta]; the
    two scans a slam uses are the one from cell 0 upwards and the one from
    the last cell downwards.  [pos k] is the cell the scan visits at its
    step [k]. *)
Section Scan.
Variables (start delta : Z).
Hypothesis scan_dir :
  (start = 0 /\ delta = 1) \/ (start = ncols - 1 /\ delta = -1).
Hypothesis ncols_pos : 0 < ncols.
Hypothesis nlines_pos : 0 < nlines.

Local Abbreviation pos := (pos start delta).
Local Abbreviation packed_at := (packed_at ncols rd start delta).
Local Abbreviation packed := (packed ncols rd start delta).
Local Abbreviation line_nonneg := (line_nonneg ncols rd start delta).
Local Abbreviation squash_row := (squash_row ncols get_ set_ start delta).
Local Abbreviation combine_row := (combine_row ncols get_ set_ start delta).

Lemma pos_next k : pos k + delta = pos (k + 1).
Proof. unfold pos. ring. Qed.

Lemma pos_inside r k :
  0 <= r < nlines -> 0 <= k < ncols -> inside r (pos k).
Proof. unfold inside, pos. destruct scan_dir as [[-> ->]|[-> ->]]; lia. Qed.

Lemma scan_cond kc kl :
  0 <= kl <= kc ->
  ((0 <=? pos kc) && (pos kc <? ncols))
  && ((0 <=? pos kl) && (pos kl <? ncols)) = bool_decide (kc < ncols).
Proof.
  intros Hk. unfold pos.
  destruct scan_dir as [[-> ->]|[-> ->]]; case_bool_decide;
    rewrite ?andb_true_iff, ?andb_false_iff, ?Z.leb_le, ?Z.ltb_lt,
      ?Z.leb_gt, ?Z.ltb_ge; lia.
Qed.

(** A squashed line is left as it is, whatever its values. *)
Lemma squash_while_packed g row n :
  ok g -> 0 <= row < nlines -> packed_at g row n ->
  forall fuel kc kl,
    ncols <= Z.of_nat fuel + kc ->
    (0 <= kl /\ kl = kc /\ kc <= n) \/ (0 <= kl /\ kl = n /\ n <= kc) ->
    squash_while fuel ncols delta get_ set_ row (pos kc) (pos kl) g
    = Ok tt g.
Proof.
  intros Hok Hrow (Hn & Hfull & Hempty).
  induction fuel as [|fuel IH]; intros kc kl Hfuel Hk;
    cbn [squash_while]; rewrite scan_cond by lia;
    case_bool_decide as Hkc; try done; try lia.
  assert (inside row (pos kc) /\ inside row (pos kl)) as [Hic Hil].
  { split; apply pos_inside; lia. }
  unfold bind, ret. rewrite (get_inside g _ _ Hok Hil).
  destruct Hk as [(Hkl & -> & Hkn)|(Hkl & -> & Hkn)].
  - destruct (decide (kc < n)) as [Hlt|Hge].
    + rewrite (proj2 (Z.eqb_neq _ _) (Hfull kc ltac:(lia))).
      rewrite !pos_next. apply IH; lia.
    + rewrite (proj2 (Z.eqb_eq _ _) (Hempty kc ltac:(lia))).
      rewrite (get_inside g _ _ Hok Hic).
      rewrite (Hempty kc ltac:(lia)). unfold EMPTY at 1. simpl.
      rewrite pos_next. apply IH; lia.
  - rewrite (proj2 (Z.eqb_eq _ _) (Hempty n ltac:(lia))).
    rewrite (get_inside g _ _ Hok Hic).
    rewrite (Hempty kc ltac:(lia)). unfold EMPTY at 1. simpl.
    rewrite pos_next. apply IH; lia.
Qed.

Lemma pos_inj k k' : pos k = pos k' -> k = k'.
Proof. unfold pos. destruct scan_dir as [[-> ->]|[-> ->]]; lia. Qed.

(** A line of EMPTY and positive values comes out squashed; the loop
    invariant is that the cells before [kl] are full and the cells from
    [kl] up to [kc] are EMPTY. *)
Lemma squash_while_packs row :
  0 <= row < nlines ->
  forall fuel kc kl g,
    ok g -> line_nonneg g row ->
    ncols <= Z.of_nat fuel + kc ->
    0 <= kl <= kc -> kc <= ncols ->
    (forall k, 0 <= k < kl -> rd g row (pos k) <> EMPTY) ->
    (forall k, kl <= k < kc -> rd g row (pos k) = EMPTY) ->
    exists g',
      squash_while fuel ncols delta get_ set_ row (pos kc) (pos kl) g
      = Ok tt g' /\
      ok g' /\ packed g' row /\ line_nonneg g' row /\
      (forall r' c, r' <> row -> rd g' r' c = rd g r' c).
Proof.
  intros Hrow.
  induction fuel as [|fuel IH];
    intros kc kl g Hok Hnn Hfuel Hk Hkc Hfull Hempty;
    cbn [squash_while]; rewrite scan_cond by lia;
    case_bool_decide as Hlt; try lia.
  1, 3: (exists g; split; [done|]; split; [done|];
         split; [|by split]; exists kl; split; [lia|];
         split; [done|]; intros k ?; apply Hempty; lia).
  assert (inside row (pos kc) /\ inside row (pos kl)) as [Hic Hil].
  { split; apply pos_inside; lia. }
  unfold bind, ret. rewrite (get_inside g _ _ Hok Hil).
  destruct (rd g row (pos kl) =? EMPTY) eqn:Hle.
  - apply Z.eqb_eq in Hle. rewrite (get_inside g _ _ Hok Hic).
    destruct (rd g row (pos kc) >? 0) eqn:Hcv.
    + apply Z.gtb_lt in Hcv.
      destruct (set_inside g row (pos kl) (rd g row (pos kc)) Hok Hil)
        as (g1 & Hs1 & Hok1 & Hrd1).
      destruct (set_inside g1 row (pos kc) EMPTY Hok1 Hic)
        as (g2 & Hs2 & Hok2 & Hrd2).
      rewrite (get_inside g _ _ Hok Hic), Hs1, Hs2, !pos_next.
      assert (Hrd : forall r' c,
                 rd g2 r' c =
                 upd (upd (rd g) row (pos kl) (rd g row (pos kc)))
                     row (pos kc) EMPTY r' c).
      { intros r' c. rewrite Hrd2. unfold upd. by rewrite Hrd1. }
      assert (kl <> kc) by (intros ->; unfold EMPTY in *; lia).
      destruct (IH (kc + 1) (kl + 1) g2) as (g' & Hrun & Hok' & Hp & Hn' & Hoth);
        auto; try lia.
      * intros k Hk'. rewrite Hrd. unfold upd.
        repeat case_decide; unfold EMPTY; try lia. by apply Hnn.
      * intros k Hk'. rewrite Hrd. unfold upd.
        destruct (decide (k = kl)) as [->|Hne].
        -- rewrite decide_False by (intros [_ ?%pos_inj]; lia).
           rewrite decide_True by done. unfold EMPTY. lia.
        -- rewrite decide_False by (intros [_ ?%pos_inj]; lia).
           rewrite decide_False by (intros [_ ?%pos_inj]; lia).
           apply Hfull. lia.
      * intros k Hk'. rewrite Hrd. unfold upd.
        destruct (decide (k = kc)) as [->|Hne].
        -- by rewrite decide_True.
        -- rewrite decide_False by (intros [_ ?%pos_inj]; lia).
           rewrite decide_False by (intros [_ ?%pos_inj]; lia).
           apply Hempty. lia.
      * exists g'. do 4 (split; [done|]). intros r' c Hr'.
        rewrite Hoth, Hrd by done. unfold upd.
        rewrite !decide_False; [done|intros [? _]..]; congruence.
    + rewrite Z.gtb_ltb in Hcv. apply Z.ltb_ge in Hcv.
      assert (rd g row (pos kc) = EMPTY).
      { specialize (Hnn kc ltac:(lia)). unfold EMPTY. lia. }
      rewrite pos_next. apply IH; auto; try lia.
      intros k Hk'. destruct (decide (k = kc)) as [->|]; [done|].
      apply Hempty. lia.
  - apply Z.eqb_neq in Hle.
    assert (kl = kc) as ->.
    { destruct (decide (kl = kc)); [done|].
      exfalso. apply Hle, Hempty. lia. }
    rewrite !pos_next. apply IH; auto; try lia.
    intros k Hk'. destruct (decide (k = kc)) as [->|]; [done|].
    apply Hfull. lia.
Qed.

(** *** Squashing every line *)

Lemma pos_0 : pos 0 = start.
Proof. unfold pos. lia. Qed.

Lemma squash_row_outside row g :
  ok g -> ~ 0 <= row < nlines -> squash_row row g = Raise IndexError g.
Proof.
  intros Hok Hrow. unfold squash_row.
  destruct (Z.to_nat ncols) as [|fuel] eqn:E; [lia|].
  cbn [squash_while].
  pose proof (scan_cond 0 0 ltac:(lia)) as Hc. rewrite pos_0 in Hc.
  rewrite Hc, bool_decide_eq_true_2 by lia.
  unfold bind. rewrite get_outside; [done|done|]. unfold inside. tauto.
Qed.

Lemma squash_row_packed row g :
  ok g -> 0 <= row < nlines -> packed g row -> squash_row row g = Ok tt g.
Proof.
  intros Hok Hrow [n Hn]. unfold squash_row.
  pose proof (squash_while_packed g row n Hok Hrow Hn (Z.to_nat ncols) 0 0)
    as Hrun.
  rewrite pos_0 in Hrun. apply Hrun; [lia|].
  destruct Hn as [? _]. left. lia.
Qed.

Lemma squash_row_packs row g :
  ok g -> 0 <= row < nlines -> line_nonneg g row ->
  exists g',
    squash_row row g = Ok tt g' /\
    ok g' /\ packed g' row /\ line_nonneg g' row /\
    (forall r' c, r' <> row -> rd g' r' c = rd g r' c).
Proof.
  intros Hok Hrow Hnn. unfold squash_row.
  pose proof (squash_while_packs row Hrow (Z.to_nat ncols) 0 0 g Hok Hnn)
    as Hrun.
  rewrite pos_0 in Hrun. apply Hrun; intros; lia.
Qed.

Lemma packed_ext g g' r :
  (forall c, rd g' r c = rd g r c) -> packed g r -> packed g' r.
Proof.
  intros Hrd (n & Hn & Hfull & Hempty). exists n.
  split; [done|]. split; intros k Hk; rewrite Hrd; auto.
Qed.

(** Over squashed lines the [for] loop changes nothing; it ends with an
    IndexError when it runs past the last line of the frame. *)
Lemma squash_rows_packed (n : nat) :
  forall len a g,
    len = Z.of_nat n -> ok g -> 0 <= a <= nlines ->
    (forall r, a <= r < a + len -> r < nlines -> packed g r) ->
    for_each (seqZ a len) squash_row g =
    if decide (a + len <= nlines) then Ok tt g else Raise IndexError g.
Proof.
  induction n as [|n IH]; intros len a g -> Hok Ha Hp.
  - rewrite decide_True by lia. done.
  - rewrite seqZ_cons by lia. cbn [for_each].
    destruct (decide (a < nlines)) as [Hlt|Hge].
    + erewrite bind_Ok;
        [|apply squash_row_packed; [done|lia|apply Hp; lia]].
      rewrite (IH (Z.pred (Z.of_nat (Datatypes.S n))) (Z.succ a) g);
        auto; try lia.
      * repeat case_decide; auto; lia.
      * intros r ? ?. apply Hp; lia.
    + erewrite bind_Raise; [|apply squash_row_outside; [done|lia]].
      rewrite decide_False by lia. done.
Qed.

(** Over lines of EMPTY and positive values the [for] loop leaves every
    line of the frame that it reaches squashed. *)
Lemma squash_rows_pack (n : nat) :
  forall len a g,
    len = Z.of_nat n -> ok g -> 0 <= a <= nlines ->
    (forall r, 0 <= r < nlines -> line_nonneg g r) ->
    exists g',
      for_each (seqZ a len) squash_row g =
      (if decide (a + len <= nlines) then Ok tt g'
       else Raise IndexError g') /\
      ok g' /\
      (forall r, a <= r < a + len -> r < nlines -> packed g' r) /\
      (forall r c, ~ a <= r < a + len -> rd g' r c = rd g r c) /\
      (forall r, 0 <= r < nlines -> line_nonneg g' r).
Proof.
  induction n as [|n IH]; intros len a g -> Hok Ha Hnn.
  - exists g. rewrite decide_True by lia.
    do 2 (split; [done|]). split; [intros; lia|]. by split.
  - rewrite seqZ_cons by lia. cbn [for_each].
    destruct (decide (a < nlines)) as [Hlt|Hge].
    + destruct (squash_row_packs a g) as (g1 & Hrun & Hok1 & Hp1 & Hn1 & Hoth1);
        [done|lia|apply Hnn; lia|].
      erewrite bind_Ok; [|exact Hrun].
      destruct (IH (Z.pred (Z.of_nat (Datatypes.S n))) (Z.succ a) g1)
        as (g' & Hrun' & Hok' & Hp' & Hoth' & Hn'); auto; try lia.
      { intros r Hr. destruct (decide (r = a)) as [->|Hne]; [done|].
        intros k Hk. rewrite Hoth1 by done. by apply Hnn. }
      exists g'. split.
      { rewrite Hrun'. repeat case_decide; auto; lia. }
      split; [done|]. split; [|split; [|done]].
      * intros r Hr Hr'. destruct (decide (r = a)) as [->|Hne].
        -- eapply packed_ext; [|exact Hp1]. intros c. apply Hoth'. lia.
        -- apply Hp'; lia.
      * intros r c Hr. rewrite Hoth' by lia. apply Hoth1. lia.
    + exists g. erewrite bind_Raise; [|apply squash_row_outside; [done|lia]].
      rewrite decide_False by lia.
      do 2 (split; [done|]). split; [intros; lia|]. by split.
Qed.

Lemma squash_unfold :
  _squash (mkParams start ncols delta get_ set_)
  = for_each (seqZ 0 ncols) squash_row.
Proof. reflexivity. Qed.

(** A second squash repeats the outcome of the first and changes
    nothing, on a frame of EMPTY and positive values. *)
Lemma squash_twice g :
  ok g -> (forall r c, inside r c -> 0 <= rd g r c) ->
  _squash (mkParams start ncols delta get_ set_)
          (state_of (_squash (mkParams start ncols delta get_ set_) g))
  = _squash (mkParams start ncols delta get_ set_) g.
Proof.
  intros Hok Hnn. rewrite squash_unfold.
  destruct (squash_rows_pack (Z.to_nat ncols) ncols 0 g)
    as (g' & Hrun & Hok' & Hp' & _ & _);
    [lia|done|lia|by intros r Hr k Hk; apply Hnn, pos_inside|].
  rewrite Hrun.
  assert (state_of (if decide (0 + ncols <= nlines)
                    then Ok tt g' else Raise IndexError g') = g') as ->.
  { by case_decide. }
  apply (squash_rows_packed (Z.to_nat ncols)); auto; lia.
Qed.

(** A frame whose lines are all squashed is left as it is. *)
Lemma squash_packed_fix g :
  ok g -> (forall r, 0 <= r < nlines -> packed g r) ->
  state_of (_squash (mkParams start ncols delta get_ set_) g) = g.
Proof.
  intros Hok Hp. rewrite squash_unfold.
  rewrite (squash_rows_packed (Z.to_nat ncols));
    [by case_decide|lia|done|lia|].
  intros r ? ?. apply Hp. lia.
Qed.
(** *** The loops return

    The iterations each loop is given are enough: on a line of the frame
    the loops of [_squash] and [_combine] return, whatever the values. *)

Lemma squash_while_returns row :
  0 <= row < nlines ->
  forall fuel kc kl g,
    ok g -> ncols <= Z.of_nat fuel + kc -> 0 <= kl <= kc ->
    exists g',
      squash_while fuel ncols delta get_ set_ row (pos kc) (pos kl) g
      = Ok tt g' /\ ok g'.
Proof.
  intros Hrow.
  induction fuel as [|fuel IH]; intros kc kl g Hok Hfuel Hk;
    cbn [squash_while]; rewrite scan_cond by lia;
    case_bool_decide as Hlt; try lia.
  1, 3: by exists g.
  assert (inside row (pos kc) /\ inside row (pos kl)) as [Hic Hil].
  { split; apply pos_inside; lia. }
  unfold bind, ret. rewrite (get_inside g _ _ Hok Hil).
  destruct (rd g row (pos kl) =? EMPTY).
  - rewrite (get_inside g _ _ Hok Hic).
    destruct (rd g row (pos kc) >? 0).
    + destruct (set_inside g row (pos kl) (rd g row (pos kc)) Hok Hil)
        as (g1 & Hs1 & Hok1 & _).
      destruct (set_inside g1 row (pos kc) EMPTY Hok1 Hic)
        as (g2 & Hs2 & Hok2 & _).
      rewrite (get_inside g _ _ Hok Hic), Hs1, Hs2, !pos_next.
      apply IH; auto; lia.
    + rewrite pos_next. apply IH; auto; lia.
  - rewrite !pos_next. apply IH; auto; lia.
Qed.

Lemma squash_row_returns row g :
  ok g -> 0 <= row < nlines ->
  exists g', squash_row row g = Ok tt g' /\ ok g'.
Proof.
  intros Hok Hrow. unfold squash_row.
  pose proof (squash_while_returns row Hrow (Z.to_nat ncols) 0 0 g Hok)
    as Hrun.
  rewrite pos_0 in Hrun. apply Hrun; lia.
Qed.

(** [_squash] returns when the frame has at least as many lines as a line
    has cells, and raises IndexError otherwise. *)
Lemma squash_rows_outcome (n : nat) :
  forall len a g,
    len = Z.of_nat n -> ok g -> 0 <= a <= nlines ->
    exists g',
      for_each (seqZ a len) squash_row g =
      (if decide (a + len <= nlines) then Ok tt g'
       else Raise IndexError g') /\ ok g'.
Proof.
  induction n as [|n IH]; intros len a g -> Hok Ha.
  - exists g. by rewrite decide_True by lia.
  - rewrite seqZ_cons by lia. cbn [for_each].
    destruct (decide (a < nlines)) as [Hlt|Hge].
    + destruct (squash_row_returns a g) as (g1 & Hrun & Hok1); [done|lia|].
      erewrite bind_Ok by exact Hrun.
      destruct (IH (Z.pred (Z.of_nat (Datatypes.S n))) (Z.succ a) g1)
        as (g' & Hrun' & Hok'); auto; try lia.
      exists g'. split; [|done].
      rewrite Hrun'. repeat case_decide; auto; lia.
    + exists g. erewrite bind_Raise; [|apply squash_row_outside; [done|lia]].
      by rewrite decide_False by lia.
Qed.

Lemma squash_outcome g :
  ok g ->
  exists g',
    _squash (mkParams start ncols delta get_ set_) g =
    (if decide (ncols <= nlines) then Ok tt g' else Raise IndexError g')
    /\ ok g'.
Proof.
  intros Hok. rewrite squash_unfold.
  destruct (squash_rows_outcome (Z.to_nat ncols) ncols 0 g)
    as (g' & Hrun & Hok'); [lia|done|lia|].
  exists g'. by rewrite Z.add_0_l in Hrun.
Qed.

Lemma combine_cond kc :
  0 <= kc -> (ncols = 1 -> kc = 0) ->
  bounds start ncols (pos kc) = bool_decide (kc < ncols - 1).
Proof.
  intros Hk H1. unfold bounds, pos.
  destruct scan_dir as [[-> ->]|[-> ->]].
  - cbn. case_bool_decide; [apply Z.ltb_lt|apply Z.ltb_ge]; lia.
  - destruct (ncols - 1 =? 0) eqn:E.
    + apply Z.eqb_eq in E. rewrite H1 by lia.
      rewrite bool_decide_eq_false_2 by lia. apply Z.ltb_ge. lia.
    + apply Z.eqb_neq in E. rewrite Z.gtb_ltb.
      case_bool_decide; [apply Z.ltb_lt|apply Z.ltb_ge]; lia.
Qed.

Lemma combine_while_returns row :
  0 <= row < nlines ->
  forall fuel kc g,
    ok g -> 0 <= kc -> (ncols = 1 -> kc = 0) ->
    ncols - 1 <= Z.of_nat fuel + kc ->
    exists g',
      combine_while fuel start ncols delta get_ set_ row (pos kc) g
      = Ok tt g' /\ ok g'.
Proof.
  intros Hrow.
  induction fuel as [|fuel IH]; intros kc g Hok Hk H1 Hfuel;
    cbn [combine_while]; rewrite combine_cond by done;
    case_bool_decide as Hlt; try lia.
  1, 3: by exists g.
  assert (inside row (pos kc) /\ inside row (pos (kc + 1))) as [Hic Hin].
  { split; apply pos_inside; lia. }
  assert (pos kc + delta * 2 = pos (kc + 2)) as Hnext2
      by (unfold pos; ring).
  unfold bind. rewrite pos_next.
  rewrite (get_inside g _ _ Hok Hic), (get_inside g _ _ Hok Hin).
  destruct (negb (rd g row (pos kc) =? EMPTY)
            && (rd g row (pos kc) =? rd g row (pos (kc + 1)))).
  - destruct (set_inside g row (pos kc) (rd g row (pos kc) * 2) Hok Hic)
      as (g1 & Hs1 & Hok1 & _).
    destruct (set_inside g1 row (pos (kc + 1)) EMPTY Hok1 Hin)
      as (g2 & Hs2 & Hok2 & _).
    rewrite Hs1, Hs2, Hnext2. apply IH; auto; lia.
  - apply IH; auto; lia.
Qed.

Lemma combine_row_returns row g :
  ok g -> 0 <= row < nlines ->
  exists g', combine_row row g = Ok tt g' /\ ok g'.
Proof.
  intros Hok Hrow. unfold combine_row.
  pose proof (combine_while_returns row Hrow (Z.to_nat ncols) 0 g Hok)
    as Hret.
  rewrite pos_0 in Hret. apply Hret; lia.
Qed.

Lemma combine_rows_return (l : list Z) :
  forall g,
    ok g -> (forall r, r ∈ l -> 0 <= r < nlines) ->
    exists g', for_each l combine_row g = Ok tt g' /\ ok g'.
Proof.
  induction l as [|r l IH]; intros g Hok Hl; cbn [for_each].
  - by exists g.
  - destruct (combine_row_returns r g Hok) as (g1 & Hrun & Hok1).
    { apply Hl. by left. }
    erewrite bind_Ok by exact Hrun. apply IH; [done|].
    intros r' Hr'. apply Hl. by right.
Qed.

Lemma combine_returns g :
  ok g -> ncols <= nlines ->
  exists g',
    _combine (mkParams start ncols delta get_ set_) g = Ok tt g' /\ ok g'.
Proof.
  intros Hok Hle.
  change (_combine (mkParams start ncols delta get_ set_))
    with (for_each (range ncols) combine_row).
  apply combine_rows_return; [done|].
  intros r Hr%elem_of_range. lia.
Qed.

(** The three passes together: they return on a frame with at least as
    many lines as a line has cells, and otherwise end with the IndexError
    of the first squash. *)
Lemma slam_moves_outcome g :
  ok g ->
  exists g',
    slam_moves (mkParams start ncols delta get_ set_) g =
    (if decide (ncols <= nlines) then Ok tt g' else Raise IndexError g')
    /\ ok g'.
Proof.
  intros Hok. unfold slam_moves.
  destruct (squash_outcome g Hok) as (g1 & Hrun1 & Hok1).
  destruct (decide (ncols <= nlines)) as [Hle|Hgt].
  - erewrite bind_Ok by exact Hrun1.
    destruct (combine_returns g1 Hok1 Hle) as (g2 & Hrun2 & Hok2).
    erewrite bind_Ok by exact Hrun2.
    destruct (squash_outcome g2 Hok2) as (g3 & Hrun3 & Hok3).
    rewrite decide_True in Hrun3 by done. by exists g3.
  - erewrite bind_Raise by exact Hrun1. by exists g1.
Qed.
End Scan.
End Frame.

(** ** The two frames of the game *)

Lemma dir_in_DIRECTIONS d :
  dir_in d DIRECTIONS = true <->
  d = UP \/ d = RIGHT \/ d = DOWN \/ d = LEFT.
Proof.
  destruct d as [a b]. unfold dir_in, DIRECTIONS, dir_eqb, UP, RIGHT, DOWN, LEFT.
  simpl. rewrite !orb_true_iff, !andb_true_iff, !Z.eqb_eq.
  split; [intros H|intros H]; intuition (try congruence; try lia).
  all: repeat match goal with H : (_, _) = (_, _) |- _ =>
                injection H as ? ? end; subst; auto 10.
Qed.

(** For each of the four directions [_get_params_for_direction] returns the
    bound, the scan and the accessors of the frame of that direction. *)
Lemma params_of_direction d gm :
  dir_in d DIRECTIONS = true ->
  _get_params_for_direction d gm =
  Ok (mkParams (start_of d (grid gm)) (ncols_of d (grid gm)) (delta_of d)
               (frame_get (transposed d)) (frame_set (transposed d))) gm.
Proof.
  intros [-> | [-> | [-> | ->]]]%dir_in_DIRECTIONS; reflexivity.
Qed.

Lemma params_invalid d gm :
  dir_in d DIRECTIONS = false ->
  _get_params_for_direction d gm = Raise ValueError gm.
Proof.
  intros Hd. unfold _get_params_for_direction.
  destruct d as [a b].
  unfold dir_in, DIRECTIONS, dir_eqb, UP, RIGHT, DOWN, LEFT in *.
  simpl in *. rewrite !orb_false_r in *.
  destruct (a =? 0) eqn:Ea, (b =? -1) eqn:Eb, (b =? 1) eqn:Eb',
    (a =? -1) eqn:Ea', (a =? 1) eqn:Ea'', (b =? 0) eqn:Eb'';
    simpl in *; try discriminate; try reflexivity.
Qed.

Section Frames.
Variables (W H : Z) (t : bool).

Local Abbreviation nlines := (if t then W else H).
Local Abbreviation ncols := (if t then H else W).

Lemma frame_get_inside g r c :
  ok W H g -> inside nlines ncols r c ->
  frame_get t r c g = Ok (view t g r c) g.
Proof.
  intros (Hwf & Hw & Hh) [Hr Hc].
  destruct t; simpl; apply get_public; auto; unfold public; lia.
Qed.

Lemma frame_get_outside g r c :
  ok W H g -> ~ inside nlines ncols r c ->
  frame_get t r c g = Raise IndexError g.
Proof.
  intros (Hwf & Hw & Hh) Hout. unfold inside in Hout.
  destruct t; simpl; apply get_not_public; unfold public; lia.
Qed.

Lemma frame_set_inside g r c v :
  ok W H g -> inside nlines ncols r c ->
  exists g', frame_set t r c v g = Ok v g' /\ ok W H g' /\
             forall r' c', view t g' r' c' = upd (view t g) r c v r' c'.
Proof.
  intros (Hwf & Hw & Hh) [Hr Hc].
  destruct t; simpl.
  - assert (public g c r) as Hp by (unfold public; lia).
    exists (raw_set g (c + 1) (r + 1) v). split; [by apply set_public|].
    split.
    + destruct (raw_set_dims g (c + 1) (r + 1) v) as [E1 E2].
      unfold ok. rewrite E1, E2. split; [by apply wf_raw_set|done].
    + intros r' c'. rewrite cell_raw_set by done. unfold upd.
      repeat case_decide; auto; tauto.
  - assert (public g r c) as Hp by (unfold public; lia).
    exists (raw_set g (r + 1) (c + 1) v). split; [by apply set_public|].
    split.
    + destruct (raw_set_dims g (r + 1) (c + 1) v) as [E1 E2].
      unfold ok. rewrite E1, E2. split; [by apply wf_raw_set|done].
    + intros r' c'. by rewrite cell_raw_set.
Qed.
End Frames.

Lemma params_inv d gm p :
  _get_params_for_direction d gm = Ok p gm ->
  dir_in d DIRECTIONS = true /\ p = params_for d (grid gm).
Proof.
  intros Hp. destruct (dir_in d DIRECTIONS) eqn:Hd.
  - rewrite params_of_direction in Hp by done. by injection Hp as <-.
  - rewrite params_invalid in Hp by done. discriminate.
Qed.

Lemma scan_of_direction d g :
  (start_of d g = 0 /\ delta_of d = 1) \/
  (start_of d g = ncols_of d g - 1 /\ delta_of d = -1).
Proof. unfold start_of, delta_of. destruct (reversed d); auto. Qed.

Lemma delta_of_nonzero d : delta_of d <> 0.
Proof. unfold delta_of. by destruct (reversed d). Qed.

Lemma ok_self g : wf g -> ok (width g) (height g) g.
Proof. by intros ?. Qed.

Lemma ncols_of_pos d g : wf g -> 0 < ncols_of d g.
Proof. intros (? & ? & _). unfold ncols_of. by destruct (transposed d). Qed.

Lemma nlines_of_pos d g : wf g -> 0 < nlines_of d g.
Proof. intros (? & ? & _). unfold nlines_of. by destruct (transposed d). Qed.

Lemma inside_public d g r c :
  inside (nlines_of d g) (ncols_of d g) r c ->
  if transposed d then public g c r else public g r c.
Proof.
  unfold inside, nlines_of, ncols_of, public.
  destruct (transposed d); lia.
Qed.

(** Every state a slam's three passes can end in, completed or not, is
    reached from the initial grid by moves and merges within lines. *)
Lemma slam_moves_by_steps d g :
  wf g ->
  rtc (step (width g) (height g) (nlines_of d g) (ncols_of d g)
            (view (transposed d)) (looped (ncols_of d g)))
      g (state_of (slam_moves (params_for d g) g)).
Proof.
  intros Hwf.
  apply (slam_moves_steps (width g) (height g) (nlines_of d g) (ncols_of d g)
           (frame_get (transposed d)) (frame_set (transposed d))
           (view (transposed d)));
    [exact (frame_get_inside (width g) (height g) (transposed d))
    |exact (frame_get_outside (width g) (height g) (transposed d))
    |exact (frame_set_inside (width g) (height g) (transposed d))
    |apply delta_of_nonzero
    |by apply ok_self].
Qed.

Lemma combine_by_steps d g :
  wf g ->
  rtc (step (width g) (height g) (nlines_of d g) (ncols_of d g)
            (view (transposed d)) (looped (ncols_of d g)))
      g (state_of (_combine (params_for d g) g)).
Proof.
  intros Hwf.
  apply (combine_steps (width g) (height g) (nlines_of d g) (ncols_of d g)
           (frame_get (transposed d)) (frame_set (transposed d))
           (view (transposed d)));
    [exact (frame_get_inside (width g) (height g) (transposed d))
    |exact (frame_get_outside (width g) (height g) (transposed d))
    |exact (frame_set_inside (width g) (height g) (transposed d))
    |apply delta_of_nonzero
    |by apply ok_self].
Qed.

(** The outcome of the three passes in direction [d]. *)
Lemma slam_moves_outcome_of d g :
  wf g ->
  exists g',
    slam_moves (params_for d g) g =
    (if decide (ncols_of d g <= nlines_of d g) then Ok tt g'
     else Raise IndexError g') /\
    wf g' /\ width g' = width g /\ height g' = height g.
Proof.
  intros Hwf.
  apply (slam_moves_outcome (width g) (height g) (nlines_of d g)
           (ncols_of d g) (frame_get (transposed d))
           (frame_set (transposed d)) (view (transposed d)));
    [exact (frame_get_inside (width g) (height g) (transposed d))
    |exact (frame_get_outside (width g) (height g) (transposed d))
    |exact (frame_set_inside (width g) (height g) (transposed d))
    |apply scan_of_direction
    |by apply ncols_of_pos
    |by apply nlines_of_pos
    |by apply ok_self].
Qed.

Lemma squash_outcome_of d g :
  wf g ->
  exists g',
    _squash (params_for d g) g =
    (if decide (ncols_of d g <= nlines_of d g) then Ok tt g'
     else Raise IndexError g').
Proof.
  intros Hwf.
  destruct (squash_outcome (width g) (height g) (nlines_of d g)
              (ncols_of d g) (frame_get (transposed d))
              (frame_set (transposed d)) (view (transposed d))
              (frame_get_inside (width g) (height g) (transposed d))
              (frame_get_outside (width g) (height g) (transposed d))
              (frame_set_inside (width g) (height g) (transposed d))
              (start_of d g) (delta_of d) (scan_of_direction d g)
              (ncols_of_pos d g Hwf) (nlines_of_pos d g Hwf) g
              (ok_self g Hwf)) as (g' & Hrun & _).
  by exists g'.
Qed.

Lemma combine_returns_of d g :
  wf g -> ncols_of d g <= nlines_of d g ->
  exists g', _combine (params_for d g) g = Ok tt g'.
Proof.
  intros Hwf Hle.
  destruct (combine_returns (width g) (height g) (nlines_of d g)
              (ncols_of d g) (frame_get (transposed d))
              (frame_set (transposed d)) (view (transposed d))
              (frame_get_inside (width g) (height g) (transposed d))
              (frame_set_inside (width g) (height g) (transposed d))
              (start_of d g) (delta_of d) (scan_of_direction d g)
              (ncols_of_pos d g Hwf) g (ok_self g Hwf) Hle)
    as (g' & Hrun & _).
  by exists g'.
Qed.

(** The lines the loops do not reach are left as they are. *)
Lemma slam_moves_skips_lines d g r :
  wf g -> ~ 0 <= r < ncols_of d g ->
  line d (state_of (slam_moves (params_for d g) g)) r = line d g r.
Proof.
  intros Hwf Hr.
  pose proof (slam_moves_by_steps d g Hwf) as Hsteps.
  pose proof (steps_ok _ _ _ _ _ _ _ _ (ok_self g Hwf) Hsteps)
    as (_ & Hw & Hh).
  unfold line, ncols_of. rewrite Hw, Hh. apply list_fmap_ext.
  intros _ c _.
  exact (steps_other_lines _ _ _ _ _ _ _ _ r c Hr Hsteps).
Qed.

(** * The specification, statement by statement *)

Lemma wf_grid_2x2 a b c d : wf (grid_2x2 a b c d).
Proof.
  unfold wf, grid_2x2; simpl. repeat split; try lia. repeat constructor.
Qed.

Lemma below_2 (P : Z -> Prop) : P 0 -> P 1 -> forall k, 0 <= k < 2 -> P k.
Proof.
  intros H0 H1 k Hk.
  destruct (decide (k = 0)) as [->|]; [done|].
  by replace k with 1 by lia.
Qed.

Lemma public_2x2 a b c d (P : Z -> Z -> Prop) :
  P 0 0 -> P 0 1 -> P 1 0 -> P 1 1 ->
  forall j i, public (grid_2x2 a b c d) j i -> P j i.
Proof.
  intros ???? j i [Hj Hi]. simpl in *.
  revert i Hi. apply below_2; revert j Hj; by apply below_2.
Qed.

(** The rows [1 1 0 0] and [0 1 0 1] slammed to the left: both squash to
    [1 1 0 0], combine to [2 0 0 0] and stay so in the last squash. *)
Example slam_moves_of_two_rows :
  let p := params_for LEFT grid_spec_rows in
  let g1 := state_of (_squash p grid_spec_rows) in
  let g2 := state_of (_combine p g1) in
  let g3 := state_of (_squash p g2) in
  (line LEFT g1 0 = [1; 1; 0; 0] /\ line LEFT g1 1 = [1; 1; 0; 0]) /\
  (line LEFT g2 0 = [2; 0; 0; 0] /\ line LEFT g2 1 = [2; 0; 0; 0]) /\
  (line LEFT g3 0 = [2; 0; 0; 0] /\ line LEFT g3 1 = [2; 0; 0; 0]) /\
  slam_moves p grid_spec_rows = Ok tt g3.
Proof. repeat split; reflexivity. Qed.

(** ** Squash *)

(** C7 (as amended).  For every direction a slam accepts: a grid whose
    lines are all squashed already is left unchanged by [_squash], whatever
    its values; and on a grid whose cells are EMPTY or positive, running
    [_squash] again from the state the first run ended in gives the same
    outcome and the same grid as the first run.  A run of [_squash] ends
    within the iterations its loops are given: it returns, or raises
    IndexError when a line has more cells than there are lines. *)
Theorem squash_idempotent (gm : Game) (d : direction) (p : params) :
  wf (grid gm) ->
  _get_params_for_direction d gm = Ok p gm ->
  ((forall r, 0 <= r < nlines_of d (grid gm) -> squashed d (grid gm) r) ->
   state_of (_squash p (grid gm)) = grid gm) /\
  ((forall j i, public (grid gm) j i -> 0 <= cell (grid gm) j i) ->
   _squash p (state_of (_squash p (grid gm))) = _squash p (grid gm)) /\
  (exists g', _squash p (grid gm) =
     if decide (ncols_of d (grid gm) <= nlines_of d (grid gm))
     then Ok tt g' else Raise IndexError g').
Proof.
  intros Hwf [Hd ->]%params_inv. set (g := grid gm) in *.
  split; [|split; [|by apply squash_outcome_of]].
  - intros Hsq.
    apply (squash_packed_fix (width g) (height g) (nlines_of d g)
             (ncols_of d g) (frame_get (transposed d))
             (frame_set (transposed d)) (view (transposed d)));
      [exact (frame_get_inside (width g) (height g) (transposed d))
      |exact (frame_get_outside (width g) (height g) (transposed d))
      |apply scan_of_direction
      |by apply ncols_of_pos
      |by apply nlines_of_pos
      |by apply ok_self
      |exact Hsq].
  - intros Hnn.
    apply (squash_twice (width g) (height g) (nlines_of d g)
             (ncols_of d g) (frame_get (transposed d))
             (frame_set (transposed d)) (view (transposed d)));
      [exact (frame_get_inside (width g) (height g) (transposed d))
      |exact (frame_get_outside (width g) (height g) (transposed d))
      |exact (frame_set_inside (width g) (height g) (transposed d))
      |apply scan_of_direction
      |by apply ncols_of_pos
      |by apply nlines_of_pos
      |by apply ok_self
      |].
    intros r c Hin%inside_public. unfold view.
    destruct (transposed d); by apply Hnn.
Qed.

(** The theorem at a 2x2 grid whose rows [2 4] and [2 0] are squashed to
    the left. *)
Lemma squash_idempotent_witness :
  let g := grid_2x2 2 4 2 0 in
  let p := params_for LEFT g in
  state_of (_squash p g) = g /\
  _squash p (state_of (_squash p g)) = _squash p g.
Proof.
  intros g p.
  destruct (squash_idempotent (game_on g 2) LEFT p (wf_grid_2x2 2 4 2 0)
              eq_refl) as (Ha & Hb & _).
  split.
  - apply Ha. apply below_2.
    + exists 2. unfold squashed.
      change (ncols_of LEFT (grid (game_on g 2))) with 2.
      split; [lia|]. split.
      * apply below_2; vm_compute; discriminate.
      * intros k Hk. lia.
    + exists 1. unfold squashed.
      change (ncols_of LEFT (grid (game_on g 2))) with 2.
      split; [lia|]. split.
      * intros k Hk. replace k with 0 by lia. vm_compute. discriminate.
      * intros k Hk. replace k with 1 by lia. reflexivity.
  - apply Hb. apply public_2x2; vm_compute; discriminate.
Defined.

(** C7, counterexample.  Row [0 -1 1 1] of a 4x4 grid, reached from a new
    grid by three calls of [set]: the first left squash gives [1 -1 0 1]
    and a second one gives [1 -1 1 0], because a negative value is never
    moved while it counts as a full cell. *)
Lemma squash_twice_differs :
  (exists g0, Grid_init 4 4 = inr g0 /\
     state_of ((set 0 1 (-1) ;;; set 0 2 1 ;;; set 0 3 1) g0)
     = grid_mixed_signs) /\
  _get_params_for_direction LEFT (game_on grid_mixed_signs 1)
  = Ok (params_for LEFT grid_mixed_signs) (game_on grid_mixed_signs 1) /\
  _squash (params_for LEFT grid_mixed_signs)
          (state_of (_squash (params_for LEFT grid_mixed_signs)
                             grid_mixed_signs))
  <> _squash (params_for LEFT grid_mixed_signs) grid_mixed_signs.
Proof.
  split; [eexists; split; reflexivity|]. split; [reflexivity|].
  vm_compute. discriminate.
Qed.

(** ** Combine *)

(** C8.  For every direction a slam accepts and every line along it, the
    sum of the line's values is the same before [_combine] and in the state
    [_combine] ends in; and [_combine] returns, within the iterations its
    loops are given, on every grid that has at least as many lines along
    the direction as a line has cells. *)
Theorem combine_preserves_line_sums (gm : Game) (d : direction) (p : params)
    (r : Z) :
  wf (grid gm) ->
  _get_params_for_direction d gm = Ok p gm ->
  sumZ (line d (state_of (_combine p (grid gm))) r)
  = sumZ (line d (grid gm) r) /\
  (ncols_of d (grid gm) <= nlines_of d (grid gm) ->
   exists g', _combine p (grid gm) = Ok tt g').
Proof.
  intros Hwf [Hd ->]%params_inv. set (g := grid gm) in *.
  split; [|by apply combine_returns_of].
  pose proof (combine_by_steps d g Hwf) as Hsteps.
  pose proof (steps_ok _ _ _ _ _ _ _ _ (ok_self g Hwf) Hsteps)
    as (_ & Hw & Hh).
  pose proof (steps_line_sum _ _ _ _ _ _ _ _ r Hsteps) as Hsum.
  unfold line, ncols_of. rewrite Hw, Hh. exact Hsum.
Qed.

(** The theorem at the rows [1 1] and [2 2] of a 2x2 grid, which combine
    into [2 0] and [4 0]. *)
Lemma combine_preserves_line_sums_witness :
  let g := grid_2x2 1 1 2 2 in
  _combine (params_for LEFT g) g = Ok tt (grid_2x2 2 0 4 0) /\
  sumZ (line LEFT (state_of (_combine (params_for LEFT g) g)) 1)
  = sumZ (line LEFT g 1) /\
  exists g', _combine (params_for LEFT g) g = Ok tt g'.
Proof.
  intros g. split; [reflexivity|].
  destruct (combine_preserves_line_sums (game_on g 2) LEFT
              (params_for LEFT g) 1 (wf_grid_2x2 1 1 2 2) eq_refl)
    as [Hsum Hret].
  split; [exact Hsum|]. apply Hret. vm_compute. discriminate.
Defined.

(** A row of four equal values merges pairwise, once. *)
Example combine_merges_once :
  line LEFT
    (state_of (_combine (params_for LEFT grid_ones)
                 grid_ones)) 0
  = [2; 0; 2; 0].
Proof. reflexivity. Qed.

(** ** Cell values *)

Lemma state_of_set g j i v :
  wf g ->
  state_of (set j i v g) =
  if decide (public g j i) then raw_set g (j + 1) (i + 1) v else g.
Proof.
  intros Hwf. case_decide.
  - by rewrite set_public.
  - by rewrite set_not_public.
Qed.

Lemma public_raw_set g j i v j' i' :
  public (raw_set g j i v) j' i' <-> public g j' i'.
Proof.
  unfold public. by destruct (raw_set_dims g j i v) as [-> ->].
Qed.

Lemma public_nonneg_raw_set g j i v :
  wf g -> public g j i -> 0 <= v -> public_nonneg g ->
  public_nonneg (raw_set g (j + 1) (i + 1) v).
Proof.
  intros Hwf Hp Hv Hnn j' i' Hp'.
  apply (public_raw_set g (j + 1) (i + 1) v j' i') in Hp'.
  rewrite cell_raw_set by done. case_decide; [done|by apply Hnn].
Qed.

Lemma stores_nonneg_inv w h g :
  stores_nonneg w h g -> wf g /\ public_nonneg g.
Proof.
  induction 1 as [g Hg|g j i v _ [Hwf Hnn] Hv].
  - split; [by eapply wf_Grid_init|].
    intros j i Hp. rewrite (Grid_init_cell _ _ _ _ _ Hg Hp). done.
  - rewrite state_of_set by done. case_decide; [|done].
    split; [by apply wf_raw_set|by apply public_nonneg_raw_set].
Qed.

(** C3 (as amended).  In every grid reached from a new grid by calls of
    [set] that store EMPTY or positive values, [get] at public coordinates
    returns a value that is EMPTY or positive, never EDGE. *)
Theorem public_cells_never_EDGE (w h : Z) (g : Grid) (j i : Z) :
  stores_nonneg w h g -> public g j i ->
  exists v, get j i g = Ok v g /\ 0 <= v /\ v <> EDGE.
Proof.
  intros [Hwf Hnn]%stores_nonneg_inv Hp. exists (cell g j i).
  split; [by apply get_public|]. specialize (Hnn j i Hp).
  unfold EDGE. lia.
Qed.

Lemma public_cells_never_EDGE_witness :
  exists v, get 0 1 (state_of (set 0 1 4 (grid_2x2 0 0 0 0)))
            = Ok v (state_of (set 0 1 4 (grid_2x2 0 0 0 0)))
            /\ 0 <= v /\ v <> EDGE.
Proof.
  apply (public_cells_never_EDGE 2 2).
  - apply stores_set; [|lia]. apply stores_init. reflexivity.
  - vm_compute. repeat split; discriminate.
Defined.

(** C3, counterexample.  [set] does not look at the value it stores: on a
    new 1x1 grid, [set 0 0 EDGE] succeeds and [get 0 0] then returns
    EDGE. *)
Lemma set_stores_EDGE :
  exists g0 g1, Grid_init 1 1 = inr g0 /\ public g0 0 0 /\
    set 0 0 EDGE g0 = Ok EDGE g1 /\ get 0 0 g1 = Ok EDGE g1.
Proof.
  do 2 eexists. split; [reflexivity|]. split; [|split; reflexivity].
  vm_compute. repeat split; discriminate.
Qed.

(** ** Available and occupied cells *)

(** C6 (as amended).  On a grid none of whose public cells holds EDGE, the
    two sequences partition the public coordinates: together they list
    every public coordinate exactly once and nothing else, a coordinate
    being in [available_cells] when its cell is EMPTY and in
    [occupied_cells] when it is not. *)
Theorem available_occupied_partition (g : Grid) :
  wf g ->
  (forall j i, public g j i -> cell g j i <> EDGE) ->
  NoDup (available_cells g ++ occupied_cells g) /\
  (forall j i, (j, i) ∈ available_cells g ++ occupied_cells g
               <-> public g j i) /\
  (forall j i, (j, i) ∈ available_cells g
               <-> public g j i /\ cell g j i = EMPTY) /\
  (forall j i, (j, i) ∈ occupied_cells g
               <-> public g j i /\ cell g j i <> EMPTY).
Proof.
  intros Hwf Hedge. split; [|split; [|split]].
  - apply NoDup_app. split; [apply NoDup_available_cells|].
    split; [|apply NoDup_occupied_cells].
    intros [j i] Ha Ho.
    apply elem_of_available_cells in Ha as [_ Ha]; [|done].
    apply elem_of_occupied_cells in Ho as (_ & Ho & _); [|done]. done.
  - intros j i. rewrite elem_of_app, elem_of_available_cells,
      elem_of_occupied_cells by done.
    split; [tauto|]. intros Hp.
    destruct (decide (cell g j i = EMPTY)); [by left|right].
    split; [done|]. split; [done|by apply Hedge].
  - intros j i. by apply elem_of_available_cells.
  - intros j i. rewrite elem_of_occupied_cells by done.
    split; [tauto|]. intros [Hp Hne]. split; [done|]. split; [done|].
    by apply Hedge.
Qed.

Lemma available_occupied_partition_witness :
  NoDup (available_cells (grid_2x2 0 2 4 0)
         ++ occupied_cells (grid_2x2 0 2 4 0)) /\
  available_cells (grid_2x2 0 2 4 0) = [(0, 0); (1, 1)] /\
  occupied_cells (grid_2x2 0 2 4 0) = [(0, 1); (1, 0)].
Proof.
  split; [|split; reflexivity].
  apply (available_occupied_partition (grid_2x2 0 2 4 0)
           (wf_grid_2x2 0 2 4 0)).
  apply public_2x2; vm_compute; discriminate.
Defined.

(** C6, counterexample.  [occupied_cells] leaves out the cells equal to
    EDGE, and [set] can store EDGE: after [set 0 0 EDGE] on a new 1x1 grid
    the public coordinate (0, 0) is in neither sequence. *)
Lemma EDGE_cell_in_neither_sequence :
  exists g0 g1, Grid_init 1 1 = inr g0 /\ set 0 0 EDGE g0 = Ok EDGE g1 /\
    public g1 0 0 /\
    available_cells g1 = [] /\ occupied_cells g1 = [].
Proof.
  do 2 eexists. split; [reflexivity|]. split; [reflexivity|].
  split; [|split; reflexivity].
  vm_compute. repeat split; discriminate.
Qed.

(** ** Neighbors *)

(** C9.  [neighbors] checks no bound on the coordinate it is given: for
    every pair of integers it yields, in the order of the directions, the
    adjacent positions that are public coordinates, also where [get] on the
    same coordinate raises IndexError. *)
Theorem neighbors_unchecked (g : Grid) (j i : Z) (directions : list direction) :
  neighbors g j i directions
  = filter (fun n => public g (fst n) (snd n))
           ((fun d => (j + fst d, i + snd d)) <$> directions)
  /\ (~ public g j i -> get j i g = Raise IndexError g).
Proof.
  split; [|apply get_not_public].
  unfold neighbors, _to_grid_indices.
  induction directions as [|[dj di] ds IH]; [done|].
  rewrite !fmap_cons, !filter_cons. cbn [_apply_dir fst snd].
  replace (j + 1 + dj) with (j + dj + 1) by lia.
  replace (i + 1 + di) with (i + di + 1) by lia.
  destruct (decide (public g (j + dj) (i + di))) as [Hp|Hp].
  - rewrite decide_True by (by apply on_grid_public).
    rewrite fmap_cons, <- IH. f_equal.
    unfold _to_view_indices. simpl. f_equal; lia.
  - rewrite decide_False; [done|].
    intros Hon%on_grid_public. contradiction.
Qed.

(** The theorem at the position (-1, 0), above a 2x2 grid: it has the
    public neighbor (0, 0), and [get] raises there. *)
Lemma neighbors_unchecked_witness :
  neighbors (grid_2x2 0 0 0 0) (-1) 0 DIRECTIONS = [(0, 0)]
  /\ get (-1) 0 (grid_2x2 0 0 0 0) = Raise IndexError (grid_2x2 0 0 0 0).
Proof.
  destruct (neighbors_unchecked (grid_2x2 0 0 0 0) (-1) 0 DIRECTIONS)
    as [Hn Hget].
  split.
  - rewrite Hn. reflexivity.
  - apply Hget. intros [Hj _]. lia.
Defined.

(** ** Random placement *)

Lemma choice_elem_of {A} rnd (l : list A) :
  l <> [] -> exists x, choice rnd l = Some x /\ x ∈ l.
Proof.
  intros Hl. destruct l as [|a l]; [done|].
  unfold choice.
  destruct (lookup_lt_is_Some_2 (a :: l) (rnd mod length (a :: l))%nat)
    as [x Hx].
  { apply Nat.mod_upper_bound. simpl. lia. }
  exists x. split; [done|]. by eapply list_elem_of_lookup_2.
Qed.

Lemma place_random_full rnd gm :
  available_cells (grid gm) = [] -> _place_random rnd gm = Ok tt gm.
Proof. unfold _place_random. by intros ->. Qed.

Lemma place_random_some rnd gm :
  wf (grid gm) -> available_cells (grid gm) <> [] ->
  exists j i,
    public (grid gm) j i /\ cell (grid gm) j i = EMPTY /\
    _place_random rnd gm
    = Ok tt (with_cells gm
               (raw_set (grid gm) (j + 1) (i + 1) (initial_value gm))).
Proof.
  intros Hwf Hne.
  destruct (choice_elem_of rnd _ Hne) as ([j i] & Hch & Hin).
  apply elem_of_available_cells in Hin as [Hp Hc]; [|done].
  exists j, i. split; [done|]. split; [done|].
  unfold _place_random. rewrite Hch.
  unfold bind, with_grid. by rewrite set_public.
Qed.

(** C10.  A random placement changes at most one cell.  When no public
    cell is EMPTY it returns without an error and leaves the game as it is;
    when some public cell is EMPTY it returns without an error, one public
    cell that was EMPTY now holds the spawn value, every other cell holds
    what it held, and nothing else of the game changes. *)
Theorem place_random_one_cell (rnd : nat) (gm : Game) :
  wf (grid gm) ->
  ((forall j i, public (grid gm) j i -> cell (grid gm) j i <> EMPTY) ->
   _place_random rnd gm = Ok tt gm) /\
  ((exists j i, public (grid gm) j i /\ cell (grid gm) j i = EMPTY) ->
   exists j i g',
     public (grid gm) j i /\ cell (grid gm) j i = EMPTY /\
     _place_random rnd gm = Ok tt (with_cells gm g') /\
     wf g' /\ width g' = width (grid gm) /\ height g' = height (grid gm) /\
     cell g' j i = initial_value gm /\
     forall j' i', (j', i') <> (j, i) -> cell g' j' i' = cell (grid gm) j' i').
Proof.
  intros Hwf. split.
  - intros Hfull. apply place_random_full.
    destruct (available_cells (grid gm)) as [|[j i] l] eqn:E; [done|].
    assert ((j, i) ∈ available_cells (grid gm)) as Hin by (rewrite E; left).
    apply elem_of_available_cells in Hin as [Hp Hc]; [|done].
    by destruct (Hfull j i Hp).
  - intros (j0 & i0 & Hp0 & Hc0).
    destruct (place_random_some rnd gm Hwf) as (j & i & Hp & Hc & Hrun).
    { intros E.
      assert ((j0, i0) ∈ available_cells (grid gm)) as Hin
          by (by apply elem_of_available_cells).
      rewrite E in Hin. by apply elem_of_nil in Hin. }
    exists j, i, (raw_set (grid gm) (j + 1) (i + 1) (initial_value gm)).
    destruct (raw_set_dims (grid gm) (j + 1) (i + 1) (initial_value gm))
      as [Hw Hh].
    do 3 (split; [done|]). split; [by apply wf_raw_set|].
    do 2 (split; [done|]). split.
    + rewrite cell_raw_set by done. by rewrite decide_True.
    + intros j' i' Hne. rewrite cell_raw_set by done.
      rewrite decide_False; [done|]. intros [-> ->]. done.
Qed.

(** The theorem at a full 2x2 grid, and at one with one EMPTY cell. *)
Lemma place_random_one_cell_witness :
  _place_random 7 (game_on (grid_2x2 2 4 8 16) 2)
  = Ok tt (game_on (grid_2x2 2 4 8 16) 2) /\
  exists j i g',
    public (grid_2x2 2 4 0 16) j i /\ cell (grid_2x2 2 4 0 16) j i = EMPTY /\
    _place_random 7 (game_on (grid_2x2 2 4 0 16) 2)
    = Ok tt (with_cells (game_on (grid_2x2 2 4 0 16) 2) g') /\
    wf g' /\ width g' = 2 /\ height g' = 2 /\
    cell g' j i = 2 /\
    forall j' i', (j', i') <> (j, i) ->
                  cell g' j' i' = cell (grid_2x2 2 4 0 16) j' i'.
Proof.
  split.
  - apply (place_random_one_cell 7 (game_on (grid_2x2 2 4 8 16) 2)
             (wf_grid_2x2 2 4 8 16)).
    apply public_2x2; vm_compute; discriminate.
  - apply (place_random_one_cell 7 (game_on (grid_2x2 2 4 0 16) 2)
             (wf_grid_2x2 2 4 0 16)).
    exists 1, 0. split; [|reflexivity].
    vm_compute. repeat split; discriminate.
Defined.

Example place_random_example :
  _place_random 7 (game_on (grid_2x2 2 4 0 16) 2)
  = Ok tt (game_on (grid_2x2 2 4 2 16) 2).
Proof. reflexivity. Qed.

(** ** Directions that are not recognized *)

Lemma any_m_total {S A} (l : list A) (p : A -> M S bool) s :
  (forall x, x ∈ l -> exists b, p x s = Ok b s) ->
  exists b, any_m l p s = Ok b s.
Proof.
  induction l as [|x l IH]; intros Hp; cbn [any_m].
  - by exists false.
  - destruct (Hp x) as [b Hb]; [by left|].
    unfold bind. rewrite Hb. destruct b; [by exists true|].
    apply IH. intros y Hy. apply Hp. by right.
Qed.

Lemma position_can_move_total g j i ds :
  wf g -> public g j i -> exists b, _position_can_move j i ds g = Ok b g.
Proof.
  intros Hwf Hp. unfold _position_can_move, bind, reads.
  rewrite get_public by done. unfold id. apply any_m_total.
  intros [nj ni] Hn. cbn [fst snd].
  assert (public g nj ni) as Hpn.
  { by apply (neighbors_public g j i ds (nj, ni)). }
  rewrite get_public by done. by eexists.
Qed.

Lemma any_can_move_total ds gm :
  wf (grid gm) -> exists b, any_can_move ds gm = Ok b gm.
Proof.
  intros Hwf. unfold any_can_move, with_grid.
  assert (exists b,
    (g <- reads id ;;
     any_m (range (width g))
       (fun i => any_m (range (height g))
          (fun j => v <- get j i ;;
                    if v =? EMPTY then ret true
                    else _position_can_move j i ds))) (grid gm)
    = Ok b (grid gm)) as [b ->].
  { unfold bind at 1, reads, id. apply any_m_total.
    intros i Hi%elem_of_range. apply any_m_total.
    intros j Hj%elem_of_range.
    assert (public (grid gm) j i) as Hp by done.
    unfold bind. rewrite get_public by done.
    destruct (cell (grid gm) j i =? EMPTY); [by exists true|].
    by apply position_can_move_total. }
  exists b. by destruct gm.
Qed.

(** C5 (as amended).  [slam] raises ValueError, before it changes
    anything, when its direction is none of UP, RIGHT, DOWN and LEFT;
    [any_can_move] checks nothing about the directions it is given and
    returns a boolean for every list of pairs of integers. *)
Theorem unrecognized_direction (gm : Game) (d : direction) (rnd : nat)
    (ds : list direction) :
  wf (grid gm) ->
  dir_in d DIRECTIONS = false ->
  slam d rnd gm = Raise ValueError gm /\
  exists b, any_can_move (d :: ds) gm = Ok b gm.
Proof.
  intros Hwf Hd. split; [|by apply any_can_move_total].
  unfold slam, _validate_direction. by rewrite Hd.
Qed.

Lemma unrecognized_direction_witness :
  slam (0, 0) 3 (game_on (grid_2x2 2 4 8 16) 2)
  = Raise ValueError (game_on (grid_2x2 2 4 8 16) 2) /\
  exists b, any_can_move [(0, 0)] (game_on (grid_2x2 2 4 8 16) 2)
            = Ok b (game_on (grid_2x2 2 4 8 16) 2).
Proof.
  apply (unrecognized_direction (game_on (grid_2x2 2 4 8 16) 2) (0, 0) 3 []
           (wf_grid_2x2 2 4 8 16)).
  reflexivity.
Defined.

(** C5, counterexample.  The pair (0, 0) is no direction, and
    [any_can_move] called with it on a full 2x2 grid of distinct values
    returns [True] (each cell is its own neighbor) where the statement has it
    raise ValueError. *)
Lemma any_can_move_does_not_validate :
  dir_in (0, 0) DIRECTIONS = false /\
  any_can_move [(0, 0)] (game_on (grid_2x2 2 4 8 16) 2)
  = Ok true (game_on (grid_2x2 2 4 8 16) 2) /\
  any_can_move [(0, 0)] (game_on (grid_2x2 2 4 8 16) 2)
  <> Raise ValueError (game_on (grid_2x2 2 4 8 16) 2).
Proof. split; [reflexivity|]. split; [reflexivity|discriminate]. Qed.

(** ** The best value *)

Lemma with_grid_unfold {A} (m : M Grid A) gm :
  with_grid m gm =
  match m (grid gm) with
  | Ok a g => Ok a (with_cells gm g)
  | Raise e g => Raise e (with_cells gm g)
  | OutOfFuel g => OutOfFuel (with_cells gm g)
  end.
Proof. reflexivity. Qed.

Lemma state_of_with_grid {A} (m : M Grid A) gm :
  state_of (with_grid m gm) = with_cells gm (state_of (m (grid gm))).
Proof. rewrite with_grid_unfold. by destruct (m (grid gm)). Qed.

(** The three passes of a slam keep a grid sound, however they end. *)
Lemma slam_moves_sound m d g :
  grid_sound m g ->
  grid_sound m (state_of (slam_moves (params_for d g) g)) /\
  width (state_of (slam_moves (params_for d g) g)) = width g /\
  height (state_of (slam_moves (params_for d g) g)) = height g.
Proof.
  intros (Hwf & Hnn & j & i & Hp & Hm).
  pose proof (slam_moves_by_steps d g Hwf) as Hsteps.
  set (g' := state_of (slam_moves (params_for d g) g)) in *.
  pose proof (steps_ok _ _ _ _ _ _ _ _ (ok_self g Hwf) Hsteps)
    as (Hwf' & Hw & Hh).
  assert (Hnn0 : nonneg (nlines_of d g) (ncols_of d g)
                        (view (transposed d)) g).
  { intros r c Hin%inside_public. unfold view.
    destruct (transposed d); by apply Hnn. }
  assert (Hr0 : reaches (nlines_of d g) (ncols_of d g)
                        (view (transposed d)) m g).
  { unfold reaches, inside, nlines_of, ncols_of, view.
    destruct Hp as [Hj Hi].
    destruct (transposed d); [exists i, j|exists j, i]; split; auto. }
  pose proof (steps_nonneg _ _ _ _ _ _ _ _ Hnn0 Hsteps) as Hnn'.
  pose proof (steps_reaches _ _ _ _ _ _ _ _ _ Hnn0 Hr0 Hsteps)
    as (r & c & Hin & Hm').
  split; [|done]. split; [done|]. split.
  - intros j' i' [Hj' Hi']. rewrite Hw, Hh in *.
    unfold nonneg, inside, nlines_of, ncols_of, view in Hnn'.
    destruct (transposed d);
      [apply (Hnn' i' j')|apply (Hnn' j' i')]; split; lia.
  - unfold inside, nlines_of, ncols_of, view in Hin, Hm'.
    destruct (transposed d); [exists c, r|exists r, c];
      (split; [unfold public; rewrite Hw, Hh; lia|done]).
Qed.

(** A random placement of a value that is not negative keeps a grid sound
    and always returns. *)
Lemma place_random_sound m rnd gm :
  grid_sound m (grid gm) -> 0 <= initial_value gm ->
  exists g', _place_random rnd gm = Ok tt (with_cells gm g') /\
             grid_sound m g'.
Proof.
  intros (Hwf & Hnn & j & i & Hp & Hm) Hv.
  destruct (decide (available_cells (grid gm) = [])) as [E|Hne].
  - exists (grid gm). rewrite place_random_full by done.
    split; [by destruct gm|]. split; [done|]. split; [done|eauto].
  - destruct (place_random_some rnd gm Hwf Hne) as (j0 & i0 & Hp0 & Hc0 & Hrun).
    eexists. split; [exact Hrun|]. split; [by apply wf_raw_set|].
    split; [by apply public_nonneg_raw_set|].
    exists j, i. split; [by apply public_raw_set|].
    rewrite cell_raw_set by done. case_decide as Hd; [|done].
    destruct Hd as [-> ->]. unfold EMPTY in Hc0. lia.
Qed.

Lemma update_max_sound m gm :
  grid_sound m (grid gm) ->
  exists m', update_max gm
             = Ok tt (mkGame (grid gm) (initial_value gm) (goal gm) m') /\
             m <= m' /\ grid_sound m' (grid gm) /\
             max_of_cells (mkGame (grid gm) (initial_value gm) (goal gm) m').
Proof.
  intros (Hwf & Hnn & j & i & Hp & Hm).
  destruct (cell_values_spec (grid gm) Hwf) as (vs & Hvs & Hne & Hin).
  destruct (py_max_is_Some vs Hne) as [m' Hm'].
  destruct (py_max_spec vs m' Hm') as [Hmem Hall].
  exists m'. unfold update_max. rewrite Hvs, Hm'. split; [done|].
  apply Hin in Hmem as (j' & i' & Hp' & Hc').
  assert (forall j i, public (grid gm) j i -> cell (grid gm) j i <= m') as Hle.
  { intros j1 i1 Hp1. apply Hall, Hin. eauto. }
  split; [specialize (Hle j i Hp); lia|]. split.
  - split; [done|]. split; [done|]. exists j', i'. split; [done|lia].
  - split; [by exists j', i'|done].
Qed.

Lemma sound_init w h goal spawn gm :
  0 <= spawn -> Game_init w h goal spawn = inr gm -> sound gm /\ _max gm = 0.
Proof.
  intros Hs. unfold Game_init.
  destruct (Grid_init w h) as [|g] eqn:Hg; [discriminate|].
  intros [= <-]. split; [|done]. split; [|done]. cbn [_max grid].
  pose proof (wf_Grid_init _ _ _ Hg) as Hwf. split; [done|].
  assert (forall j i, public g j i -> cell g j i = 0) as Hc.
  { intros j i Hp. by rewrite (Grid_init_cell _ _ _ _ _ Hg Hp). }
  split.
  - intros j i Hp. rewrite Hc by done. done.
  - destruct Hwf as (Hw & Hh & _). exists 0, 0.
    assert (public g 0 0) by (unfold public; lia).
    split; [done|]. by rewrite Hc.
Qed.

Lemma start_sound r1 r2 gm :
  sound gm ->
  sound (state_of (start r1 r2 gm)) /\
  _max (state_of (start r1 r2 gm)) = _max gm.
Proof.
  intros [Hg Hv]. unfold start.
  destruct (place_random_sound _ r1 gm Hg Hv) as (g1 & Hrun1 & Hg1).
  erewrite bind_Ok by exact Hrun1.
  destruct (place_random_sound (_max gm) r2 (with_cells gm g1) Hg1 Hv)
    as (g2 & Hrun2 & Hg2).
  rewrite Hrun2. by split.
Qed.

(** What one call of [slam] does to a sound game, however it ends. *)
Lemma slam_sound d rnd gm :
  sound gm ->
  sound (state_of (slam d rnd gm)) /\
  _max gm <= _max (state_of (slam d rnd gm)) /\
  goal (state_of (slam d rnd gm)) = goal gm /\
  (forall gm', slam d rnd gm = Ok tt gm' -> max_of_cells gm').
Proof.
  intros [Hg Hv]. unfold slam, _validate_direction.
  destruct (dir_in d DIRECTIONS) eqn:Hd; cbn [negb]; cycle 1.
  { erewrite bind_Raise by reflexivity. cbn [state_of].
    split; [by split|]. split; [lia|]. split; [done|]. by intros gm' [=]. }
  erewrite bind_Ok by reflexivity.
  erewrite bind_Ok by (by apply params_of_direction).
  destruct (slam_moves_sound (_max gm) d (grid gm) Hg) as (Hg1 & _ & _).
  fold (params_for d (grid gm)).
  destruct (slam_moves (params_for d (grid gm)) (grid gm))
    as [[] g1|e g1|g1] eqn:Hmoves; cbn [state_of] in *.
  2: { erewrite bind_Raise by (by rewrite with_grid_unfold, Hmoves).
       cbn [state_of]. split; [by split|]. split; [cbn; lia|].
       split; [done|]. by intros gm' [=]. }
  2: { erewrite bind_OutOfFuel by (by rewrite with_grid_unfold, Hmoves).
       cbn [state_of]. split; [by split|]. split; [cbn; lia|].
       split; [done|]. by intros gm' [=]. }
  erewrite bind_Ok by (by rewrite with_grid_unfold, Hmoves).
  destruct (place_random_sound _ rnd (with_cells gm g1) Hg1 Hv)
    as (g2 & Hrun2 & Hg2).
  erewrite bind_Ok by exact Hrun2.
  destruct (update_max_sound _ (with_cells (with_cells gm g1) g2) Hg2)
    as (m' & Hrun3 & Hm' & Hg3 & Hmax).
  rewrite Hrun3. cbn [state_of _max goal grid initial_value with_cells] in *.
  split; [by split|]. split; [done|]. split; [done|].
  by intros gm' [= <-].
Qed.

Lemma reachable_sound w h goal spawn gm :
  0 <= spawn -> reachable w h goal spawn gm -> sound gm.
Proof.
  intros Hs. induction 1 as [gm Hinit|gm r1 r2 _ IH|gm d rnd _ IH].
  - by destruct (sound_init _ _ _ _ _ Hs Hinit).
  - by apply start_sound.
  - by apply slam_sound.
Qed.

Lemma slam_steps_monotone gm gm' :
  sound gm -> rtc slam_step gm gm' ->
  sound gm' /\ _max gm <= _max gm' /\ goal gm' = goal gm.
Proof.
  intros Hs Hr. induction Hr as [gm|gm gm1 gm' (d & rnd & ->) _ IH].
  - split; [done|]. split; [lia|done].
  - destruct (slam_sound d rnd gm Hs) as (Hs1 & Hle & Hgoal & _).
    destruct (IH Hs1) as (Hs' & Hle' & Hgoal').
    split; [done|]. split; [lia|congruence].
Qed.

(** C4 (as amended).  In a game whose spawn value is not negative: over
    every sequence of calls of [slam], completed or not, [_max] never
    decreases, so [goal_met], once true, stays true; after each completed
    [slam], [_max] is the greatest value of a public cell; and [_max] is 0 in
    a new game and still 0 after [start]. *)
Theorem best_value_monotone (w h goal spawn : Z) (gm : Game) :
  0 <= spawn ->
  reachable w h goal spawn gm ->
  (forall gm', rtc slam_step gm gm' ->
     _max gm <= _max gm' /\ (goal_met gm = true -> goal_met gm' = true)) /\
  (forall d rnd gm', slam d rnd gm = Ok tt gm' -> max_of_cells gm') /\
  (forall gm0 r1 r2, Game_init w h goal spawn = inr gm0 ->
     _max gm0 = 0 /\ _max (state_of (start r1 r2 gm0)) = 0).
Proof.
  intros Hs Hreach. pose proof (reachable_sound _ _ _ _ _ Hs Hreach) as Hsound.
  split; [|split].
  - intros gm' Hr.
    destruct (slam_steps_monotone gm gm' Hsound Hr) as (_ & Hle & Hgoal).
    split; [done|]. unfold goal_met. rewrite Hgoal.
    rewrite !Z.geb_le. lia.
  - intros d rnd gm' Hrun.
    by apply (slam_sound d rnd gm Hsound).
  - intros gm0 r1 r2 Hinit.
    destruct (sound_init _ _ _ _ _ Hs Hinit) as [Hs0 H0].
    split; [done|]. destruct (start_sound r1 r2 gm0 Hs0) as [_ ->]. done.
Qed.

(** The theorem at a new 2x2 game after [start] and one left slam. *)
Lemma best_value_monotone_witness :
  let gm1 := state_of (start 0 0 (game_on (grid_2x2 0 0 0 0) 2)) in
  let gm2 := state_of (slam LEFT 0 gm1) in
  _max gm1 <= _max gm2 /\
  (goal_met gm1 = true -> goal_met gm2 = true) /\
  max_of_cells gm2 /\ _max gm2 = 4.
Proof.
  intros gm1 gm2.
  destruct (best_value_monotone 2 2 2048 2 gm1) as (Hmono & Hmax & _).
  - lia.
  - apply reach_start, reach_init. reflexivity.
  - split; [|split; [|split]].
    + apply Hmono. apply rtc_once. exists LEFT, 0%nat. reflexivity.
    + apply Hmono. apply rtc_once. exists LEFT, 0%nat. reflexivity.
    + apply (Hmax LEFT 0%nat). reflexivity.
    + reflexivity.
Defined.

(** C4, counterexample.  With the spawn value -2 (and the goal -1) on a
    1x1 grid: [_max] is 0 and the goal is met after [start]; the first
    slam completes and leaves [_max] at -2, the only cell value, and the
    goal is no longer met. *)
Lemma best_value_decreases :
  exists gm0 gm1 gm2,
    Game_init 1 1 (-1) (-2) = inr gm0 /\
    start 0 0 gm0 = Ok tt gm1 /\
    _max gm1 = 0 /\ goal_met gm1 = true /\
    slam LEFT 0 gm1 = Ok tt gm2 /\
    _max gm2 = -2 /\ goal_met gm2 = false.
Proof. do 3 eexists. repeat split; reflexivity. Qed.

(** ** When a slam returns *)

Lemma place_random_returns rnd gm :
  wf (grid gm) ->
  exists g', _place_random rnd gm = Ok tt (with_cells gm g') /\ wf g'.
Proof.
  intros Hwf.
  destruct (decide (available_cells (grid gm) = [])) as [E|Hne].
  - exists (grid gm). rewrite place_random_full by done.
    split; [by destruct gm|done].
  - destruct (place_random_some rnd gm Hwf Hne) as (j & i & _ & _ & Hrun).
    eexists. split; [exact Hrun|by apply wf_raw_set].
Qed.

Lemma update_max_returns gm :
  wf (grid gm) ->
  exists m, update_max gm
            = Ok tt (mkGame (grid gm) (initial_value gm) (goal gm) m).
Proof.
  intros Hwf.
  destruct (cell_values_spec (grid gm) Hwf) as (vs & Hvs & Hne & _).
  destruct (py_max_is_Some vs Hne) as [m Hm].
  exists m. unfold update_max. by rewrite Hvs, Hm.
Qed.

(** A slam in a recognized direction returns when the grid has at least as
    many lines along the direction as a line has cells (rows and width for
    LEFT and RIGHT, columns and height for UP and DOWN), and raises
    IndexError otherwise; it never needs more iterations than its loops are
    given.  On a square grid it always returns. *)
Lemma slam_outcome d rnd gm :
  wf (grid gm) -> dir_in d DIRECTIONS = true ->
  exists gm',
    slam d rnd gm =
    if decide (ncols_of d (grid gm) <= nlines_of d (grid gm))
    then Ok tt gm' else Raise IndexError gm'.
Proof.
  intros Hwf Hd. unfold slam, _validate_direction. rewrite Hd. cbn [negb].
  erewrite bind_Ok by reflexivity.
  erewrite bind_Ok by (by apply params_of_direction).
  fold (params_for d (grid gm)).
  destruct (slam_moves_outcome_of d (grid gm) Hwf)
    as (g1 & Hrun1 & Hwf1 & _ & _).
  destruct (decide (ncols_of d (grid gm) <= nlines_of d (grid gm))).
  - erewrite bind_Ok by (by rewrite with_grid_unfold, Hrun1).
    destruct (place_random_returns rnd (with_cells gm g1) Hwf1)
      as (g2 & Hrun2 & Hwf2).
    erewrite bind_Ok by exact Hrun2.
    destruct (update_max_returns (with_cells (with_cells gm g1) g2) Hwf2)
      as (m & Hrun3).
    eexists. exact Hrun3.
  - erewrite bind_Raise by (by rewrite with_grid_unfold, Hrun1).
    by eexists.
Qed.


(** ** Grids that are not square *)

(** C1, at a failing input.  On a new game of width 2 and height 1, a slam
    to the LEFT raises IndexError: [_squash] counts the rows with the bound
    of the columns, so after row 0 it reads row 1, which is not on the
    grid. *)
Theorem slam_raises_IndexError_on_wide_grid (rnd : nat) :
  exists gm0,
    Game_init 2 1 2048 2 = inr gm0 /\
    dir_in LEFT DIRECTIONS = true /\
    slam LEFT rnd gm0 = Raise IndexError gm0.
Proof. eexists. repeat split; reflexivity. Qed.

(** C2, at a failing input.  On a game of width 2 and height 3 with tiles
    at (0, 0) and (2, 1), a slam to the LEFT completes and leaves row 2 as
    it was, [0 2], not squashed: [_squash] and [_combine] process the rows
    0 and 1 only, as many rows as a row has cells. *)
Theorem slam_skips_rows_of_tall_grid :
  (exists gm0, Game_init 2 3 2048 2 = inr gm0 /\
               start 5 0 gm0 = Ok tt tall_game) /\
  line LEFT (grid tall_game) 2 = [0; 2] /\
  slam LEFT 0 tall_game = Ok tt tall_game_slammed /\
  line LEFT (grid tall_game_slammed) 2 = [0; 2] /\
  ~ squashed LEFT (grid tall_game_slammed) 2.
Proof.
  split; [eexists; split; reflexivity|]. do 3 (split; [reflexivity|]).
  intros (n & Hn & Hfull & Hempty).
  change (ncols_of LEFT (grid tall_game_slammed)) with 2 in *.
  destruct (decide (n = 0)) as [->|Hne].
  - specialize (Hempty 1 ltac:(lia)). discriminate Hempty.
  - apply (Hfull 0); [lia|]. reflexivity.
Qed.

(** * Further properties of the code *)

(** ** Construction *)

Lemma lookup_const_range {A} (v : A) n k :
  0 <= k < n -> ((fun _ => v) <$> range n) !! Z.to_nat k = Some v.
Proof. intros Hk. by rewrite list_lookup_fmap, lookup_range. Qed.

Lemma makegrid_border w h v cells :
  _makegrid w h v = inr cells -> border_EDGE (mkGrid w h cells).
Proof.
  unfold _makegrid.
  destruct ((w <=? 0) || (h <=? 0)) eqn:E; [discriminate|].
  apply orb_false_elim in E as [Ew Eh].
  apply Z.leb_gt in Ew. apply Z.leb_gt in Eh.
  intros [= <-] j i (Hj & Hi & Hring). cbn [width height] in *.
  unfold raw. cbn [_grid].
  destruct (decide (j = 0)) as [->|Hj0].
  { replace (Z.to_nat 0) with 0%nat by lia. cbn [app].
    rewrite lookup_cons. cbv beta iota.
    by rewrite (lookup_const_range EDGE (w + 2) i) by lia. }
  replace (Z.to_nat j) with (Datatypes.S (Z.to_nat (j - 1))) by lia.
  cbn [app]. rewrite lookup_cons.
  destruct (decide (j = h + 1)) as [->|Hjh].
  { rewrite lookup_app_r by (rewrite length_fmap, length_range; lia).
    rewrite length_fmap, length_range.
    replace (Z.to_nat (h + 1 - 1) - Z.to_nat h)%nat with 0%nat by lia.
    rewrite lookup_cons. cbv beta iota.
    by rewrite (lookup_const_range EDGE (w + 2) i) by lia. }
  rewrite lookup_app_l by (rewrite length_fmap, length_range; lia).
  rewrite (lookup_const_range _ h (j - 1)) by lia.
  destruct (decide (i = 0)) as [->|Hi0]; [done|].
  assert (i = w + 1) as -> by lia.
  replace (Z.to_nat (w + 1)) with (Datatypes.S (Z.to_nat w)) by lia.
  cbn [app]. rewrite lookup_cons.
  rewrite lookup_app_r by (rewrite length_fmap, length_range; lia).
  rewrite length_fmap, length_range.
  by replace (Z.to_nat w - Z.to_nat w)%nat with 0%nat by lia.
Qed.

Lemma Game_init_inv w h gl sp gm :
  Game_init w h gl sp = inr gm ->
  wf (grid gm) /\ width (grid gm) = w /\ height (grid gm) = h /\
  goal gm = gl /\ initial_value gm = sp /\ _max gm = 0 /\
  (forall j i, public (grid gm) j i -> cell (grid gm) j i = EMPTY) /\
  border_EDGE (grid gm).
Proof.
  unfold Game_init. destruct (Grid_init w h) as [|g] eqn:Hg; [discriminate|].
  intros [= <-]. cbn [grid goal initial_value _max].
  destruct (Grid_init_dims _ _ _ Hg) as [Hw Hh].
  split; [by eapply wf_Grid_init|]. do 5 (split; [done|]). split.
  - intros j i Hp. by eapply Grid_init_cell.
  - unfold Grid_init in Hg.
    destruct (_makegrid w h EMPTY) as [|cells] eqn:Hc; [discriminate|].
    injection Hg as <-. by eapply makegrid_border.
Qed.

(** X1.  The constructor fails with ValueError exactly when the width or
    the height is not positive; otherwise it builds a game on a
    well-shaped grid of that width and height whose public cells are all
    EMPTY and whose outer ring is all EDGE, with the given goal and spawn
    value and a best value of 0. *)
Theorem Game_init_spec (w h gl sp : Z) :
  (w <= 0 \/ h <= 0 -> Game_init w h gl sp = inl ValueError) /\
  (0 < w /\ 0 < h ->
   exists gm, Game_init w h gl sp = inr gm /\
     wf (grid gm) /\ width (grid gm) = w /\ height (grid gm) = h /\
     goal gm = gl /\ initial_value gm = sp /\ _max gm = 0 /\
     (forall j i, public (grid gm) j i -> cell (grid gm) j i = EMPTY) /\
     border_EDGE (grid gm)).
Proof.
  split.
  - intros Hbad. unfold Game_init, Grid_init, _makegrid.
    destruct ((w <=? 0) || (h <=? 0)) eqn:E; [done|].
    apply orb_false_elim in E as [Ew%Z.leb_gt Eh%Z.leb_gt]. lia.
  - intros [Hw Hh].
    destruct (Game_init w h gl sp) as [e|gm] eqn:E.
    + exfalso. unfold Game_init, Grid_init, _makegrid in E.
      destruct ((w <=? 0) || (h <=? 0)) eqn:E'; [|discriminate].
      apply orb_true_iff in E' as [?%Z.leb_le|?%Z.leb_le]; lia.
    + exists gm. split; [done|]. by apply Game_init_inv.
Qed.

Lemma Game_init_spec_witness :
  Game_init 0 3 2048 2 = inl ValueError /\
  exists gm, Game_init 2 2 2048 2 = inr gm /\
    wf (grid gm) /\ width (grid gm) = 2 /\ height (grid gm) = 2 /\
    goal gm = 2048 /\ initial_value gm = 2 /\ _max gm = 0 /\
    (forall j i, public (grid gm) j i -> cell (grid gm) j i = EMPTY) /\
    border_EDGE (grid gm).
Proof.
  split.
  - apply (Game_init_spec 0 3 2048 2). left. lia.
  - apply (Game_init_spec 2 2 2048 2). lia.
Defined.

(** ** Reading and writing cells *)

(** X2.  At public coordinates [set] returns the value it was given and
    stores it: the grid keeps its shape, a [get] at the same coordinates
    returns that value, and a [get] at any other public coordinates returns
    what it returned before. *)
Theorem set_get_round_trip (g : Grid) (j i v : Z) :
  wf g -> public g j i ->
  exists g',
    set j i v g = Ok v g' /\
    wf g' /\ width g' = width g /\ height g' = height g /\
    get j i g' = Ok v g' /\
    forall j' i' x, (j', i') <> (j, i) ->
                    get j' i' g = Ok x g -> get j' i' g' = Ok x g'.
Proof.
  intros Hwf Hp. exists (raw_set g (j + 1) (i + 1) v).
  destruct (raw_set_dims g (j + 1) (i + 1) v) as [Hw Hh].
  pose proof (wf_raw_set g (j + 1) (i + 1) v Hwf) as Hwf'.
  split; [by apply set_public|]. do 3 (split; [done|]).
  assert (public (raw_set g (j + 1) (i + 1) v) j i) as Hp'
      by (by apply public_raw_set).
  split.
  - rewrite get_public by done. rewrite cell_raw_set by done.
    by rewrite decide_True.
  - intros j' i' x Hne Hget.
    destruct (decide (public g j' i')) as [Hq|Hq].
    + rewrite get_public in Hget by done. injection Hget as <-.
      rewrite get_public; [|done|by apply public_raw_set].
      rewrite cell_raw_set by done.
      rewrite decide_False; [done|]. intros [-> ->]. done.
    + rewrite get_not_public in Hget by done. discriminate.
Qed.

Lemma set_get_round_trip_witness :
  exists g',
    set 0 1 8 (grid_2x2 2 0 0 4) = Ok 8 g' /\
    wf g' /\ width g' = 2 /\ height g' = 2 /\
    get 0 1 g' = Ok 8 g' /\
    forall j' i' x, (j', i') <> (0, 1) ->
                    get j' i' (grid_2x2 2 0 0 4) = Ok x (grid_2x2 2 0 0 4) ->
                    get j' i' g' = Ok x g'.
Proof.
  apply (set_get_round_trip (grid_2x2 2 0 0 4) 0 1 8 (wf_grid_2x2 2 0 0 4)).
  vm_compute. repeat split; discriminate.
Defined.

(** X3.  On a well-shaped grid [get] and [set] raise exactly when the
    coordinates are not public, that is outside [0, height) x [0, width);
    the exception is IndexError and the grid is left as it was. *)
Theorem get_set_bounds (g : Grid) (j i v : Z) :
  wf g ->
  (public g j i ->
   (exists x, get j i g = Ok x g) /\ (exists g', set j i v g = Ok v g')) /\
  (~ public g j i ->
   get j i g = Raise IndexError g /\ set j i v g = Raise IndexError g).
Proof.
  intros Hwf. split.
  - intros Hp. split.
    + exists (cell g j i). by apply get_public.
    + eexists. by apply set_public.
  - intros Hp. split; [by apply get_not_public|by apply set_not_public].
Qed.

Lemma get_set_bounds_witness :
  ((exists x, get 1 1 (grid_2x2 2 0 0 4) = Ok x (grid_2x2 2 0 0 4)) /\
   (exists g', set 1 1 8 (grid_2x2 2 0 0 4) = Ok 8 g')) /\
  (get 2 0 (grid_2x2 2 0 0 4) = Raise IndexError (grid_2x2 2 0 0 4) /\
   set 2 0 8 (grid_2x2 2 0 0 4) = Raise IndexError (grid_2x2 2 0 0 4)) /\
  (get 0 (-1) (grid_2x2 2 0 0 4) = Raise IndexError (grid_2x2 2 0 0 4) /\
   set 0 (-1) 8 (grid_2x2 2 0 0 4) = Raise IndexError (grid_2x2 2 0 0 4)).
Proof.
  split; [|split].
  - apply (get_set_bounds (grid_2x2 2 0 0 4) 1 1 8 (wf_grid_2x2 2 0 0 4)).
    vm_compute. repeat split; discriminate.
  - apply (get_set_bounds (grid_2x2 2 0 0 4) 2 0 8 (wf_grid_2x2 2 0 0 4)).
    intros [Hj _]. simpl in Hj. lia.
  - apply (get_set_bounds (grid_2x2 2 0 0 4) 0 (-1) 8 (wf_grid_2x2 2 0 0 4)).
    intros [_ Hi]. lia.
Defined.

(** ** What a game keeps *)

Lemma border_cell g j i :
  wf g -> on_border g j i -> raw g j i = Some (cell g (j - 1) (i - 1)).
Proof.
  intros Hwf (Hj & Hi & _). unfold cell.
  replace (j - 1 + 1) with j by lia. replace (i - 1 + 1) with i by lia.
  by destruct (raw_is_Some g j i Hwf Hj Hi) as [x ->].
Qed.

Lemma border_raw_set g j i v :
  wf g -> public g j i -> border_EDGE g ->
  border_EDGE (raw_set g (j + 1) (i + 1) v).
Proof.
  intros Hwf [Hj Hi] Hb j' i' (Hj' & Hi' & Hring).
  destruct (raw_set_dims g (j + 1) (i + 1) v) as [Hw Hh].
  rewrite Hw, Hh in *.
  rewrite raw_raw_set by (try lia; apply raw_is_Some; auto; lia).
  rewrite decide_False by lia. by apply Hb.
Qed.

Lemma slam_moves_shape d g :
  wf g -> border_EDGE g ->
  wf (state_of (slam_moves (params_for d g) g)) /\
  width (state_of (slam_moves (params_for d g) g)) = width g /\
  height (state_of (slam_moves (params_for d g) g)) = height g /\
  border_EDGE (state_of (slam_moves (params_for d g) g)).
Proof.
  intros Hwf Hb.
  pose proof (slam_moves_by_steps d g Hwf) as Hsteps.
  set (g' := state_of (slam_moves (params_for d g) g)) in *.
  pose proof (steps_ok _ _ _ _ _ _ _ _ (ok_self g Hwf) Hsteps)
    as (Hwf' & Hw & Hh).
  do 3 (split; [done|]).
  intros j i Hring. assert (on_border g j i) as Hring0.
  { unfold on_border in *. by rewrite Hw, Hh in Hring. }
  rewrite border_cell by done.
  rewrite <- (Hb j i Hring0), (border_cell g j i Hwf Hring0). f_equal.
  destruct Hring0 as (Hj & Hi & Hnot).
  destruct (transposed d) eqn:Ht.
  - assert (~ inside (nlines_of d g) (ncols_of d g) (i - 1) (j - 1)) as Hout.
    { unfold inside, nlines_of, ncols_of. rewrite Ht. lia. }
    pose proof (steps_outside _ _ _ _ _ _ _ _ _ _ Hout Hsteps) as E.
    exact E.
  - assert (~ inside (nlines_of d g) (ncols_of d g) (j - 1) (i - 1)) as Hout.
    { unfold inside, nlines_of, ncols_of. rewrite Ht. lia. }
    pose proof (steps_outside _ _ _ _ _ _ _ _ _ _ Hout Hsteps) as E.
    exact E.
Qed.

Lemma update_max_spec gm :
  wf (grid gm) ->
  exists m,
    update_max gm = Ok tt (mkGame (grid gm) (initial_value gm) (goal gm) m)
    /\ max_of_cells (mkGame (grid gm) (initial_value gm) (goal gm) m).
Proof.
  intros Hwf.
  destruct (cell_values_spec (grid gm) Hwf) as (vs & Hvs & Hne & Hin).
  destruct (py_max_is_Some vs Hne) as [m Hm].
  destruct (py_max_spec vs m Hm) as [Hmem Hall].
  exists m. unfold update_max. rewrite Hvs, Hm. split; [done|].
  apply Hin in Hmem as (j & i & Hp & Hc). split.
  - by exists j, i.
  - intros j' i' Hp'. apply Hall, Hin. eauto.
Qed.

Lemma place_random_shaped w h gl sp rnd gm :
  shaped w h gl sp gm ->
  exists gm', _place_random rnd gm = Ok tt gm' /\
              shaped w h gl sp gm' /\ _max gm' = _max gm.
Proof.
  intros (Hwf & Hw & Hh & Hgl & Hsp & Hb).
  destruct (decide (available_cells (grid gm) = [])) as [E|Hne].
  - exists gm. by rewrite place_random_full.
  - destruct (place_random_some rnd gm Hwf Hne) as (j & i & Hp & _ & Hrun).
    eexists. split; [exact Hrun|]. split; [|done].
    destruct (raw_set_dims (grid gm) (j + 1) (i + 1) (initial_value gm))
      as [Hw' Hh'].
    unfold shaped. cbn [grid goal initial_value with_cells].
    rewrite Hw', Hh'. split; [by apply wf_raw_set|].
    do 4 (split; [done|]). by apply border_raw_set.
Qed.

(** One call of [slam] in a recognized direction, from start to end. *)
Lemma slam_run d rnd gm :
  wf (grid gm) -> border_EDGE (grid gm) -> dir_in d DIRECTIONS = true ->
  exists gm',
    slam d rnd gm =
    (if decide (ncols_of d (grid gm) <= nlines_of d (grid gm))
     then Ok tt gm' else Raise IndexError gm') /\
    shaped (width (grid gm)) (height (grid gm)) (goal gm) (initial_value gm)
           gm' /\
    (ncols_of d (grid gm) <= nlines_of d (grid gm) -> max_of_cells gm') /\
    (~ ncols_of d (grid gm) <= nlines_of d (grid gm) -> _max gm' = _max gm).
Proof.
  intros Hwf Hb Hd. unfold slam, _validate_direction. rewrite Hd. cbn [negb].
  erewrite bind_Ok by reflexivity.
  erewrite bind_Ok by (by apply params_of_direction).
  fold (params_for d (grid gm)).
  destruct (slam_moves_outcome_of d (grid gm) Hwf) as (g1 & Hrun1 & _).
  destruct (slam_moves_shape d (grid gm) Hwf Hb) as (Hwf1 & Hw1 & Hh1 & Hb1).
  assert (state_of (slam_moves (params_for d (grid gm)) (grid gm)) = g1)
    as Hg1 by (rewrite Hrun1; by case_decide).
  rewrite Hg1 in *. clear Hg1.
  assert (shaped (width (grid gm)) (height (grid gm)) (goal gm)
                 (initial_value gm) (with_cells gm g1)) as Hs1 by done.
  destruct (decide (ncols_of d (grid gm) <= nlines_of d (grid gm)))
    as [Hle|Hgt].
  - erewrite bind_Ok by (by rewrite with_grid_unfold, Hrun1).
    destruct (place_random_shaped _ _ _ _ rnd _ Hs1)
      as (gm2 & Hrun2 & Hs2 & _).
    erewrite bind_Ok by exact Hrun2.
    destruct Hs2 as (Hwf2 & Hw2 & Hh2 & Hgl2 & Hsp2 & Hb2).
    destruct (update_max_spec gm2 Hwf2) as (m & Hrun3 & Hmax).
    eexists. split; [exact Hrun3|].
    split; [exact (conj Hwf2 (conj Hw2 (conj Hh2 (conj Hgl2 (conj Hsp2 Hb2)))))|].
    split; [done|]. intros Hno. contradiction.
  - erewrite bind_Raise by (by rewrite with_grid_unfold, Hrun1).
    eexists. split; [done|]. split; [done|]. split; [|done].
    intros Hle. contradiction.
Qed.

Lemma slam_shaped w h gl sp d rnd gm :
  shaped w h gl sp gm -> shaped w h gl sp (state_of (slam d rnd gm)).
Proof.
  intros Hs. destruct (dir_in d DIRECTIONS) eqn:Hd.
  - destruct Hs as (Hwf & Hw & Hh & Hgl & Hsp & Hb).
    destruct (slam_run d rnd gm Hwf Hb Hd) as (gm' & Hrun & Hs' & _).
    rewrite Hrun. subst. by case_decide.
  - unfold slam, _validate_direction. rewrite Hd. cbn [negb].
    by erewrite bind_Raise by reflexivity.
Qed.

Lemma start_shaped w h gl sp r1 r2 gm :
  shaped w h gl sp gm -> shaped w h gl sp (state_of (start r1 r2 gm)).
Proof.
  intros Hs. unfold start.
  destruct (place_random_shaped _ _ _ _ r1 _ Hs) as (gm1 & Hrun1 & Hs1 & _).
  erewrite bind_Ok by exact Hrun1.
  destruct (place_random_shaped _ _ _ _ r2 _ Hs1) as (gm2 & Hrun2 & Hs2 & _).
  by rewrite Hrun2.
Qed.

(** What later proofs need of a state of a game. *)
Lemma reachable_shape w h gl sp gm :
  reachable w h gl sp gm ->
  wf (grid gm) /\ width (grid gm) = w /\ height (grid gm) = h /\
  goal gm = gl /\ initial_value gm = sp /\ border_EDGE (grid gm).
Proof.
  induction 1 as [gm Hinit|gm r1 r2 _ IH|gm d rnd _ IH].
  - destruct (Game_init_inv _ _ _ _ _ Hinit)
      as (Hwf & Hw & Hh & Hgl & Hsp & _ & _ & Hb).
    exact (conj Hwf (conj Hw (conj Hh (conj Hgl (conj Hsp Hb))))).
  - by apply (start_shaped w h gl sp).
  - by apply (slam_shaped w h gl sp).
Qed.

(** X4.  Every state of a game, after any calls of [start] and [slam]
    whether they returned or raised and whatever the spawn value, has a
    well-shaped grid of the width and height given to the constructor,
    whose outer ring is all EDGE, and the goal and spawn value given to the
    constructor. *)
Theorem reachable_shaped (w h gl sp : Z) (gm : Game) :
  reachable w h gl sp gm -> shaped w h gl sp gm.
Proof.
  induction 1 as [gm Hinit|gm r1 r2 _ IH|gm d rnd _ IH].
  - destruct (Game_init_inv _ _ _ _ _ Hinit)
      as (Hwf & Hw & Hh & Hgl & Hsp & _ & _ & Hb).
    exact (conj Hwf (conj Hw (conj Hh (conj Hgl (conj Hsp Hb))))).
  - by apply start_shaped.
  - by apply slam_shaped.
Qed.

Lemma reachable_shaped_witness :
  shaped 2 1 2048 (-3)
    (state_of (slam LEFT 1 (state_of (start 0 0
       (mkGame (mkGrid 2 1 [[-1; -1; -1; -1]; [-1; 0; 0; -1];
                            [-1; -1; -1; -1]]) (-3) 2048 0))))).
Proof.
  apply reachable_shaped. apply reach_slam, reach_start, reach_init.
  reflexivity.
Defined.

(** ** The end of a slam *)

(** X5.  A slam in a recognized direction on a well-shaped grid always
    ends, within the iterations its loops are given: it returns when the
    grid has at least as many lines along the direction as a line has cells
    (height >= width for LEFT and RIGHT, width >= height for UP and DOWN),
    and raises IndexError when it has fewer. *)
Theorem slam_returns_or_raises (gm : Game) (d : direction) (rnd : nat) :
  wf (grid gm) -> dir_in d DIRECTIONS = true ->
  (ncols_of d (grid gm) <= nlines_of d (grid gm) ->
   exists gm', slam d rnd gm = Ok tt gm') /\
  (nlines_of d (grid gm) < ncols_of d (grid gm) ->
   exists gm', slam d rnd gm = Raise IndexError gm').
Proof.
  intros Hwf Hd. destruct (slam_outcome d rnd gm Hwf Hd) as [gm' Hrun].
  split; intros Hcmp; exists gm'; rewrite Hrun.
  - by rewrite decide_True.
  - by rewrite decide_False by lia.
Qed.

Lemma slam_returns_or_raises_witness :
  (exists gm', slam UP 0 (game_on (grid_2x2 2 2 0 4) 2) = Ok tt gm') /\
  (exists gm', slam RIGHT 0 tall_game = Ok tt gm') /\
  (exists gm', slam DOWN 0 tall_game = Raise IndexError gm').
Proof.
  split; [|split].
  - apply (slam_returns_or_raises (game_on (grid_2x2 2 2 0 4) 2) UP 0
             (wf_grid_2x2 2 2 0 4) eq_refl).
    vm_compute. discriminate.
  - apply (slam_returns_or_raises tall_game RIGHT 0).
    + unfold wf; simpl. repeat split; try lia. repeat constructor.
    + reflexivity.
    + vm_compute. discriminate.
  - apply (slam_returns_or_raises tall_game DOWN 0).
    + unfold wf; simpl. repeat split; try lia. repeat constructor.
    + reflexivity.
    + reflexivity.
Defined.

(** X6.  After a slam that returned, in any state of a game and whatever
    the spawn value, the best value is the greatest value of a public
    cell, and [goal_met] is true exactly when some public cell holds at
    least the goal. *)
Theorem goal_met_after_slam (w h gl sp : Z) (gm gm' : Game) (d : direction)
    (rnd : nat) :
  reachable w h gl sp gm ->
  slam d rnd gm = Ok tt gm' ->
  max_of_cells gm' /\
  (goal_met gm' = true <->
   exists j i, public (grid gm') j i /\ gl <= cell (grid gm') j i).
Proof.
  intros (Hwf & _ & _ & Hgl & _ & Hb)%reachable_shape Hrun.
  destruct (dir_in d DIRECTIONS) eqn:Hd; cycle 1.
  { unfold slam, _validate_direction in Hrun. rewrite Hd in Hrun.
    cbn [negb] in Hrun. by erewrite bind_Raise in Hrun by reflexivity. }
  destruct (slam_run d rnd gm Hwf Hb Hd) as (gm1 & Hrun1 & Hs1 & Hmax & _).
  rewrite Hrun in Hrun1.
  destruct (decide (ncols_of d (grid gm) <= nlines_of d (grid gm)))
    as [Hle|]; [|discriminate].
  injection Hrun1 as ->. specialize (Hmax Hle).
  split; [done|].
  destruct Hs1 as (_ & _ & _ & Hgl1 & _). rewrite Hgl in Hgl1.
  destruct Hmax as [(j & i & Hp & Hc) Hall].
  unfold goal_met. rewrite Hgl1, Z.geb_le. split.
  - intros Hge. exists j, i. split; [done|lia].
  - intros (j' & i' & Hp' & Hge). specialize (Hall j' i' Hp'). lia.
Qed.

Lemma goal_met_after_slam_witness :
  let gm := state_of (start 0 0
              (mkGame (grid_2x2 0 0 0 0) (-2) (-3) 0)) in
  let gm' := state_of (slam LEFT 0 gm) in
  max_of_cells gm' /\
  (goal_met gm' = true <->
   exists j i, public (grid gm') j i /\ -3 <= cell (grid gm') j i).
Proof.
  intros gm gm'.
  apply (goal_met_after_slam 2 2 (-3) (-2) gm gm' LEFT 0).
  - apply reach_start, reach_init. reflexivity.
  - reflexivity.
Defined.

(** ** Moves that are left *)

Lemma any_m_spec {S A} (l : list A) (p : A -> M S bool) (s : S)
    (Q : A -> Prop) :
  (forall x, x ∈ l -> exists b, p x s = Ok b s /\ (b = true <-> Q x)) ->
  exists b, any_m l p s = Ok b s /\ (b = true <-> exists x, x ∈ l /\ Q x).
Proof.
  induction l as [|x l IH]; intros Hp; cbn [any_m].
  - exists false. split; [done|]. split; [done|].
    by intros (x & ?%elem_of_nil & _).
  - destruct (Hp x) as (b & Hb & HQ); [by left|].
    unfold bind. rewrite Hb. destruct b.
    + exists true. split; [done|]. split; [|done].
      intros _. exists x. split; [by left|by apply HQ].
    + destruct IH as (b' & Hb' & HQ').
      { intros y Hy. apply Hp. by right. }
      exists b'. split; [done|]. rewrite HQ'. split.
      * intros (y & Hy & HQy). exists y. split; [by right|done].
      * intros (y & [->|Hy]%elem_of_cons & HQy); [|by exists y].
        apply HQ in HQy. discriminate.
Qed.

Lemma elem_of_neighbors g j i ds (n : Z * Z) :
  n ∈ neighbors g j i ds <->
  exists d, d ∈ ds /\ n = (j + fst d, i + snd d) /\ public g (fst n) (snd n).
Proof.
  unfold neighbors, _to_grid_indices. rewrite list_elem_of_fmap. split.
  - intros ([nj ni] & -> & [Hon Hin]%list_elem_of_filter).
    apply list_elem_of_fmap in Hin as ([dj di] & Hn & Hd).
    unfold _apply_dir in Hn. injection Hn as -> ->.
    exists (dj, di). split; [done|]. cbn [fst snd] in *.
    unfold _to_view_indices. split; [f_equal; lia|].
    apply on_grid_public. cbn [fst snd].
    by replace (j + 1 + dj - 1 + 1) with (j + 1 + dj) by lia;
       replace (i + 1 + di - 1 + 1) with (i + 1 + di) by lia.
  - intros ([dj di] & Hd & -> & Hp). cbn [fst snd] in *.
    exists (j + dj + 1, i + di + 1). split.
    + unfold _to_view_indices. cbn [fst snd]. f_equal; lia.
    + apply list_elem_of_filter. split.
      * cbn [fst snd]. by apply on_grid_public.
      * apply list_elem_of_fmap. exists (dj, di). split; [|done].
        unfold _apply_dir. f_equal; lia.
Qed.

Lemma position_can_move_spec g j i ds :
  wf g -> public g j i ->
  exists b, _position_can_move j i ds g = Ok b g /\
    (b = true <->
     exists d, d ∈ ds /\ public g (j + fst d) (i + snd d) /\
               (cell g (j + fst d) (i + snd d) = EMPTY \/
                cell g (j + fst d) (i + snd d) = cell g j i)).
Proof.
  intros Hwf Hp. unfold _position_can_move, bind, reads.
  rewrite get_public by done. unfold id.
  destruct (any_m_spec (neighbors g j i ds)
              (fun n => neighbor_value <- get (fst n) (snd n) ;;
                        ret ((neighbor_value =? EMPTY)
                             || (neighbor_value =? cell g j i))) g
              (fun n => cell g (fst n) (snd n) = EMPTY \/
                        cell g (fst n) (snd n) = cell g j i))
    as (b & Hb & HQ).
  { intros n Hn. apply neighbors_public in Hn.
    unfold bind. rewrite get_public by done. eexists. split; [done|].
    rewrite orb_true_iff, !Z.eqb_eq. done. }
  exists b. split; [exact Hb|]. rewrite HQ. split.
  - intros (n & (d & Hd & -> & Hpn)%elem_of_neighbors & Hc).
    exists d. by cbn [fst snd] in *.
  - intros (d & Hd & Hpd & Hc). exists (j + fst d, i + snd d).
    split; [|done]. apply elem_of_neighbors. exists d. by cbn [fst snd].
Qed.

Lemma any_can_move_grid_spec ds g :
  wf g ->
  exists b,
    (g0 <- reads id ;;
     any_m (range (width g0))
       (fun i => any_m (range (height g0))
          (fun j => v <- get j i ;;
                    if v =? EMPTY then ret true
                    else _position_can_move j i ds))) g = Ok b g /\
    (b = true <-> exists j i, public g j i /\ can_move_at g ds j i).
Proof.
  intros Hwf. unfold bind at 1, reads, id.
  destruct (any_m_spec (range (width g))
              (fun i => any_m (range (height g))
                 (fun j => v <- get j i ;;
                           if v =? EMPTY then ret true
                           else _position_can_move j i ds)) g
              (fun i => exists j, public g j i /\ can_move_at g ds j i))
    as (b & Hb & HQ).
  { intros i Hi%elem_of_range.
    destruct (any_m_spec (range (height g))
                (fun j => v <- get j i ;;
                          if v =? EMPTY then ret true
                          else _position_can_move j i ds) g
                (fun j => can_move_at g ds j i)) as (b & Hb & HQ).
    { intros j Hj%elem_of_range. assert (public g j i) as Hp by done.
      unfold bind. rewrite get_public by done. unfold can_move_at.
      destruct (cell g j i =? EMPTY) eqn:E.
      - apply Z.eqb_eq in E. exists true. split; [done|]. split; auto.
      - apply Z.eqb_neq in E.
        destruct (position_can_move_spec g j i ds Hwf Hp) as (b & Hb & HQ).
        exists b. split; [done|]. rewrite HQ. split; [by right|].
        by intros [?|?]. }
    exists b. split; [done|]. rewrite HQ. split.
    - intros (j & Hj%elem_of_range & Hc). exists j. by split.
    - intros (j & [Hj _] & Hc). exists j. split; [|done].
      by apply elem_of_range. }
  exists b. split; [done|]. rewrite HQ. split.
  - intros (i & _ & j & Hp & Hc). by exists j, i.
  - intros (j & i & Hp & Hc). exists i. split.
    + apply elem_of_range. apply Hp.
    + by exists j.
Qed.

(** X7.  On a well-shaped grid [any_can_move] returns, leaves the game as
    it is, and answers true exactly when some public cell is EMPTY or has,
    in one of the given directions, a public neighbor that is EMPTY or holds
    the same value. *)
Theorem any_can_move_spec (ds : list direction) (gm : Game) :
  wf (grid gm) ->
  exists b, any_can_move ds gm = Ok b gm /\
    (b = true <->
     exists j i, public (grid gm) j i /\ can_move_at (grid gm) ds j i).
Proof.
  intros Hwf.
  destruct (any_can_move_grid_spec ds (grid gm) Hwf) as (b & Hb & HQ).
  exists b. split; [|done].
  unfold any_can_move. rewrite with_grid_unfold, Hb. by destruct gm.
Qed.

Lemma any_can_move_spec_witness :
  any_can_move DIRECTIONS (game_on (grid_2x2 2 4 2 8) 2)
  = Ok true (game_on (grid_2x2 2 4 2 8) 2) /\
  any_can_move [LEFT; RIGHT] (game_on (grid_2x2 2 4 2 8) 2)
  = Ok false (game_on (grid_2x2 2 4 2 8) 2) /\
  exists b, any_can_move DIRECTIONS (game_on (grid_2x2 2 4 2 8) 2)
            = Ok b (game_on (grid_2x2 2 4 2 8) 2) /\
    (b = true <->
     exists j i, public (grid_2x2 2 4 2 8) j i /\
                 can_move_at (grid_2x2 2 4 2 8) DIRECTIONS j i).
Proof.
  split; [reflexivity|]. split; [reflexivity|].
  exact (any_can_move_spec DIRECTIONS (game_on (grid_2x2 2 4 2 8) 2)
           (wf_grid_2x2 2 4 2 8)).
Defined.

(** X8.  On a well-shaped grid [is_over] returns, leaves the game as it
    is, and answers true exactly when the goal is met or no public cell
    can move in any of the four directions. *)
Theorem is_over_spec (gm : Game) :
  wf (grid gm) ->
  exists b, is_over gm = Ok b gm /\
    (b = true <->
     goal_met gm = true \/
     ~ exists j i, public (grid gm) j i /\
                   can_move_at (grid gm) DIRECTIONS j i).
Proof.
  intros Hwf. unfold is_over. destruct (goal_met gm) eqn:Hgoal.
  - exists true. split; [done|]. split; auto.
  - destruct (any_can_move_grid_spec DIRECTIONS (grid gm) Hwf)
      as (b & Hg & HQ).
    assert (any_can_move DIRECTIONS gm = Ok b gm) as Hb.
    { unfold any_can_move. rewrite with_grid_unfold, Hg. by destruct gm. }
    exists (negb b). unfold bind. rewrite Hb. split; [done|].
    rewrite negb_true_iff. split.
    + intros ->. right. intros Hex. apply HQ in Hex. discriminate.
    + intros [?|Hno]; [discriminate|].
      destruct b; [|done]. exfalso. apply Hno. by apply HQ.
Qed.

Lemma is_over_spec_witness :
  is_over (game_on (grid_2x2 2 4 8 16) 2)
  = Ok true (game_on (grid_2x2 2 4 8 16) 2) /\
  is_over (game_on (grid_2x2 2 4 2 8) 2)
  = Ok false (game_on (grid_2x2 2 4 2 8) 2) /\
  exists b, is_over (game_on (grid_2x2 2 4 8 16) 2)
            = Ok b (game_on (grid_2x2 2 4 8 16) 2) /\
    (b = true <->
     goal_met (game_on (grid_2x2 2 4 8 16) 2) = true \/
     ~ exists j i, public (grid_2x2 2 4 8 16) j i /\
                   can_move_at (grid_2x2 2 4 8 16) DIRECTIONS j i).
Proof.
  split; [reflexivity|]. split; [reflexivity|].
  exact (is_over_spec (game_on (grid_2x2 2 4 8 16) 2)
           (wf_grid_2x2 2 4 8 16)).
Defined.

(** ** The sequences of a grid, in order *)

Lemma range2_shift n : range2 1 (n + 1) = Z.add 1 <$> range n.
Proof.
  unfold range2, range. rewrite fmap_add_seqZ.
  by replace (n + 1 - 1) with n by lia.
Qed.

Lemma join_fmap_coords {B} (f : Z -> Z -> B) (l1 l2 : list Z) :
  mjoin ((fun j => (fun i => f j i) <$> l2) <$> l1)
  = (fun p => f (fst p) (snd p)) <$> (j ← l1; i ← l2; [(j, i)]).
Proof.
  induction l1 as [|j l1 IH]; [done|].
  rewrite fmap_cons, bind_cons, fmap_app, <- IH. cbn [mjoin list_join].
  f_equal. clear IH. induction l2 as [|i l2 IH2]; [done|].
  rewrite fmap_cons, bind_cons, fmap_app, <- IH2. done.
Qed.

Lemma coords_shift (l1 l2 : list Z) :
  (j ← Z.add 1 <$> l1; i ← Z.add 1 <$> l2; [(j, i)])
  = (fun p => (fst p + 1, snd p + 1)) <$> (j ← l1; i ← l2; [(j, i)]).
Proof.
  induction l1 as [|j l1 IH]; [done|].
  rewrite fmap_cons, !bind_cons, fmap_app, <- IH. f_equal. clear IH.
  induction l2 as [|i l2 IH2]; [done|].
  rewrite fmap_cons, !bind_cons, fmap_app, <- IH2. cbn [app fmap list_fmap].
  do 2 f_equal; cbn [fst snd]; lia.
Qed.

Lemma length_coords (l1 l2 : list Z) :
  length (j ← l1; i ← l2; [(j, i)]) = (length l1 * length l2)%nat.
Proof.
  induction l1 as [|j l1 IH]; [done|].
  rewrite bind_cons, length_app, IH. cbn [length Nat.mul]. f_equal.
  clear IH. induction l2 as [|i l2 IH2]; [done|].
  rewrite bind_cons, length_app, IH2. done.
Qed.

Lemma elem_of_public_coords g j i :
  (j, i) ∈ public_coords g <-> public g j i.
Proof.
  unfold public_coords, public. rewrite list_elem_of_bind. split.
  - intros (j' & Hin & Hj%elem_of_range).
    apply list_elem_of_bind in Hin as (i' & Hin & Hi%elem_of_range).
    apply list_elem_of_singleton in Hin as [= -> ->]. done.
  - intros [Hj Hi]. exists j. split; [|by apply elem_of_range].
    apply list_elem_of_bind. exists i.
    split; [by apply list_elem_of_singleton|by apply elem_of_range].
Qed.

Lemma NoDup_public_coords g : NoDup (public_coords g).
Proof.
  unfold public_coords, range. apply NoDup_bind; [| |apply NoDup_seqZ].
  - intros j1 j2 [j i] _ _ (i1 & H1 & _)%list_elem_of_bind
      (i2 & H2 & _)%list_elem_of_bind.
    apply list_elem_of_singleton in H1, H2. congruence.
  - intros j _. apply NoDup_bind; [| |apply NoDup_seqZ].
    + intros i1 i2 p _ _ H1%list_elem_of_singleton H2%list_elem_of_singleton.
      congruence.
    + intros i _. apply NoDup_singleton.
Qed.

Lemma length_public_coords g :
  wf g -> length (public_coords g) = Z.to_nat (width g * height g).
Proof.
  intros (Hw & Hh & _). unfold public_coords.
  rewrite length_coords, !length_range. lia.
Qed.

Lemma cell_indices_coords g :
  _cell_indices g = (fun p => (fst p + 1, snd p + 1)) <$> public_coords g.
Proof.
  unfold _cell_indices, public_coords. rewrite !range2_shift.
  apply coords_shift.
Qed.

Lemma filter_fmap {A B} (f : A -> B) (P : B -> Prop)
    `{!forall y, Decision (P y)} (l : list A) :
  filter P (f <$> l) = f <$> filter (fun x => P (f x)) l.
Proof.
  induction l as [|x l IH]; [done|].
  rewrite fmap_cons, !filter_cons, IH. by case_decide.
Qed.

Lemma filter_ext_in {A} (P1 P2 : A -> Prop)
    `{!forall x, Decision (P1 x), !forall x, Decision (P2 x)} (l : list A) :
  (forall x, x ∈ l -> P1 x <-> P2 x) -> filter P1 l = filter P2 l.
Proof.
  induction l as [|x l IH]; intros Hext; [done|].
  rewrite !filter_cons, IH by (intros y Hy; apply Hext; by right).
  specialize (Hext x ltac:(by left)).
  repeat case_decide; tauto.
Qed.

(** X9.  On a well-shaped grid [cell_values] is the sequence of the values
    of the public cells in row-major order, one per public coordinate:
    width x height values. *)
Theorem cell_values_row_major (g : Grid) :
  wf g ->
  cell_values g
  = Some ((fun p => cell g (fst p) (snd p)) <$> public_coords g) /\
  length (public_coords g) = Z.to_nat (width g * height g).
Proof.
  intros Hwf. split; [|by apply length_public_coords].
  unfold cell_values, _rows. rewrite !range2_shift.
  rewrite <- !list_fmap_compose.
  assert (((fun j => (fun i => raw g j i) <$> (Z.add 1 <$> range (width g)))
           ∘ Z.add 1) <$> range (height g)
          = (fun j => (fun i => Some (cell g j i)) <$> range (width g))
              <$> range (height g)) as ->.
  { apply list_fmap_ext. intros _ j Hj%list_elem_of_lookup_2%elem_of_range.
    cbn. rewrite <- list_fmap_compose.
    apply list_fmap_ext. intros _ i Hi%list_elem_of_lookup_2%elem_of_range.
    cbn. rewrite <- raw_cell by done. f_equal; lia. }
  rewrite (join_fmap_coords (fun j i => Some (cell g j i))).
  fold (public_coords g).
  rewrite (list_fmap_compose (fun p => cell g (fst p) (snd p)) Some).
  by apply mapM_fmap_Some.
Qed.

Lemma cell_values_row_major_witness :
  cell_values (grid_2x2 2 4 8 16) = Some [2; 4; 8; 16] /\
  length (public_coords (grid_2x2 2 4 8 16)) = 4%nat.
Proof.
  destruct (cell_values_row_major (grid_2x2 2 4 8 16)
              (wf_grid_2x2 2 4 8 16)) as [Hv Hl].
  split; [rewrite Hv; reflexivity|exact Hl].
Defined.

Lemma available_cells_filter g :
  wf g ->
  available_cells g
  = filter (fun p => cell g (fst p) (snd p) = EMPTY) (public_coords g).
Proof.
  intros Hwf. unfold available_cells.
  rewrite cell_indices_coords, filter_fmap, <- list_fmap_compose.
  rewrite (filter_ext_in _ (fun p => cell g (fst p) (snd p) = EMPTY)).
  - rewrite <- (list_fmap_id (filter _ _)) at 2.
    apply list_fmap_ext. intros _ [j i] _. cbn.
    unfold _to_view_indices. f_equal; lia.
  - intros [j i] Hp%elem_of_public_coords. cbn [fst snd].
    rewrite raw_cell by done. split; congruence.
Qed.

Lemma occupied_cells_filter g :
  wf g ->
  occupied_cells g
  = filter (fun p => cell g (fst p) (snd p) <> EMPTY
                     /\ cell g (fst p) (snd p) <> EDGE) (public_coords g).
Proof.
  intros Hwf. unfold occupied_cells.
  rewrite cell_indices_coords, filter_fmap, <- list_fmap_compose.
  rewrite (filter_ext_in _ (fun p => cell g (fst p) (snd p) <> EMPTY
                                     /\ cell g (fst p) (snd p) <> EDGE)).
  - rewrite <- (list_fmap_id (filter _ _)) at 2.
    apply list_fmap_ext. intros _ [j i] _. cbn.
    unfold _to_view_indices. f_equal; lia.
  - intros [j i] Hp%elem_of_public_coords. cbn [fst snd].
    rewrite raw_cell by done. split; intros [? ?]; split; congruence.
Qed.

(** X10.  On a well-shaped grid [available_cells] and [occupied_cells]
    list their coordinates in row-major order: they are the public
    coordinates, in that order, whose cell is EMPTY, and those whose cell
    is neither EMPTY nor EDGE. *)
Theorem available_occupied_row_major (g : Grid) :
  wf g ->
  available_cells g
  = filter (fun p => cell g (fst p) (snd p) = EMPTY) (public_coords g) /\
  occupied_cells g
  = filter (fun p => cell g (fst p) (snd p) <> EMPTY
                     /\ cell g (fst p) (snd p) <> EDGE) (public_coords g).
Proof.
  intros Hwf. split.
  - by apply available_cells_filter.
  - by apply occupied_cells_filter.
Qed.

Lemma available_occupied_row_major_witness :
  available_cells (grid_2x2 0 2 (-1) 0) = [(0, 0); (1, 1)] /\
  occupied_cells (grid_2x2 0 2 (-1) 0) = [(0, 1)].
Proof.
  destruct (available_occupied_row_major (grid_2x2 0 2 (-1) 0)
              (wf_grid_2x2 0 2 (-1) 0)) as [Ha Ho].
  split; [rewrite Ha|rewrite Ho]; reflexivity.
Defined.

(** ** Counting the empty cells *)

Lemma filter_all {A} (P : A -> Prop) `{!forall x, Decision (P x)}
    (l : list A) :
  (forall x, x ∈ l -> P x) -> filter P l = l.
Proof.
  induction l as [|x l IH]; intros HP; [done|].
  rewrite filter_cons, decide_True by (apply HP; by left).
  f_equal. apply IH. intros y Hy. apply HP. by right.
Qed.

Lemma length_filter_ne {A} `{EqDecision A} (x : A) (l : list A) :
  NoDup l -> x ∈ l ->
  length (filter (fun y => y <> x) l) = Nat.pred (length l).
Proof.
  induction 1 as [|y l Hy Hnd IH]; intros Hx; [by apply elem_of_nil in Hx|].
  rewrite filter_cons. apply elem_of_cons in Hx as [->|Hx].
  - rewrite decide_False by (by intros []). cbn [length Nat.pred].
    f_equal. apply filter_all. intros z Hz ->. done.
  - rewrite decide_True by (intros ->; done). cbn [length Nat.pred].
    rewrite IH by done. destruct l; [by apply elem_of_nil in Hx|done].
Qed.

Lemma public_coords_raw_set g j i v :
  public_coords (raw_set g j i v) = public_coords g.
Proof.
  unfold public_coords. by destruct (raw_set_dims g j i v) as [-> ->].
Qed.

Lemma available_after_set g j i v :
  wf g -> public g j i -> cell g j i = EMPTY -> v <> EMPTY ->
  available_cells (raw_set g (j + 1) (i + 1) v)
  = filter (fun p => p <> (j, i)) (available_cells g).
Proof.
  intros Hwf Hp Hc Hv.
  rewrite !available_cells_filter by (done || by apply wf_raw_set).
  rewrite public_coords_raw_set, list_filter_filter.
  apply filter_ext_in. intros [j' i'] _. cbn [fst snd].
  rewrite cell_raw_set by done. case_decide as Hd.
  - destruct Hd as [-> ->]. split; [done|]. by intros [[] _].
  - split; [|tauto]. intros Hc'. split; [|done]. intros [= -> ->]. tauto.
Qed.

(** What one random placement does, spelled out. *)
Lemma place_random_effect rnd gm :
  wf (grid gm) ->
  exists gm',
    _place_random rnd gm = Ok tt gm' /\
    wf (grid gm') /\ width (grid gm') = width (grid gm) /\
    height (grid gm') = height (grid gm) /\
    initial_value gm' = initial_value gm /\ _max gm' = _max gm /\
    (initial_value gm <> EMPTY ->
     length (available_cells (grid gm'))
     = Nat.pred (length (available_cells (grid gm)))) /\
    (forall j i, cell (grid gm') j i = cell (grid gm) j i \/
                 cell (grid gm') j i = initial_value gm).
Proof.
  intros Hwf.
  destruct (decide (available_cells (grid gm) = [])) as [E|Hne].
  - exists gm. rewrite place_random_full by done.
    do 6 (split; [done|]). split; [by rewrite E|]. by left.
  - destruct (place_random_some rnd gm Hwf Hne) as (j & i & Hp & Hc & Hrun).
    eexists. split; [exact Hrun|]. cbn [grid initial_value _max with_cells].
    destruct (raw_set_dims (grid gm) (j + 1) (i + 1) (initial_value gm))
      as [Hw Hh].
    split; [by apply wf_raw_set|]. do 4 (split; [done|]). split.
    + intros Hv. rewrite available_after_set by done.
      apply length_filter_ne; [apply NoDup_available_cells|].
      by apply elem_of_available_cells.
    + intros j' i'. rewrite cell_raw_set by done. case_decide; auto.
Qed.

(** X11.  A random placement of a spawn value other than EMPTY always
    returns and lowers the number of available cells by exactly one, unless
    there was none, in which case there is still none. *)
Theorem place_random_count (rnd : nat) (gm : Game) :
  wf (grid gm) -> initial_value gm <> EMPTY ->
  exists gm',
    _place_random rnd gm = Ok tt gm' /\
    length (available_cells (grid gm'))
    = Nat.pred (length (available_cells (grid gm))).
Proof.
  intros Hwf Hv.
  destruct (place_random_effect rnd gm Hwf)
    as (gm' & Hrun & _ & _ & _ & _ & _ & Hlen & _).
  exists gm'. split; [done|]. by apply Hlen.
Qed.

Lemma place_random_count_witness :
  exists gm',
    _place_random 5 (game_on (grid_2x2 0 2 0 0) 2) = Ok tt gm' /\
    length (available_cells (grid gm')) = 2%nat.
Proof.
  apply (place_random_count 5 (game_on (grid_2x2 0 2 0 0) 2)
           (wf_grid_2x2 0 2 0 0)).
  discriminate.
Defined.

(** X12.  On a new game whose spawn value is not EMPTY, [start] returns
    and leaves two cells fewer available than the width x height cells of
    the grid (none on a grid of one cell); every public cell is then EMPTY
    or holds the spawn value, and the best value is still 0. *)
Theorem start_places_two (w h gl sp : Z) (r1 r2 : nat) (gm : Game) :
  Game_init w h gl sp = inr gm -> sp <> EMPTY ->
  exists gm',
    start r1 r2 gm = Ok tt gm' /\
    length (available_cells (grid gm')) = (Z.to_nat (w * h) - 2)%nat /\
    (forall j i, public (grid gm') j i ->
                 cell (grid gm') j i = EMPTY \/ cell (grid gm') j i = sp) /\
    _max gm' = 0.
Proof.
  intros Hinit Hsp.
  destruct (Game_init_inv _ _ _ _ _ Hinit)
    as (Hwf & Hw & Hh & _ & Hiv & Hmax & Hempty & _).
  assert (length (available_cells (grid gm)) = Z.to_nat (w * h)) as Hlen0.
  { rewrite available_cells_filter by done.
    rewrite filter_all, length_public_coords by
      (done || intros [j i] Hp%elem_of_public_coords; by apply Hempty).
    by rewrite Hw, Hh. }
  destruct (place_random_effect r1 gm Hwf)
    as (gm1 & Hrun1 & Hwf1 & Hw1 & Hh1 & Hiv1 & Hmax1 & Hlen1 & Hc1).
  destruct (place_random_effect r2 gm1 Hwf1)
    as (gm2 & Hrun2 & Hwf2 & Hw2 & Hh2 & Hiv2 & Hmax2 & Hlen2 & Hc2).
  exists gm2. unfold start. erewrite bind_Ok by exact Hrun1.
  split; [done|]. split; [|split].
  - rewrite Hlen2, Hlen1, Hlen0 by congruence. lia.
  - intros j i Hp. assert (public (grid gm) j i) as Hp0.
    { unfold public in *. by rewrite <- Hw1, <- Hh1, <- Hw2, <- Hh2. }
    destruct (Hc2 j i) as [-> | ->]; [|right; congruence].
    destruct (Hc1 j i) as [-> | ->]; [|right; congruence].
    left. by apply Hempty.
  - congruence.
Qed.

Lemma start_places_two_witness :
  exists gm',
    start 3 7 (game_on (grid_2x2 0 0 0 0) 2) = Ok tt gm' /\
    length (available_cells (grid gm')) = 2%nat /\
    (forall j i, public (grid gm') j i ->
                 cell (grid gm') j i = EMPTY \/ cell (grid gm') j i = 2) /\
    _max gm' = 0.
Proof.
  apply (start_places_two 2 2 2048 2 3 7 (game_on (grid_2x2 0 0 0 0) 2)).
  - reflexivity.
  - discriminate.
Defined.

(** ** The order of the values in a squashed line *)

Lemma range_snoc k : 0 <= k -> range (k + 1) = range k ++ [k].
Proof.
  intros Hk. unfold range. rewrite seqZ_app by lia. by f_equal.
Qed.

Lemma range_split k n :
  0 <= k <= n -> range n = range k ++ seqZ k (n - k).
Proof.
  intros Hk. unfold range.
  replace n with (k + (n - k)) at 1 by lia. by rewrite seqZ_app by lia.
Qed.

Lemma fmap_const_replicate {A B} (f : A -> B) (v : B) (l : list A) :
  (forall x, x ∈ l -> f x = v) -> f <$> l = replicate (length l) v.
Proof.
  induction l as [|x l IH]; intros Hf; [done|].
  rewrite fmap_cons. cbn [length replicate].
  rewrite Hf by (by left). f_equal. apply IH. intros y Hy. apply Hf. by right.
Qed.

Lemma fmap_ext_in {A B} (f g : A -> B) (l : list A) :
  (forall x, x ∈ l -> f x = g x) -> f <$> l = g <$> l.
Proof.
  intros Hfg. apply list_fmap_ext. intros i x Hx. apply Hfg.
  by eapply list_elem_of_lookup_2.
Qed.

Section Slide.
Variables (W H nlines ncols : Z).
Variable get_ : Z -> Z -> M Grid Z.
Variable set_ : Z -> Z -> Z -> M Grid Z.
Variable rd : Grid -> Z -> Z -> Z.

Local Abbreviation ok := (ok W H).
Local Abbreviation inside := (inside nlines ncols).

Hypothesis get_inside : forall g r c,
  ok g -> inside r c -> get_ r c g = Ok (rd g r c) g.
Hypothesis get_outside : forall g r c,
  ok g -> ~ inside r c -> get_ r c g = Raise IndexError g.
Hypothesis set_inside : forall g r c v,
  ok g -> inside r c ->
  exists g', set_ r c v g = Ok v g' /\ ok g' /\
             forall r' c', rd g' r' c' = upd (rd g) r c v r' c'.

Variables (start delta : Z).
Hypothesis scan_dir :
  (start = 0 /\ delta = 1) \/ (start = ncols - 1 /\ delta = -1).
Hypothesis ncols_pos : 0 < ncols.
Hypothesis nlines_pos : 0 < nlines.

Local Abbreviation pos := (pos start delta).
Local Abbreviation line_nonneg := (line_nonneg ncols rd start delta).
Local Abbreviation squash_row := (squash_row ncols get_ set_ start delta).

(** The values of line [r] in scan order. *)
Local Abbreviation scan := (fun g r => (fun k => rd g r (pos k)) <$> range ncols).

(** The loop invariant: the cells before [kl] hold, in order, the
    non-empty values the scan has passed; the cells from [kl] up to [kc] are
    EMPTY; the cells from [kc] on are as they were. *)
Lemma squash_while_slides row (f0 : Z -> Z) :
  0 <= row < nlines ->
  (forall k, 0 <= k < ncols -> 0 <= f0 k) ->
  forall fuel kc kl g,
    ok g -> ncols <= Z.of_nat fuel + kc -> 0 <= kl <= kc -> kc <= ncols ->
    (fun k => rd g row (pos k)) <$> range kl
    = filter (fun v => v <> EMPTY) (f0 <$> range kc) ->
    (forall k, kl <= k < kc -> rd g row (pos k) = EMPTY) ->
    (forall k, kc <= k < ncols -> rd g row (pos k) = f0 k) ->
    exists g',
      squash_while fuel ncols delta get_ set_ row (pos kc) (pos kl) g
      = Ok tt g' /\ ok g' /\
      (fun k => rd g' row (pos k)) <$> range ncols
      = slide (f0 <$> range ncols) /\
      (forall r' c, r' <> row -> rd g' r' c = rd g r' c).
Proof.
  intros Hrow Hnn.
  induction fuel as [|fuel IH];
    intros kc kl g Hok Hfuel Hk Hkc Hfront Hgap Hrest;
    cbn [squash_while];
    rewrite (scan_cond ncols start delta scan_dir) by lia;
    case_bool_decide as Hlt; try lia.
  1, 3: (assert (kc = ncols) as -> by lia;
         exists g; split; [done|]; split; [done|]; split; [|done];
         unfold slide;
         rewrite (range_split kl ncols) at 1 by lia;
         rewrite fmap_app, Hfront; f_equal;
         rewrite (fmap_const_replicate _ EMPTY)
           by (intros k Hx%elem_of_seqZ; apply Hgap; lia);
         f_equal; rewrite <- Hfront, !length_fmap, length_seqZ, !length_range;
         lia).
  assert (inside row (pos kc) /\ inside row (pos kl)) as [Hic Hil].
  { split; apply (pos_inside nlines ncols start delta scan_dir); lia. }
  assert (Hstep : filter (fun v => v <> EMPTY) (f0 <$> range (kc + 1))
                  = filter (fun v => v <> EMPTY) (f0 <$> range kc)
                    ++ (if decide (f0 kc <> EMPTY) then [f0 kc] else [])).
  { rewrite range_snoc, fmap_app, filter_app by lia. f_equal. }
  assert (Hinj : forall k k', pos k = pos k' -> k = k')
    by (apply (pos_inj ncols start delta scan_dir)).
  unfold bind, ret. rewrite (get_inside g _ _ Hok Hil).
  destruct (rd g row (pos kl) =? EMPTY) eqn:Hle.
  - apply Z.eqb_eq in Hle. rewrite (get_inside g _ _ Hok Hic).
    destruct (rd g row (pos kc) >? 0) eqn:Hcv.
    + apply Z.gtb_lt in Hcv.
      destruct (set_inside g row (pos kl) (rd g row (pos kc)) Hok Hil)
        as (g1 & Hs1 & Hok1 & Hrd1).
      destruct (set_inside g1 row (pos kc) EMPTY Hok1 Hic)
        as (g2 & Hs2 & Hok2 & Hrd2).
      rewrite (get_inside g _ _ Hok Hic), Hs1, Hs2, !pos_next.
      assert (Hrd : forall r' c,
                 rd g2 r' c =
                 upd (upd (rd g) row (pos kl) (rd g row (pos kc)))
                     row (pos kc) EMPTY r' c).
      { intros r' c. rewrite Hrd2. unfold upd. by rewrite Hrd1. }
      assert (kl <> kc) by (intros ->; unfold EMPTY in *; lia).
      assert (rd g row (pos kc) = f0 kc) as Hv by (apply Hrest; lia).
      destruct (IH (kc + 1) (kl + 1) g2)
        as (g' & Hrun & Hok' & Hline & Hoth); auto; try lia.
      * rewrite Hstep, decide_True by (rewrite <- Hv; unfold EMPTY; lia).
        rewrite range_snoc, fmap_app, <- Hfront by lia. f_equal.
        -- apply fmap_ext_in. intros k Hx%elem_of_range.
           rewrite Hrd. unfold upd.
           rewrite !decide_False; [done|intros [_ ?%Hinj]; lia..].
        -- cbn. rewrite Hrd. unfold upd.
           rewrite decide_False by (intros [_ ?%Hinj]; lia).
           rewrite decide_True by done. by rewrite Hv.
      * intros k Hk'. rewrite Hrd. unfold upd.
        destruct (decide (k = kc)) as [->|Hne]; [by rewrite decide_True|].
        rewrite !decide_False; [|intros [_ ?%Hinj]; lia..].
        apply Hgap. lia.
      * intros k Hk'. rewrite Hrd. unfold upd.
        rewrite !decide_False; [|intros [_ ?%Hinj]; lia..].
        apply Hrest. lia.
      * exists g'. do 3 (split; [done|]). intros r' c Hr'.
        rewrite Hoth, Hrd by done. unfold upd.
        rewrite !decide_False; [done|intros [? _]..]; congruence.
    + rewrite Z.gtb_ltb in Hcv. apply Z.ltb_ge in Hcv.
      assert (f0 kc = EMPTY) as Hz.
      { rewrite <- (Hrest kc) by lia. specialize (Hnn kc ltac:(lia)).
        rewrite <- (Hrest kc) in Hnn by lia. unfold EMPTY. lia. }
      rewrite pos_next. apply IH; auto; try lia.
      * rewrite Hstep, decide_False by (rewrite Hz; tauto).
        by rewrite app_nil_r.
      * intros k Hk'. destruct (decide (k = kc)) as [->|].
        -- by rewrite Hrest by lia.
        -- apply Hgap. lia.
      * intros k Hk'. apply Hrest. lia.
  - apply Z.eqb_neq in Hle.
    assert (kl = kc) as ->.
    { destruct (decide (kl = kc)); [done|].
      exfalso. apply Hle, Hgap. lia. }
    rewrite !pos_next. apply IH; auto; try lia.
    + rewrite Hstep, decide_True by (by rewrite <- Hrest by lia).
      rewrite range_snoc, fmap_app, Hfront by lia. f_equal.
      cbn. by rewrite Hrest by lia.
    + intros k Hk'. apply Hrest. lia.
Qed.

Lemma squash_row_slides row g :
  ok g -> 0 <= row < nlines -> line_nonneg g row ->
  exists g',
    squash_row row g = Ok tt g' /\ ok g' /\
    scan g' row = slide (scan g row) /\
    (forall r' c, r' <> row -> rd g' r' c = rd g r' c).
Proof.
  intros Hok Hrow Hnn. unfold squash_row.
  pose proof (squash_while_slides row (fun k => rd g row (pos k)) Hrow Hnn
                (Z.to_nat ncols) 0 0 g Hok) as Hrun.
  rewrite pos_0 in Hrun. apply Hrun; try lia.
  done.
Qed.

(** The [for] loop slides every line it reaches; it ends with an IndexError
    when it runs past the last line of the frame. *)
Lemma squash_rows_slide (n : nat) :
  forall len a g,
    len = Z.of_nat n -> ok g -> 0 <= a <= nlines ->
    (forall r, a <= r < nlines -> line_nonneg g r) ->
    exists g',
      for_each (seqZ a len) squash_row g =
      (if decide (a + len <= nlines) then Ok tt g'
       else Raise IndexError g') /\
      ok g' /\
      (forall r, a <= r < a + len -> r < nlines ->
                 scan g' r = slide (scan g r)) /\
      (forall r c, ~ a <= r < a + len -> rd g' r c = rd g r c).
Proof.
  induction n as [|n IH]; intros len a g -> Hok Ha Hnn.
  - exists g. rewrite decide_True by lia.
    do 2 (split; [done|]). split; [intros; lia|done].
  - rewrite seqZ_cons by lia. cbn [for_each].
    destruct (decide (a < nlines)) as [Hlt|Hge].
    + destruct (squash_row_slides a g) as (g1 & Hrun & Hok1 & Hs1 & Hoth1);
        [done|lia|apply Hnn; lia|].
      erewrite bind_Ok; [|exact Hrun].
      destruct (IH (Z.pred (Z.of_nat (Datatypes.S n))) (Z.succ a) g1)
        as (g' & Hrun' & Hok' & Hs' & Hoth'); auto; try lia.
      { intros r Hr k Hk. rewrite Hoth1 by lia. apply Hnn; lia. }
      exists g'. split.
      { rewrite Hrun'. repeat case_decide; auto; lia. }
      split; [done|]. split.
      * intros r Hr Hr'. destruct (decide (r = a)) as [->|Hne].
        -- rewrite <- Hs1. apply fmap_ext_in. intros k _. apply Hoth'. lia.
        -- rewrite Hs' by lia. f_equal. apply fmap_ext_in.
           intros k _. by apply Hoth1.
      * intros r c Hr. rewrite Hoth' by lia. apply Hoth1. lia.
    + exists g.
      erewrite bind_Raise;
        [|apply (squash_row_outside W H nlines ncols get_ set_ get_outside
                   start delta scan_dir ncols_pos); [done|lia]].
      rewrite decide_False by lia.
      do 2 (split; [done|]). split; [intros; lia|done].
Qed.

Lemma squash_slides g :
  ok g -> (forall r, 0 <= r < nlines -> line_nonneg g r) ->
  exists g',
    state_of (_squash (mkParams start ncols delta get_ set_) g) = g' /\
    ok g' /\
    (forall r, 0 <= r < ncols -> r < nlines -> scan g' r = slide (scan g r)).
Proof.
  intros Hok Hnn.
  change (_squash (mkParams start ncols delta get_ set_))
    with (for_each (seqZ 0 ncols) squash_row).
  destruct (squash_rows_slide (Z.to_nat ncols) ncols 0 g)
    as (g' & Hrun & Hok' & Hs & _); [lia|done|lia|auto|].
  exists g'. rewrite Hrun. split; [by case_decide|]. split; [done|].
  intros r Hr Hr'. apply Hs; lia.
Qed.
End Slide.

Lemma scan_line_ext d g g' r :
  width g' = width g -> height g' = height g ->
  (fun k => view (transposed d) g' r (pos (start_of d g) (delta_of d) k))
    <$> range (ncols_of d g) = scan_line d g' r.
Proof.
  intros Hw Hh. unfold scan_line, scan_pos, start_of, ncols_of, pos.
  by rewrite Hw, Hh.
Qed.

Lemma squash_slides_of d g r :
  wf g -> public_nonneg g ->
  0 <= r < ncols_of d g -> r < nlines_of d g ->
  scan_line d (state_of (_squash (params_for d g) g)) r
  = slide (scan_line d g r).
Proof.
  intros Hwf Hnn Hr Hr'.
  destruct (squash_slides (width g) (height g) (nlines_of d g)
              (ncols_of d g) (frame_get (transposed d))
              (frame_set (transposed d)) (view (transposed d))
              (frame_get_inside (width g) (height g) (transposed d))
              (frame_get_outside (width g) (height g) (transposed d))
              (frame_set_inside (width g) (height g) (transposed d))
              (start_of d g) (delta_of d) (scan_of_direction d g)
              (ncols_of_pos d g Hwf) (nlines_of_pos d g Hwf) g
              (ok_self g Hwf)) as (g' & Hrun & (_ & Hw & Hh) & Hs).
  { intros r0 Hr0 k Hk.
    pose proof (pos_inside (nlines_of d g) (ncols_of d g) (start_of d g)
                  (delta_of d) (scan_of_direction d g) r0 k Hr0 Hk)
      as Hin%inside_public.
    unfold view. destruct (transposed d); by apply Hnn. }
  unfold params_for. rewrite Hrun.
  rewrite <- (scan_line_ext d g g' r Hw Hh), Hs by lia.
  reflexivity.
Qed.

(** X13. On a grid whose cells are EMPTY or positive, [_squash] slides the
    values of every line it reaches towards the edge the scan starts from
    and keeps their order: the line holds its non-empty values, as the scan
    met them, followed by EMPTY cells.  This holds in the state the pass
    ends in whether it returns or raises. *)
Theorem squash_keeps_order gm d p r :
  wf (grid gm) -> public_nonneg (grid gm) ->
  _get_params_for_direction d gm = Ok p gm ->
  0 <= r < ncols_of d (grid gm) -> r < nlines_of d (grid gm) ->
  scan_line d (state_of (_squash p (grid gm))) r
  = slide (scan_line d (grid gm) r).
Proof.
  intros Hwf Hnn [Hd ->]%params_inv Hr Hr'.
  pose proof (squash_slides_of d (grid gm) r Hwf Hnn Hr Hr') as Hs.
  by rewrite Hs.
Qed.

Lemma squash_keeps_order_witness :
  scan_line RIGHT
    (state_of (_squash (params_for RIGHT (grid_2x2 2 0 4 8))
                       (grid_2x2 2 0 4 8))) 0
  = slide (scan_line RIGHT (grid_2x2 2 0 4 8) 0).
Proof.
  apply (squash_keeps_order (game_on (grid_2x2 2 0 4 8) 2) RIGHT
           (params_for RIGHT (grid_2x2 2 0 4 8)) 0).
  - apply wf_grid_2x2.
  - intros j i Hp. revert Hp. unfold public, cell, raw. cbn.
    intros [Hj Hi].
    assert ((j = 0 \/ j = 1) /\ (i = 0 \/ i = 1)) as [[-> | ->] [-> | ->]]
      by lia; vm_compute; discriminate.
  - reflexivity.
  - vm_compute. split; [discriminate|reflexivity].
  - vm_compute. reflexivity.
Defined.

(** ** The three passes of a slam *)

(** X14. The three passes of a slam, squash, combine and squash again,
    keep the sum of every line along the direction, in whatever state they
    end: moving a tile and merging two equal tiles both leave the sum of
    their line as it was. *)
Theorem slam_moves_preserves_line_sums (gm : Game) (d : direction)
    (p : params) (r : Z) :
  wf (grid gm) ->
  _get_params_for_direction d gm = Ok p gm ->
  sumZ (line d (state_of (slam_moves p (grid gm))) r)
  = sumZ (line d (grid gm) r).
Proof.
  intros Hwf [Hd ->]%params_inv. set (g := grid gm) in *.
  pose proof (slam_moves_by_steps d g Hwf) as Hsteps.
  pose proof (steps_ok _ _ _ _ _ _ _ _ (ok_self g Hwf) Hsteps)
    as (_ & Hw & Hh).
  pose proof (steps_line_sum _ _ _ _ _ _ _ _ r Hsteps) as Hsum.
  unfold line, ncols_of. rewrite Hw, Hh. exact Hsum.
Qed.

(** The theorem at the rows [2 2] and [0 4] of a 2x2 grid, slammed to the
    left into [4 0] and [4 0]. *)
Lemma slam_moves_preserves_line_sums_witness :
  let g := grid_2x2 2 2 0 4 in
  slam_moves (params_for LEFT g) g = Ok tt (grid_2x2 4 0 4 0) /\
  sumZ (line LEFT (state_of (slam_moves (params_for LEFT g) g)) 0)
  = sumZ (line LEFT g 0).
Proof.
  intros g. split; [reflexivity|].
  apply (slam_moves_preserves_line_sums (game_on g 2) LEFT
           (params_for LEFT g) 0 (wf_grid_2x2 2 2 0 4) eq_refl).
Defined.

(** X15. The loops of the three passes run over as many lines as a line has
    cells: a line whose index is not below that number is left as it is,
    whatever it holds. *)
Theorem slam_moves_leaves_far_lines (gm : Game) (d : direction) (p : params)
    (r : Z) :
  wf (grid gm) ->
  _get_params_for_direction d gm = Ok p gm ->
  ncols_of d (grid gm) <= r ->
  line d (state_of (slam_moves p (grid gm))) r = line d (grid gm) r.
Proof.
  intros Hwf [Hd ->]%params_inv Hr. set (g := grid gm) in *.
  pose proof (slam_moves_by_steps d g Hwf) as Hsteps.
  pose proof (steps_ok _ _ _ _ _ _ _ _ (ok_self g Hwf) Hsteps)
    as (_ & Hw & Hh).
  unfold line, ncols_of. rewrite Hw, Hh. apply list_fmap_ext.
  intros _ c _.
  refine (steps_other_lines _ _ _ _ _ _ _ _ r c _ Hsteps).
  unfold looped. fold (ncols_of d g). lia.
Qed.

(** The theorem at the third row of the grid of width 2 and height 3. *)
Lemma slam_moves_leaves_far_lines_witness :
  line LEFT (state_of (slam_moves (params_for LEFT (grid tall_game))
                                  (grid tall_game))) 2
  = line LEFT (grid tall_game) 2.
Proof.
  apply (slam_moves_leaves_far_lines tall_game LEFT
           (params_for LEFT (grid tall_game)) 2).
  - vm_compute. repeat split; try discriminate. repeat constructor.
  - reflexivity.
  - vm_compute. discriminate.
Defined.

Section Passes.
Variables (W H nlines ncols : Z).
Variable get_ : Z -> Z -> M Grid Z.
Variable set_ : Z -> Z -> Z -> M Grid Z.
Variable rd : Grid -> Z -> Z -> Z.

Local Abbreviation ok := (ok W H).
Local Abbreviation inside := (inside nlines ncols).
Local Abbreviation nonneg := (nonneg nlines ncols rd).

Hypothesis get_inside : forall g r c,
  ok g -> inside r c -> get_ r c g = Ok (rd g r c) g.
Hypothesis get_outside : forall g r c,
  ok g -> ~ inside r c -> get_ r c g = Raise IndexError g.
Hypothesis set_inside : forall g r c v,
  ok g -> inside r c ->
  exists g', set_ r c v g = Ok v g' /\ ok g' /\
             forall r' c', rd g' r' c' = upd (rd g) r c v r' c'.

Variables (start delta : Z).
Hypothesis scan_dir :
  (start = 0 /\ delta = 1) \/ (start = ncols - 1 /\ delta = -1).
Hypothesis ncols_pos : 0 < ncols.
Hypothesis nlines_pos : 0 < nlines.

Local Abbreviation packed := (packed ncols rd start delta).
Local Abbreviation P := (mkParams start ncols delta get_ set_).

Lemma squash_packs g :
  ok g -> nonneg g ->
  exists g',
    _squash P g =
    (if decide (ncols <= nlines) then Ok tt g' else Raise IndexError g') /\
    ok g' /\ nonneg g' /\
    (forall r, 0 <= r < ncols -> r < nlines -> packed g' r).
Proof.
  intros Hok Hnn.
  pose proof (squash_steps W H nlines ncols get_ set_ rd get_inside
                get_outside set_inside start delta g Hok) as Hsteps.
  revert Hsteps.
  change (_squash P)
    with (for_each (seqZ 0 ncols) (squash_row ncols get_ set_ start delta)).
  destruct (squash_rows_pack W H nlines ncols get_ set_ rd get_inside
              get_outside set_inside start delta scan_dir ncols_pos
              (Z.to_nat ncols) ncols 0 g)
    as (g' & Hrun & Hok' & Hp & _); [lia|done|lia| |].
  { intros r Hr k Hk. apply Hnn.
    by apply (pos_inside nlines ncols start delta scan_dir). }
  rewrite Hrun, Z.add_0_l. intros Hsteps. exists g'.
  split; [done|]. split; [done|]. split.
  - apply (steps_nonneg W H nlines ncols rd (looped ncols) g g' Hnn).
    by destruct (decide (ncols <= nlines)).
  - intros r Hr Hr'. apply Hp; lia.
Qed.

(** In whatever state the three passes end, every line they have reached
    is squashed. *)
Lemma slam_moves_packs g r :
  ok g -> nonneg g -> 0 <= r < ncols -> r < nlines ->
  packed (state_of (slam_moves P g)) r.
Proof.
  intros Hok Hnn Hr Hr'. unfold slam_moves.
  destruct (squash_packs g Hok Hnn) as (g1 & Hrun1 & Hok1 & Hnn1 & Hp1).
  destruct (decide (ncols <= nlines)) as [Hle|Hgt].
  - erewrite bind_Ok by exact Hrun1.
    destruct (combine_returns W H nlines ncols get_ set_ rd get_inside
                set_inside start delta scan_dir ncols_pos g1 Hok1 Hle)
      as (g2 & Hrun2 & Hok2).
    assert (delta <> 0) as Hd by (destruct scan_dir as [[_ ->]|[_ ->]]; lia).
    pose proof (combine_steps W H nlines ncols get_ set_ rd get_inside
                  get_outside set_inside start delta Hd g1 Hok1) as Hsteps.
    rewrite Hrun2 in Hsteps. cbn [state_of] in Hsteps.
    erewrite bind_Ok by exact Hrun2.
    destruct (squash_packs g2 Hok2) as (g3 & Hrun3 & _ & _ & Hp3).
    { eapply steps_nonneg; [exact Hnn1|exact Hsteps]. }
    rewrite Hrun3, decide_True by done. by apply Hp3.
  - erewrite bind_Raise by exact Hrun1. by apply Hp1.
Qed.
End Passes.

(** X16. On a grid whose cells are EMPTY or positive, in whatever state the
    three passes of a slam end, every line they have reached is squashed:
    its non-empty values are packed against the edge the scan starts
    from. *)
Theorem slam_moves_squashes (gm : Game) (d : direction) (p : params)
    (r : Z) :
  wf (grid gm) -> public_nonneg (grid gm) ->
  _get_params_for_direction d gm = Ok p gm ->
  0 <= r < ncols_of d (grid gm) -> r < nlines_of d (grid gm) ->
  squashed d (state_of (slam_moves p (grid gm))) r.
Proof.
  intros Hwf Hnn [Hd ->]%params_inv Hr Hr'. set (g := grid gm) in *.
  pose proof (slam_moves_by_steps d g Hwf) as Hsteps.
  pose proof (steps_ok _ _ _ _ _ _ _ _ (ok_self g Hwf) Hsteps)
    as (_ & Hw & Hh).
  pose proof (slam_moves_packs (width g) (height g) (nlines_of d g)
                (ncols_of d g) (frame_get (transposed d))
                (frame_set (transposed d)) (view (transposed d))
                (frame_get_inside (width g) (height g) (transposed d))
                (frame_get_outside (width g) (height g) (transposed d))
                (frame_set_inside (width g) (height g) (transposed d))
                (start_of d g) (delta_of d) (scan_of_direction d g)
                (ncols_of_pos d g Hwf) (nlines_of_pos d g Hwf) g r
                (ok_self g Hwf)) as Hp.
  unfold squashed, scan_pos, start_of, ncols_of. rewrite Hw, Hh.
  apply Hp; [|done..].
  intros r0 c Hin%inside_public. unfold view.
  destruct (transposed d); by apply Hnn.
Qed.

(** The theorem at the rows [2 2] and [0 4] of a 2x2 grid, slammed to the
    right into [0 4] and [0 4]. *)
Lemma slam_moves_squashes_witness :
  squashed RIGHT
    (state_of (slam_moves (params_for RIGHT (grid_2x2 2 2 0 4))
                          (grid_2x2 2 2 0 4))) 1.
Proof.
  apply (slam_moves_squashes (game_on (grid_2x2 2 2 0 4) 2) RIGHT
           (params_for RIGHT (grid_2x2 2 2 0 4)) 1).
  - apply wf_grid_2x2.
  - intros j i Hp. revert Hp. unfold public, cell, raw. cbn.
    intros [Hj Hi].
    assert ((j = 0 \/ j = 1) /\ (i = 0 \/ i = 1)) as [[-> | ->] [-> | ->]]
      by lia; vm_compute; discriminate.
  - reflexivity.
  - vm_compute. split; [discriminate|reflexivity].
  - vm_compute. reflexivity.
Defined.

(** ** The command loop *)

Lemma get_dir_inv s d :
  get_dir s = Some d ->
  (s = "h" /\ d = LEFT) \/ (s = "j" /\ d = DOWN) \/
  (s = "k" /\ d = UP) \/ (s = "l" /\ d = RIGHT).
Proof.
  unfold get_dir, dirs. intros H.
  repeat (apply lookup_insert_Some in H as [[<- <-]|[? H]]; [tauto|]).
  apply lookup_singleton_Some in H as [<- <-]. tauto.
Qed.

Lemma get_dir_in_DIRECTIONS s d :
  get_dir s = Some d -> dir_in d DIRECTIONS = true.
Proof.
  intros [[_ ->] | [[_ ->] | [[_ ->] | [_ ->]]]]%get_dir_inv; reflexivity.
Qed.

(** X17.  The key bindings of the command line are the four directions a
    slam accepts: every direction [get_dir] answers passes
    [_validate_direction], every direction that passes it is bound to a key,
    and two keys are never bound to the same direction. *)
Theorem get_dir_recognized :
  (forall s d (gm : Game),
     get_dir s = Some d -> _validate_direction d gm = Ok tt gm)
  /\ (forall d (gm : Game), _validate_direction d gm = Ok tt gm ->
                            exists s, get_dir s = Some d)
  /\ (forall s s' d, get_dir s = Some d -> get_dir s' = Some d -> s = s').
Proof.
  split; [|split].
  - intros s d gm Hd%get_dir_in_DIRECTIONS.
    unfold _validate_direction. by rewrite Hd.
  - intros d gm Hv. unfold _validate_direction in Hv.
    destruct (dir_in d DIRECTIONS) eqn:Hd; [|discriminate].
    apply dir_in_DIRECTIONS in Hd as [-> | [-> | [-> | ->]]].
    + by exists "k".
    + by exists "l".
    + by exists "j".
    + by exists "h".
  - intros s s' d
      [[-> ->] | [[-> ->] | [[-> ->] | [-> ->]]]]%get_dir_inv
      [[-> E] | [[-> E] | [[-> E] | [-> E]]]]%get_dir_inv;
      done.
Qed.

Lemma get_dir_recognized_witness :
  get_dir "j" = Some DOWN /\
  _validate_direction DOWN (game_on (grid_2x2 0 0 0 0) 2)
  = Ok tt (game_on (grid_2x2 0 0 0 0) 2) /\
  get_dir "J" = None.
Proof.
  split; [reflexivity|]. split; [|reflexivity].
  apply (proj1 get_dir_recognized "j" DOWN). reflexivity.
Defined.








(** ** The values on the board *)

(** X20.  In every state of a game whose spawn value is not negative,
    after any calls of [start] and [slam] whether they returned or raised,
    [get] at public coordinates returns EMPTY or a positive value, never
    EDGE, and the best value is at most the value of some public cell. *)
Theorem reachable_cells_nonneg (w h gl sp : Z) (gm : Game) :
  0 <= sp -> reachable w h gl sp gm ->
  (forall j i, public (grid gm) j i ->
     exists v, get j i (grid gm) = Ok v (grid gm) /\ 0 <= v /\ v <> EDGE) /\
  (exists j i, public (grid gm) j i /\ _max gm <= cell (grid gm) j i).
Proof.
  intros Hsp Hreach.
  destruct (reachable_sound _ _ _ _ _ Hsp Hreach) as [(Hwf & Hnn & Hm) _].
  split; [|done].
  intros j i Hp. exists (cell (grid gm) j i).
  split; [by apply get_public|].
  specialize (Hnn j i Hp). unfold EDGE. lia.
Qed.

Lemma reachable_cells_nonneg_witness :
  (forall j i, public (grid (state_of (slam LEFT 1 (state_of (start 0 0
       (mkGame (mkGrid 2 1 [[-1; -1; -1; -1]; [-1; 0; 0; -1];
                            [-1; -1; -1; -1]]) 2 2048 0)))))) j i ->
     exists v, get j i (grid (state_of (slam LEFT 1 (state_of (start 0 0
       (mkGame (mkGrid 2 1 [[-1; -1; -1; -1]; [-1; 0; 0; -1];
                            [-1; -1; -1; -1]]) 2 2048 0))))))
               = Ok v (grid (state_of (slam LEFT 1 (state_of (start 0 0
       (mkGame (mkGrid 2 1 [[-1; -1; -1; -1]; [-1; 0; 0; -1];
                            [-1; -1; -1; -1]]) 2 2048 0))))))
               /\ 0 <= v /\ v <> EDGE) /\
  (exists j i, public (grid (state_of (slam LEFT 1 (state_of (start 0 0
       (mkGame (mkGrid 2 1 [[-1; -1; -1; -1]; [-1; 0; 0; -1];
                            [-1; -1; -1; -1]]) 2 2048 0)))))) j i /\
     _max (state_of (slam LEFT 1 (state_of (start 0 0
       (mkGame (mkGrid 2 1 [[-1; -1; -1; -1]; [-1; 0; 0; -1];
                            [-1; -1; -1; -1]]) 2 2048 0)))))
     <= cell (grid (state_of (slam LEFT 1 (state_of (start 0 0
       (mkGame (mkGrid 2 1 [[-1; -1; -1; -1]; [-1; 0; 0; -1];
                            [-1; -1; -1; -1]]) 2 2048 0)))))) j i).
Proof.
  apply (reachable_cells_nonneg 2 1 2048 2); [lia|].
  apply reach_slam, reach_start, reach_init. reflexivity.
Defined.

Lemma sumZ_cons x l : sumZ (x :: l) = x + sumZ l.
Proof. reflexivity. Qed.

Lemma sumZ_app l1 l2 : sumZ (l1 ++ l2) = sumZ l1 + sumZ l2.
Proof.
  unfold sumZ. induction l1 as [|x l1 IH]; cbn; [done|]. rewrite IH. lia.
Qed.

Lemma sumZ_fmap_add {A} (f g : A -> Z) (l : list A) :
  sumZ ((fun x => f x + g x) <$> l) = sumZ (f <$> l) + sumZ (g <$> l).
Proof.
  unfold sumZ. induction l as [|x l IH]; cbn; [done|]. rewrite IH. lia.
Qed.

Lemma sumZ_swap {A B} (f : A -> B -> Z) (la : list A) (lb : list B) :
  sumZ ((fun a => sumZ ((fun b => f a b) <$> lb)) <$> la)
  = sumZ ((fun b => sumZ ((fun a => f a b) <$> la)) <$> lb).
Proof.
  induction la as [|a la IH].
  - induction lb as [|b lb IH]; [done|].
    rewrite fmap_cons. unfold sumZ in *. cbn in *. by rewrite <- IH.
  - rewrite fmap_cons. unfold sumZ at 1. cbn [foldr]. fold sumZ.
    fold (sumZ ((fun a0 => sumZ ((fun b => f a0 b) <$> lb)) <$> la)).
    rewrite IH, <- sumZ_fmap_add. f_equal.
Qed.

Lemma sumZ_pairs (f : Z -> Z -> Z) (l1 l2 : list Z) :
  sumZ ((fun p => f (fst p) (snd p)) <$> (j ← l1; i ← l2; [(j, i)]))
  = sumZ ((fun j => sumZ ((fun i => f j i) <$> l2)) <$> l1).
Proof.
  induction l1 as [|j l1 IH]; [done|].
  cbn [mbind list_bind]. rewrite fmap_app, sumZ_app, IH, fmap_cons.
  rewrite sumZ_cons. f_equal. clear IH.
  induction l2 as [|i l2 IH2]; [done|].
  cbn [mbind list_bind app]. by rewrite !fmap_cons, !sumZ_cons, IH2.
Qed.

Lemma sumZ_fmap_change {A} `{EqDecision A} (f f' : A -> Z) (c : A) (v : Z)
    (l : list A) :
  NoDup l -> c ∈ l ->
  (forall x, f' x = if decide (c = x) then v else f x) ->
  sumZ (f' <$> l) = sumZ (f <$> l) + v - f c.
Proof.
  intros Hnd Hc Hf'. induction Hnd as [|x l Hx Hnd IH]; [by inversion Hc|].
  rewrite !fmap_cons, !sumZ_cons, Hf'. apply elem_of_cons in Hc as [->|Hc].
  - rewrite decide_True by done.
    assert (f' <$> l = f <$> l) as ->; [|lia].
    apply list_fmap_ext. intros k y Hy. rewrite Hf'.
    rewrite decide_False; [done|]. intros ->. apply Hx.
    by eapply list_elem_of_lookup_2.
  - rewrite decide_False by (by intros ->). rewrite IH by done. lia.
Qed.

(** The sum of the board is the sum of its lines, along any direction. *)
Lemma total_lines d g :
  total g = sumZ ((fun r => sumZ (line d g r)) <$> range (nlines_of d g)).
Proof.
  unfold total, public_coords. rewrite sumZ_pairs.
  unfold line, nlines_of, ncols_of, view. destruct (transposed d).
  - by rewrite sumZ_swap.
  - done.
Qed.

Lemma slam_moves_total d g :
  wf g -> total (state_of (slam_moves (params_for d g) g)) = total g.
Proof.
  intros Hwf.
  pose proof (slam_moves_by_steps d g Hwf) as Hsteps.
  pose proof (steps_ok _ _ _ _ _ _ _ _ (ok_self g Hwf) Hsteps)
    as (_ & Hw & Hh).
  rewrite !(total_lines d).
  replace (nlines_of d (state_of (slam_moves (params_for d g) g)))
    with (nlines_of d g) by (unfold nlines_of; by rewrite Hw, Hh).
  f_equal. apply list_fmap_ext. intros _ r _.
  pose proof (steps_line_sum _ _ _ _ _ _ _ _ r Hsteps) as Hsum.
  unfold line, ncols_of. rewrite Hw, Hh. exact Hsum.
Qed.

Lemma total_raw_set g j i v :
  wf g -> public g j i ->
  total (raw_set g (j + 1) (i + 1) v) = total g + v - cell g j i.
Proof.
  intros Hwf Hp. unfold total. rewrite public_coords_raw_set.
  apply (sumZ_fmap_change (fun p => cell g (fst p) (snd p)) _ (j, i) v).
  - apply NoDup_public_coords.
  - by apply elem_of_public_coords.
  - intros [j' i']. cbn [fst snd]. rewrite cell_raw_set by done.
    destruct (decide (j = j' /\ i = i')) as [[-> ->]|Hne].
    + by rewrite decide_True.
    + rewrite decide_False; [done|]. intros [= -> ->]. by apply Hne.
Qed.

Lemma place_random_total rnd gm :
  wf (grid gm) ->
  exists gm',
    _place_random rnd gm = Ok tt gm' /\ wf (grid gm') /\
    total (grid gm')
    = total (grid gm)
      + (if decide (available_cells (grid gm) = []) then 0
         else initial_value gm).
Proof.
  intros Hwf.
  destruct (decide (available_cells (grid gm) = [])) as [E|Hne].
  - exists gm. rewrite place_random_full by done.
    split; [done|]. split; [done|]. lia.
  - destruct (place_random_some rnd gm Hwf Hne) as (j & i & Hp & Hc & Hrun).
    eexists. split; [exact Hrun|]. cbn [grid with_cells].
    split; [by apply wf_raw_set|].
    rewrite total_raw_set, Hc by done. unfold EMPTY. lia.
Qed.

(** X21.  A slam that returns changes the sum of the values on the board
    by the spawn value exactly: moving and merging tiles keep the sum, and a
    tile of the spawn value is added when the three passes left a cell
    available, none otherwise. *)
Theorem slam_total (gm gm' : Game) (d : direction) (rnd : nat) :
  wf (grid gm) ->
  slam d rnd gm = Ok tt gm' ->
  exists p,
    _get_params_for_direction d gm = Ok p gm /\
    total (state_of (slam_moves p (grid gm))) = total (grid gm) /\
    total (grid gm')
    = total (grid gm)
      + (if decide (available_cells (state_of (slam_moves p (grid gm))) = [])
         then 0 else initial_value gm).
Proof.
  intros Hwf Hrun.
  destruct (dir_in d DIRECTIONS) eqn:Hd; cycle 1.
  { unfold slam, _validate_direction in Hrun. rewrite Hd in Hrun.
    cbn [negb] in Hrun. by erewrite bind_Raise in Hrun by reflexivity. }
  exists (params_for d (grid gm)). split; [by apply params_of_direction|].
  pose proof (slam_moves_total d (grid gm) Hwf) as Ht.
  split; [done|].
  unfold slam, _validate_direction in Hrun. rewrite Hd in Hrun.
  cbn [negb] in Hrun.
  erewrite bind_Ok in Hrun by reflexivity.
  erewrite bind_Ok in Hrun by (by apply params_of_direction).
  fold (params_for d (grid gm)) in Hrun.
  destruct (slam_moves_outcome_of d (grid gm) Hwf)
    as (g1 & Hrun1 & Hwf1 & _).
  assert (state_of (slam_moves (params_for d (grid gm)) (grid gm)) = g1)
    as Hg1 by (rewrite Hrun1; by case_decide).
  rewrite Hg1 in *. clear Hg1.
  destruct (decide (ncols_of d (grid gm) <= nlines_of d (grid gm)))
    as [Hle|Hgt].
  - erewrite bind_Ok in Hrun by (by rewrite with_grid_unfold, Hrun1).
    destruct (place_random_total rnd (with_cells gm g1) Hwf1)
      as (gm2 & Hrun2 & Hwf2 & Ht2).
    erewrite bind_Ok in Hrun by exact Hrun2.
    destruct (update_max_returns gm2 Hwf2) as (m & Hrun3).
    rewrite Hrun3 in Hrun. injection Hrun as <-.
    cbn [grid with_cells initial_value] in *. rewrite Ht2. lia.
  - by erewrite bind_Raise in Hrun by (by rewrite with_grid_unfold, Hrun1).
Qed.

(** The theorem at the rows [2 2] and [0 4] of a 2x2 grid, slammed to the
    left: the board sums to 8 before and to 10 after. *)
Lemma slam_total_witness :
  let gm := game_on (grid_2x2 2 2 0 4) 2 in
  total (grid gm) = 8 /\
  total (grid (state_of (slam LEFT 0 gm))) = 10 /\
  exists p,
    _get_params_for_direction LEFT gm = Ok p gm /\
    total (state_of (slam_moves p (grid gm))) = total (grid gm) /\
    total (grid (state_of (slam LEFT 0 gm)))
    = total (grid gm)
      + (if decide (available_cells (state_of (slam_moves p (grid gm))) = [])
         then 0 else initial_value gm).
Proof.
  intros gm. split; [reflexivity|]. split; [reflexivity|].
  apply (slam_total gm (state_of (slam LEFT 0 gm)) LEFT 0).
  - apply wf_grid_2x2.
  - reflexivity.
Defined.

(** ** A board on which no cell can move *)

Lemma for_each_fixed {S A} (l : list A) (body : A -> M S unit) (s : S) :
  (forall x, x ∈ l -> body x s = Ok tt s) -> for_each l body s = Ok tt s.
Proof.
  induction l as [|x l IH]; intros Hl; cbn [for_each]; [done|].
  erewrite bind_Ok by (apply Hl; by left).
  apply IH. intros y Hy. apply Hl. by right.
Qed.

Section Fixed.
Variables (W H nlines ncols : Z).
Variable get_ : Z -> Z -> M Grid Z.
Variable set_ : Z -> Z -> Z -> M Grid Z.
Variable rd : Grid -> Z -> Z -> Z.

Local Abbreviation ok := (ok W H).
Local Abbreviation inside := (inside nlines ncols).

Hypothesis get_inside : forall g r c,
  ok g -> inside r c -> get_ r c g = Ok (rd g r c) g.
Hypothesis get_outside : forall g r c,
  ok g -> ~ inside r c -> get_ r c g = Raise IndexError g.

Variables (start delta : Z).
Hypothesis scan_dir :
  (start = 0 /\ delta = 1) \/ (start = ncols - 1 /\ delta = -1).
Hypothesis ncols_pos : 0 < ncols.
Hypothesis nlines_pos : 0 < nlines.

Local Abbreviation pos := (pos start delta).
Local Abbreviation P := (mkParams start ncols delta get_ set_).

(** On a line where no cell equals the next one in scan order, unless both
    are EMPTY, the loop of [_combine] changes nothing. *)
Lemma combine_while_fixed row g :
  0 <= row < nlines -> ok g ->
  (forall k, 0 <= k < ncols - 1 ->
     rd g row (pos k) = EMPTY \/
     rd g row (pos k) <> rd g row (pos (k + 1))) ->
  forall fuel kc,
    0 <= kc -> (ncols = 1 -> kc = 0) ->
    ncols - 1 <= Z.of_nat fuel + kc ->
    combine_while fuel start ncols delta get_ set_ row (pos kc) g = Ok tt g.
Proof.
  intros Hrow Hok Hne.
  induction fuel as [|fuel IH]; intros kc Hk H1 Hfuel;
    cbn [combine_while];
    rewrite (combine_cond ncols start delta scan_dir ncols_pos) by done;
    case_bool_decide as Hlt; try lia; try done.
  assert (inside row (pos kc) /\ inside row (pos (kc + 1))) as [Hic Hin].
  { split; apply (pos_inside nlines ncols start delta scan_dir); lia. }
  unfold bind. rewrite pos_next.
  rewrite (get_inside g _ _ Hok Hic), (get_inside g _ _ Hok Hin).
  assert (negb (rd g row (pos kc) =? EMPTY)
          && (rd g row (pos kc) =? rd g row (pos (kc + 1))) = false) as ->.
  { destruct (Hne kc ltac:(lia)) as [E|E].
    - by rewrite E.
    - apply andb_false_iff. right. by apply Z.eqb_neq. }
  apply IH; lia.
Qed.

(** A frame without an EMPTY cell and without two equal cells next to each
    other in a line is left as it is by the three passes, whether they
    return or raise. *)
Lemma slam_moves_fixed g :
  ok g ->
  (forall r c, inside r c -> rd g r c <> EMPTY) ->
  (forall r k, 0 <= r < nlines -> 0 <= k < ncols - 1 ->
     rd g r (pos k) <> rd g r (pos (k + 1))) ->
  slam_moves P g =
  if decide (ncols <= nlines) then Ok tt g else Raise IndexError g.
Proof.
  intros Hok Hfull Hne.
  assert (_squash P g =
          if decide (ncols <= nlines) then Ok tt g else Raise IndexError g)
    as Hsq.
  { change (_squash P)
      with (for_each (seqZ 0 ncols)
              (squash_row ncols get_ set_ start delta)).
    rewrite (squash_rows_packed W H nlines ncols get_ set_ rd get_inside
               get_outside start delta scan_dir ncols_pos (Z.to_nat ncols));
      [by rewrite Z.add_0_l|lia|done|lia|].
    intros r Hr Hr'. exists ncols. split; [lia|]. split; [|intros; lia].
    intros k Hk. apply Hfull.
    apply (pos_inside nlines ncols start delta scan_dir); lia. }
  unfold slam_moves. destruct (decide (ncols <= nlines)) as [Hle|Hgt].
  - erewrite bind_Ok by exact Hsq.
    assert (_combine P g = Ok tt g) as Hco.
    { change (_combine P)
        with (for_each (range ncols)
                (fun row => combine_while (Z.to_nat ncols) start ncols delta
                                          get_ set_ row start)).
      apply for_each_fixed. intros row Hr%elem_of_range.
      pose proof (combine_while_fixed row g ltac:(lia) Hok) as Hrun.
      rewrite <- (pos_0 start delta) at 2.
      apply Hrun; try lia. intros k Hk. right. apply Hne; lia. }
    by erewrite bind_Ok by exact Hco.
  - by erewrite bind_Raise by exact Hsq.
Qed.
End Fixed.

Lemma stuck_full g j i : stuck g -> public g j i -> cell g j i <> EMPTY.
Proof.
  intros Hst Hp E. apply Hst. exists j, i. split; [done|]. by left.
Qed.

Lemma stuck_neighbor g j i d :
  stuck g -> d ∈ DIRECTIONS -> public g j i ->
  public g (j + fst d) (i + snd d) ->
  cell g j i <> cell g (j + fst d) (i + snd d).
Proof.
  intros Hst Hd Hp Hn E. apply Hst. exists j, i. split; [done|].
  right. exists d. split; [done|]. split; [done|]. by right.
Qed.

Lemma stuck_no_available g : wf g -> stuck g -> available_cells g = [].
Proof.
  intros Hwf Hst. destruct (available_cells g) as [|[j i] l] eqn:E; [done|].
  assert ((j, i) ∈ available_cells g) as Hin by (rewrite E; by left).
  apply elem_of_available_cells in Hin as [Hp Hc]; [|done].
  by destruct (stuck_full g j i Hst Hp).
Qed.

Lemma stuck_slam_moves d g :
  wf g -> stuck g ->
  slam_moves (params_for d g) g =
  if decide (ncols_of d g <= nlines_of d g) then Ok tt g
  else Raise IndexError g.
Proof.
  intros Hwf Hst.
  apply (slam_moves_fixed (width g) (height g) (nlines_of d g)
           (ncols_of d g) (frame_get (transposed d))
           (frame_set (transposed d)) (view (transposed d))
           (frame_get_inside (width g) (height g) (transposed d))
           (frame_get_outside (width g) (height g) (transposed d))
           (start_of d g) (delta_of d) (scan_of_direction d g)
           (ncols_of_pos d g Hwf) (nlines_of_pos d g Hwf) g
           (ok_self g Hwf)).
  - intros r c Hin%inside_public. unfold view.
    destruct (transposed d); by apply stuck_full.
  - intros r k Hr Hk.
    pose proof (pos_inside (nlines_of d g) (ncols_of d g) (start_of d g)
                  (delta_of d) (scan_of_direction d g) r k Hr ltac:(lia))
      as Hin%inside_public.
    pose proof (pos_inside (nlines_of d g) (ncols_of d g) (start_of d g)
                  (delta_of d) (scan_of_direction d g) r (k + 1) Hr
                  ltac:(lia)) as Hin'%inside_public.
    rewrite <- pos_next in *. unfold view.
    set (c := pos (start_of d g) (delta_of d) k) in *.
    assert (delta_of d = 1 \/ delta_of d = -1) as Hdelta
      by (unfold delta_of; destruct (reversed d); auto).
    destruct (transposed d).
    + destruct Hdelta as [E | E]; rewrite E in *.
      * pose proof (stuck_neighbor g c r DOWN Hst) as Hn.
        unfold DOWN in Hn. cbn [fst snd] in Hn. rewrite Z.add_0_r in Hn.
        apply Hn; [do 2 right; by left|done..].
      * pose proof (stuck_neighbor g c r UP Hst) as Hn.
        unfold UP in Hn. cbn [fst snd] in Hn. rewrite Z.add_0_r in Hn.
        apply Hn; [by left|done..].
    + destruct Hdelta as [E | E]; rewrite E in *.
      * pose proof (stuck_neighbor g r c RIGHT Hst) as Hn.
        unfold RIGHT in Hn. cbn [fst snd] in Hn. rewrite Z.add_0_r in Hn.
        apply Hn; [right; by left|done..].
      * pose proof (stuck_neighbor g r c LEFT Hst) as Hn.
        unfold LEFT in Hn. cbn [fst snd] in Hn. rewrite Z.add_0_r in Hn.
        apply Hn; [do 3 right; by left|done..].
Qed.

(** X22.  When no cell of the board can move, the condition on which
    [is_over] reports a lost game, no slam changes the board: in every
    direction, recognized or not, and whether the slam returns or raises,
    the grid is afterwards what it was. *)
Theorem stuck_board_stays (gm : Game) (d : direction) (rnd : nat) :
  wf (grid gm) -> stuck (grid gm) ->
  grid (state_of (slam d rnd gm)) = grid gm.
Proof.
  intros Hwf Hst. unfold slam, _validate_direction.
  destruct (dir_in d DIRECTIONS) eqn:Hd; cbn [negb]; cycle 1.
  { by erewrite bind_Raise by reflexivity. }
  erewrite bind_Ok by reflexivity.
  erewrite bind_Ok by (by apply params_of_direction).
  fold (params_for d (grid gm)).
  pose proof (stuck_slam_moves d (grid gm) Hwf Hst) as Hrun.
  destruct (decide (ncols_of d (grid gm) <= nlines_of d (grid gm))).
  - erewrite bind_Ok by (by rewrite with_grid_unfold, Hrun).
    erewrite bind_Ok
      by (apply place_random_full; by apply stuck_no_available).
    destruct (update_max_returns (with_cells gm (grid gm)) Hwf)
      as (m & Hrun3).
    by rewrite Hrun3.
  - by erewrite bind_Raise by (by rewrite with_grid_unfold, Hrun).
Qed.

(** The theorem at the full 2x2 board [2 4 / 8 16]. *)
Lemma stuck_board_stays_witness :
  is_over (game_on (grid_2x2 2 4 8 16) 2)
  = Ok true (game_on (grid_2x2 2 4 8 16) 2) /\
  grid (state_of (slam UP 5 (game_on (grid_2x2 2 4 8 16) 2)))
  = grid_2x2 2 4 8 16.
Proof.
  split; [reflexivity|].
  apply (stuck_board_stays (game_on (grid_2x2 2 4 8 16) 2) UP 5).
  - apply wf_grid_2x2.
  - intros (j & i & Hp & Hmv). revert Hp Hmv.
    unfold public, can_move_at, cell, raw. cbn. intros [Hj Hi].
    assert ((j = 0 \/ j = 1) /\ (i = 0 \/ i = 1)) as [[-> | ->] [-> | ->]]
      by lia;
      (intros [E|(d0 & Hd & Hpub & E)]; [by vm_compute in E|];
       unfold DIRECTIONS in Hd;
       repeat (apply elem_of_cons in Hd as [-> | Hd]);
       try (by inversion Hd);
       vm_compute in Hpub, E; intuition (try discriminate; try lia)).
Defined.

(** ** The values of a combined line *)

Lemma merge_cons2 x y l :
  merge (x :: y :: l)
  = if negb (x =? EMPTY) && (x =? y) then x * 2 :: EMPTY :: merge l
    else x :: merge (y :: l).
Proof. reflexivity. Qed.

Lemma merge_short l : (length l <= 1)%nat -> merge l = l.
Proof. destruct l as [|x [|y l]]; cbn; [done..|lia]. Qed.

Section Merge.
Variables (W H nlines ncols : Z).
Variable get_ : Z -> Z -> M Grid Z.
Variable set_ : Z -> Z -> Z -> M Grid Z.
Variable rd : Grid -> Z -> Z -> Z.

Local Abbreviation ok := (ok W H).
Local Abbreviation inside := (inside nlines ncols).
Local Abbreviation step := (step W H nlines ncols rd).

Hypothesis get_inside : forall g r c,
  ok g -> inside r c -> get_ r c g = Ok (rd g r c) g.
Hypothesis get_outside : forall g r c,
  ok g -> ~ inside r c -> get_ r c g = Raise IndexError g.
Hypothesis set_inside : forall g r c v,
  ok g -> inside r c ->
  exists g', set_ r c v g = Ok v g' /\ ok g' /\
             forall r' c', rd g' r' c' = upd (rd g) r c v r' c'.

Variables (start delta : Z).
Hypothesis scan_dir :
  (start = 0 /\ delta = 1) \/ (start = ncols - 1 /\ delta = -1).
Hypothesis ncols_pos : 0 < ncols.
Hypothesis nlines_pos : 0 < nlines.

Local Abbreviation pos := (pos start delta).
Local Abbreviation combine_row := (combine_row ncols get_ set_ start delta).
Local Abbreviation scan :=
  (fun g r => (fun k => rd g r (pos k)) <$> range ncols).

(** No line outside the frame changes. *)
Lemma no_steps (P : Z -> Prop) g g' :
  (forall r, P r -> ~ 0 <= r < nlines) -> rtc (step P) g g' -> g' = g.
Proof.
  intros HP Hr. destruct Hr as [|g g1 g' Hs _]; [done|].
  exfalso.
  destruct Hs as [r a b Hr [Hin _] _ _ _ _ _|r a b Hr [Hin _] _ _ _ _ _ _];
    by apply (HP r).
Qed.

(** The loop invariant: the cells the scan has passed are final, and the
    rest of the line comes out as [merge] makes it. *)
Lemma combine_while_merges row :
  0 <= row < nlines ->
  forall fuel kc g,
    ok g -> 0 <= kc <= ncols -> (ncols = 1 -> kc = 0) ->
    ncols - 1 <= Z.of_nat fuel + kc ->
    exists g',
      combine_while fuel start ncols delta get_ set_ row (pos kc) g
      = Ok tt g' /\ ok g' /\
      scan g' row
      = ((fun k => rd g row (pos k)) <$> range kc)
        ++ merge ((fun k => rd g row (pos k)) <$> seqZ kc (ncols - kc)).
Proof.
  intros Hrow.
  induction fuel as [|fuel IH]; intros kc g Hok Hk H1 Hfuel;
    cbn [combine_while];
    rewrite (combine_cond ncols start delta scan_dir ncols_pos) by lia;
    case_bool_decide as Hlt; try lia.
  1, 3: (exists g; split; [done|]; split; [done|];
         rewrite merge_short by (rewrite length_fmap, length_seqZ; lia);
         by rewrite (range_split kc ncols) at 1 by lia;
            rewrite fmap_app).
  assert (inside row (pos kc) /\ inside row (pos (kc + 1))) as [Hic Hin].
  { split; apply (pos_inside nlines ncols start delta scan_dir); lia. }
  assert (pos kc + delta * 2 = pos (kc + 2)) as Hnext2
      by (unfold pos; ring).
  assert (Hinj : forall k k', pos k = pos k' -> k = k')
    by (apply (pos_inj ncols start delta scan_dir)).
  assert (seqZ kc (ncols - kc)
          = kc :: (kc + 1) :: seqZ (kc + 2) (ncols - (kc + 2))) as Hseq.
  { rewrite seqZ_cons by lia. f_equal.
    rewrite seqZ_cons by lia. f_equal. f_equal; lia. }
  rewrite Hseq, !fmap_cons, merge_cons2.
  unfold bind. rewrite pos_next.
  rewrite (get_inside g _ _ Hok Hic), (get_inside g _ _ Hok Hin).
  destruct (negb (rd g row (pos kc) =? EMPTY)
            && (rd g row (pos kc) =? rd g row (pos (kc + 1)))) eqn:Hm.
  - destruct (set_inside g row (pos kc) (rd g row (pos kc) * 2) Hok Hic)
      as (g1 & Hs1 & Hok1 & Hrd1).
    destruct (set_inside g1 row (pos (kc + 1)) EMPTY Hok1 Hin)
      as (g2 & Hs2 & Hok2 & Hrd2).
    rewrite Hs1, Hs2, Hnext2.
    assert (Hrd : forall c,
               rd g2 row c =
               upd (upd (rd g) row (pos kc) (rd g row (pos kc) * 2))
                   row (pos (kc + 1)) EMPTY row c).
    { intros c. rewrite Hrd2. unfold upd. by rewrite Hrd1. }
    destruct (IH (kc + 2) g2 Hok2) as (g' & Hrun & Hok' & Hline); try lia.
    exists g'. split; [done|]. split; [done|]. rewrite Hline.
    replace (kc + 2) with (kc + 1 + 1) at 1 by lia.
    rewrite !range_snoc, !fmap_app, <- !app_assoc by lia.
    cbn [fmap list_fmap app]. f_equal.
    { apply fmap_ext_in. intros k Hx%elem_of_range. rewrite Hrd. unfold upd.
      rewrite !decide_False; [done|intros [_ ?%Hinj]; lia..]. }
    f_equal.
    { rewrite Hrd. unfold upd.
      rewrite decide_False by (intros [_ ?%Hinj]; lia).
      by rewrite decide_True. }
    f_equal.
    { rewrite Hrd. unfold upd. by rewrite decide_True. }
    f_equal. apply fmap_ext_in. intros k Hx%elem_of_seqZ.
    rewrite Hrd. unfold upd.
    rewrite !decide_False; [done|intros [_ ?%Hinj]; lia..].
  - destruct (IH (kc + 1) g Hok) as (g' & Hrun & Hok' & Hline); try lia.
    exists g'. split; [done|]. split; [done|]. rewrite Hline.
    rewrite range_snoc, fmap_app, <- app_assoc by lia.
    cbn [fmap list_fmap app]. do 3 f_equal.
    rewrite (seqZ_cons (kc + 1)) by lia. rewrite fmap_cons.
    do 3 f_equal; lia.
Qed.

Lemma combine_row_merges row g :
  ok g -> 0 <= row < nlines ->
  exists g',
    combine_row row g = Ok tt g' /\ ok g' /\
    scan g' row = merge (scan g row) /\
    (forall r' c, r' <> row -> rd g' r' c = rd g r' c).
Proof.
  intros Hok Hrow. unfold combine_row.
  pose proof (combine_while_merges row Hrow (Z.to_nat ncols) 0 g Hok)
    as Hrun.
  rewrite pos_0 in Hrun.
  destruct Hrun as (g' & Hrun & Hok' & Hline); try lia.
  exists g'. split; [done|]. split; [done|]. split.
  - rewrite Hline. cbn [app]. by rewrite Z.sub_0_r.
  - intros r' c Hr'.
    assert (delta <> 0) as Hd by (destruct scan_dir as [[_ ->]|[_ ->]]; lia).
    pose proof (combine_while_steps W H nlines ncols get_ set_ rd get_inside
                  get_outside set_inside (fun r => r = row) start delta
                  (Z.to_nat ncols) row start eq_refl Hd g Hok) as Hsteps.
    rewrite Hrun in Hsteps.
    by apply (steps_other_lines W H nlines ncols rd (fun r => r = row)
                g g' r' c).
Qed.

(** The [for] loop of [_combine] merges every line of the frame it reaches,
    in whatever state it ends. *)
Lemma combine_rows_merge (n : nat) :
  forall len a g,
    len = Z.of_nat n -> ok g -> 0 <= a ->
    exists g',
      state_of (for_each (seqZ a len) combine_row g) = g' /\ ok g' /\
      (forall r, a <= r < a + len -> r < nlines ->
                 scan g' r = merge (scan g r)) /\
      (forall r c, ~ a <= r < a + len -> rd g' r c = rd g r c).
Proof.
  assert (delta <> 0) as Hd by (destruct scan_dir as [[_ ->]|[_ ->]]; lia).
  induction n as [|n IH]; intros len a g -> Hok Ha.
  - exists g. do 2 (split; [done|]). split; [intros; lia|done].
  - destruct (decide (a < nlines)) as [Hlt|Hge].
    + rewrite seqZ_cons by lia. cbn [for_each].
      destruct (combine_row_merges a g Hok)
        as (g1 & Hrun & Hok1 & Hm1 & Hoth1); [lia|].
      erewrite bind_Ok by exact Hrun.
      destruct (IH (Z.pred (Z.of_nat (Datatypes.S n))) (Z.succ a) g1)
        as (g' & Hrun' & Hok' & Hm' & Hoth'); auto; try lia.
      exists g'. split; [done|]. split; [done|]. split.
      * intros r Hr Hr'. destruct (decide (r = a)) as [->|Hne].
        -- rewrite <- Hm1. apply fmap_ext_in. intros k _. apply Hoth'. lia.
        -- rewrite Hm' by lia. f_equal. apply fmap_ext_in.
           intros k _. by apply Hoth1.
      * intros r c Hr. rewrite Hoth' by lia. apply Hoth1. lia.
    + exists g. split; [|split; [done|split; [intros; lia|done]]].
      apply (no_steps (fun r => nlines <= r)); [intros; lia|].
      apply (moves_by_for_each (step (fun r => nlines <= r)) ok);
        [apply step_ok| |done].
      intros row Hx%elem_of_seqZ.
      apply (combine_while_steps W H nlines ncols get_ set_ rd get_inside
               get_outside set_inside); [lia|done].
Qed.

Lemma combine_merges g :
  ok g ->
  exists g',
    state_of (_combine (mkParams start ncols delta get_ set_) g) = g' /\
    ok g' /\
    (forall r, 0 <= r < ncols -> r < nlines ->
               scan g' r = merge (scan g r)).
Proof.
  intros Hok.
  change (_combine (mkParams start ncols delta get_ set_))
    with (for_each (seqZ 0 ncols) combine_row).
  destruct (combine_rows_merge (Z.to_nat ncols) ncols 0 g)
    as (g' & Hrun & Hok' & Hm & _); [lia|done|lia|].
  exists g'. split; [done|]. split; [done|].
  intros r Hr Hr'. apply Hm; lia.
Qed.
End Merge.

Lemma combine_merges_of d g r :
  wf g -> 0 <= r < ncols_of d g -> r < nlines_of d g ->
  scan_line d (state_of (_combine (params_for d g) g)) r
  = merge (scan_line d g r).
Proof.
  intros Hwf Hr Hr'.
  destruct (combine_merges (width g) (height g) (nlines_of d g)
              (ncols_of d g) (frame_get (transposed d))
              (frame_set (transposed d)) (view (transposed d))
              (frame_get_inside (width g) (height g) (transposed d))
              (frame_get_outside (width g) (height g) (transposed d))
              (frame_set_inside (width g) (height g) (transposed d))
              (start_of d g) (delta_of d) (scan_of_direction d g)
              (ncols_of_pos d g Hwf) g
              (ok_self g Hwf)) as (g' & Hrun & (_ & Hw & Hh) & Hs).
  unfold params_for. rewrite Hrun.
  rewrite <- (scan_line_ext d g g' r Hw Hh), Hs by lia.
  reflexivity.
Qed.

(** X23.  For each of the four directions, [_combine] makes of every line
    it reaches what [merge] makes of its values read in scan order: a value
    that is not EMPTY and equals the next one is doubled and the next one
    becomes EMPTY, and the doubled value is not merged again.  This holds
    in the state the pass ends in whether it returns or raises, and whatever
    the values. *)
Theorem combine_merges_lines (gm : Game) (d : direction) (p : params)
    (r : Z) :
  wf (grid gm) ->
  _get_params_for_direction d gm = Ok p gm ->
  0 <= r < ncols_of d (grid gm) -> r < nlines_of d (grid gm) ->
  scan_line d (state_of (_combine p (grid gm))) r
  = merge (scan_line d (grid gm) r).
Proof.
  intros Hwf [Hd ->]%params_inv Hr Hr'.
  pose proof (combine_merges_of d (grid gm) r Hwf Hr Hr') as Hm.
  by rewrite Hm.
Qed.

(** The theorem at the row [2 2 / 4 4] of a 2x2 grid, combined to the
    right. *)
Lemma combine_merges_lines_witness :
  scan_line RIGHT (grid_2x2 2 2 4 4) 1 = [4; 4] /\
  merge [4; 4] = [8; 0] /\
  scan_line RIGHT
    (state_of (_combine (params_for RIGHT (grid_2x2 2 2 4 4))
                        (grid_2x2 2 2 4 4))) 1
  = merge (scan_line RIGHT (grid_2x2 2 2 4 4) 1).
Proof.
  split; [reflexivity|]. split; [reflexivity|].
  apply (combine_merges_lines (game_on (grid_2x2 2 2 4 4) 2) RIGHT
           (params_for RIGHT (grid_2x2 2 2 4 4)) 1).
  - apply wf_grid_2x2.
  - reflexivity.
  - vm_compute. split; [discriminate|reflexivity].
  - vm_compute. reflexivity.
Defined.

(** What a pass keeps of the grid it started from. *)
Lemma pass_keeps d g g' :
  wf g -> public_nonneg g ->
  rtc (step (width g) (height g) (nlines_of d g) (ncols_of d g)
            (view (transposed d)) (looped (ncols_of d g))) g g' ->
  wf g' /\ public_nonneg g' /\ params_for d g' = params_for d g /\
  ncols_of d g' = ncols_of d g /\ nlines_of d g' = nlines_of d g.
Proof.
  intros Hwf Hnn Hsteps.
  pose proof (steps_ok _ _ _ _ _ _ _ _ (ok_self g Hwf) Hsteps)
    as (Hwf' & Hw & Hh).
  assert (Hnn0 : nonneg (nlines_of d g) (ncols_of d g)
                        (view (transposed d)) g).
  { intros r c Hin%inside_public. unfold view.
    destruct (transposed d); by apply Hnn. }
  pose proof (steps_nonneg _ _ _ _ _ _ _ _ Hnn0 Hsteps) as Hnn'.
  split; [done|]. split.
  { intros j' i' [Hj' Hi']. rewrite Hw, Hh in *.
    unfold nonneg, inside, nlines_of, ncols_of, view in Hnn'.
    destruct (transposed d);
      [apply (Hnn' i' j')|apply (Hnn' j' i')]; split; lia. }
  unfold params_for, start_of, ncols_of, nlines_of.
  by rewrite Hw, Hh.
Qed.

Lemma squash_by_steps d g :
  wf g ->
  rtc (step (width g) (height g) (nlines_of d g) (ncols_of d g)
            (view (transposed d)) (looped (ncols_of d g)))
      g (state_of (_squash (params_for d g) g)).
Proof.
  intros Hwf.
  apply (squash_steps (width g) (height g) (nlines_of d g) (ncols_of d g)
           (frame_get (transposed d)) (frame_set (transposed d))
           (view (transposed d)));
    [exact (frame_get_inside (width g) (height g) (transposed d))
    |exact (frame_get_outside (width g) (height g) (transposed d))
    |exact (frame_set_inside (width g) (height g) (transposed d))
    |by apply ok_self].
Qed.

(** X24.  On a grid whose cells are EMPTY or positive and that has at
    least as many lines along the direction as a line has cells, the three
    passes of a slam return, and every line they reach then holds, read in
    scan order, its former values slid to the edge, merged, and slid
    again. *)
Theorem slam_moves_lines (gm : Game) (d : direction) (p : params) (r : Z) :
  wf (grid gm) -> public_nonneg (grid gm) ->
  _get_params_for_direction d gm = Ok p gm ->
  ncols_of d (grid gm) <= nlines_of d (grid gm) ->
  0 <= r < ncols_of d (grid gm) ->
  exists g',
    slam_moves p (grid gm) = Ok tt g' /\
    scan_line d g' r = slide (merge (slide (scan_line d (grid gm) r))).
Proof.
  intros Hwf Hnn [Hd ->]%params_inv Hle Hr. set (g := grid gm) in *.
  destruct (squash_outcome_of d g Hwf) as [g1 H1].
  rewrite decide_True in H1 by done.
  pose proof (squash_by_steps d g Hwf) as Hs1.
  pose proof (squash_slides_of d g r Hwf Hnn Hr ltac:(lia)) as Hl1.
  rewrite H1 in Hs1, Hl1. cbn [state_of] in Hs1, Hl1.
  destruct (pass_keeps d g g1 Hwf Hnn Hs1)
    as (Hwf1 & Hnn1 & Hp1 & Hc1 & Hn1).
  destruct (combine_returns_of d g1 Hwf1) as [g2 H2]; [lia|].
  pose proof (combine_by_steps d g1 Hwf1) as Hs2.
  pose proof (combine_merges_of d g1 r Hwf1 ltac:(lia) ltac:(lia)) as Hl2.
  rewrite H2 in Hs2, Hl2. cbn [state_of] in Hs2, Hl2.
  destruct (pass_keeps d g1 g2 Hwf1 Hnn1 Hs2)
    as (Hwf2 & Hnn2 & Hp2 & Hc2 & Hn2).
  destruct (squash_outcome_of d g2 Hwf2) as [g3 H3].
  rewrite decide_True in H3 by lia.
  pose proof (squash_slides_of d g2 r Hwf2 Hnn2 ltac:(lia) ltac:(lia))
    as Hl3.
  rewrite H3 in Hl3. cbn [state_of] in Hl3.
  rewrite Hp1 in H2. rewrite Hp2, Hp1 in H3.
  exists g3. split.
  - unfold slam_moves. erewrite bind_Ok by exact H1.
    by erewrite bind_Ok by exact H2.
  - by rewrite Hl3, Hl2, Hl1.
Qed.

(** The theorem at the row [2 2 / 0 4] of a 2x2 grid, slammed to the left
    into [4 0 / 4 0]. *)
Lemma slam_moves_lines_witness :
  exists g',
    slam_moves (params_for LEFT (grid_2x2 2 2 0 4)) (grid_2x2 2 2 0 4)
    = Ok tt g' /\
    scan_line LEFT g' 0
    = slide (merge (slide (scan_line LEFT (grid_2x2 2 2 0 4) 0))).
Proof.
  apply (slam_moves_lines (game_on (grid_2x2 2 2 0 4) 2) LEFT
           (params_for LEFT (grid_2x2 2 2 0 4)) 0).
  - apply wf_grid_2x2.
  - intros j i Hp. revert Hp. unfold public, cell, raw. cbn.
    intros [Hj Hi].
    assert ((j = 0 \/ j = 1) /\ (i = 0 \/ i = 1)) as [[-> | ->] [-> | ->]]
      by lia; vm_compute; discriminate.
  - reflexivity.
  - vm_compute. discriminate.
  - vm_compute. split; [discriminate|reflexivity].
Defined.
